(** * Poisson factorization for sparse matrices ([src/poismf.c])

    A shallow embedding of the alternating optimisation driver [run_poismf]
    and of the routines it is built from, followed by the properties of the
    written specification that were checked against it.

    Modelling conventions.
    - A C [double] is idealised as a real number ([R]); rounding, infinities
      and NaN are outside the model.  [log] is the natural logarithm [ln].
    - A C array is a [list R]; the pointer [p + off] is the suffix
      [skipn off p], and an in-place operation on the [k] cells at [p + off]
      rewrites exactly that window of the list ([in_place]).
    - [size_t] and [sparse_ix] values are natural numbers (no claim depends
      on wrap-around).
    - An [omp parallel for] over the rows of the free matrix is run in
      increasing row order: every iteration reads and writes only its own
      row of the free matrix, so every schedule gives the same result.
      The per-thread scratch windows of [buffer_arr] are local values.
    - The BLAS level-1 kernels ([cblas_ddot], [cblas_daxpy], [cblas_dscal])
      and the two row minimisers ([minimize_nonneg_cg], [tnc]) are external
      to the repository.  The kernels are given their reference semantics;
      the minimisers are parameters of the development.
    - [poismf.h] (the [fdata] struct, the [Method] enumeration) is not among
      the sources; both are reconstructed from their uses in [poismf.c]. *)

From Stdlib Require Import Reals Lra List Arith Lia Bool ZArith NArith.
Import ListNotations.
Local Open Scope R_scope.

(** ** Helper macro *)

(** [#define nonneg(x) (((x) > 0.)? (x) : 0.)] *)
Definition nonneg (x : R) : R := if Rlt_dec 0 x then x else 0.

(** ** BLAS level-1 kernels (reference semantics, unit strides) *)

(** [cblas_ddot(n, x, 1, y, 1)]: the sum of [x[i] * y[i]] for [i < n]. *)
Fixpoint cblas_ddot (n : nat) (x y : list R) : R :=
  match n, x, y with
  | S n', xi :: x', yi :: y' => xi * yi + cblas_ddot n' x' y'
  | _, _, _ => 0
  end.

(** [cblas_daxpy(n, alpha, x, 1, y, 1)]: [y[i] += alpha * x[i]] for [i < n];
    the result is the new content of [y]. *)
Fixpoint cblas_daxpy (n : nat) (alpha : R) (x y : list R) : list R :=
  match n, x, y with
  | S n', xi :: x', yi :: y' => (yi + alpha * xi) :: cblas_daxpy n' alpha x' y'
  | _, _, _ => y
  end.

(** [cblas_dscal(n, alpha, x, 1)]: [x[i] *= alpha] for [i < n]. *)
Fixpoint cblas_dscal (n : nat) (alpha : R) (x : list R) : list R :=
  match n, x with
  | S n', xi :: x' => (alpha * xi) :: cblas_dscal n' alpha x'
  | _, _ => x
  end.

(** ** Arrays, pointers and loops *)

(** The [k] cells stored at [M + i*k]: row [i] of a row-major matrix. *)
Definition row (M : list R) (k i : nat) : list R := firstn k (skipn (i * k) M).

(** An operation [f] performed in place on the [k] cells at [M + off]. *)
Definition in_place (off k : nat) (f : list R -> list R) (M : list R) : list R :=
  firstn off M ++ f (firstn k (skipn off M)) ++ skipn (off + k) M.

(** [for (i = 0; i < n; i++) body(i)] acting on a state of type [St]. *)
Definition for_loop {St : Type} (n : nat) (body : nat -> St -> St) (s : St) : St :=
  fold_left (fun s i => body i s) (seq 0 n) s.

(** [for (i = lo; i < hi; i++) body(i)]; the range is empty when
    [hi <= lo]. *)
Definition for_range {St : Type} (lo hi : nat) (body : nat -> St -> St) (s : St)
    : St :=
  fold_left (fun s i => body i s) (seq lo (hi - lo)) s.

(** [memset(out, 0, sizeof(double) * n)] on a buffer of [n] doubles. *)
Definition memset_zero (n : nat) : list R := repeat 0 n.

(** [for (ix = 0; ix < n; ix++) x[ix] *= alpha;] *)
Fixpoint scale_loop (n : nat) (alpha : R) (x : list R) : list R :=
  match n, x with
  | S n', xi :: x' => (xi * alpha) :: scale_loop n' alpha x'
  | _, _ => x
  end.

(** [for (kk = 0; kk < n; kk++) x[kk] += c;] *)
Fixpoint add_const (n : nat) (c : R) (x : list R) : list R :=
  match n, x with
  | S n', xi :: x' => (xi + c) :: add_const n' c x'
  | _, _ => x
  end.

(** [for (col = 0; col < n; col++) out[col] += src[col];] *)
Fixpoint add_into (n : nat) (src out : list R) : list R :=
  match n, src, out with
  | S n', si :: src', oi :: out' => (oi + si) :: add_into n' src' out'
  | _, _, _ => out
  end.

(** [for (ix = 0; ix < n; ix++) x[ix] = nonneg(x[ix]);] *)
Fixpoint clip_nonneg (n : nat) (x : list R) : list R :=
  match n, x with
  | S n', xi :: x' => nonneg xi :: clip_nonneg n' x'
  | _, _ => x
  end.

Definition INT_MAX : N := 2147483647%N.

(** [dscal_large]: BLAS when [n] fits an [int], a plain loop otherwise. *)
Definition dscal_large (n : nat) (alpha : R) (x : list R) : list R :=
  if (N.of_nat n <? INT_MAX)%N then cblas_dscal n alpha x
  else scale_loop n alpha x.

(** ** Aggregate statistics *)

(** [sum_by_cols(out, M, nrow, ncol)]: the result is the content of [out]. *)
Definition sum_by_cols (M : list R) (nrow ncol : nat) : list R :=
  for_loop nrow (fun r out => add_into ncol (skipn (r * ncol) M) out)
           (memset_zero ncol).

(** [adjustment_Bsum]: the result is the content of the first [dimA * k]
    cells of [Bsum_user]. *)
Definition adjustment_Bsum (B Bsum : list R) (Xr_indices Xr_indptr : list nat)
    (dimA k : nat) (w_mult : R) : list R :=
  let Bsum_user := memset_zero (dimA * k) in
  let Bsum_user :=
    for_loop dimA (fun r Bsum_user =>
      for_range (nth r Xr_indptr 0%nat) (nth (r + 1) Xr_indptr 0%nat)
        (fun ix Bsum_user =>
           in_place (r * k) k
             (cblas_daxpy k 1 (skipn (nth ix Xr_indices 0%nat * k) B))
             Bsum_user)
        Bsum_user) Bsum_user in
  let n := (dimA * k)%nat in
  let new_w := w_mult - 1 in
  let Bsum_user := scale_loop n new_w Bsum_user in
  for_loop dimA (fun r Bsum_user =>
    in_place (r * k) k (cblas_daxpy k 1 Bsum) Bsum_user) Bsum_user.

(** ** Proximal (projected) gradient *)

(** [calc_grad_pgd]: the result is the content of [out]. *)
Definition calc_grad_pgd (curr F X : list R) (Xind : list nat)
    (nnz_this k : nat) : list R :=
  for_loop nnz_this (fun ix out =>
    cblas_daxpy k
      (nth ix X 0 / cblas_ddot k (skipn (nth ix Xind 0%nat * k) F) curr)
      (skipn (nth ix Xind 0%nat * k) F) out)
    (memset_zero k).

(** One pass of the body of the [p] loop of [pg_iteration] on row [a]. *)
Definition pg_update (B X : list R) (Xind : list nat) (nnz_this k : nat)
    (cnst_div : R) (Bsum : list R) (step_size : R) (a : list R) : list R :=
  let buffer := calc_grad_pgd a B X Xind nnz_this k in
  let a := cblas_daxpy k step_size buffer a in
  let a := cblas_daxpy k 1 Bsum a in
  let a := cblas_dscal k cnst_div a in
  clip_nonneg k a.

(** [pg_iteration]: the result is the new content of [A]. *)
Definition pg_iteration (A B Xr : list R) (Xr_indptr Xr_indices : list nat)
    (dimA k : nat) (cnst_div : R) (cnst_sum Bsum_user : list R)
    (step_size w_mult : R) (maxupd : nat) : list R :=
  let step_size := step_size * w_mult in
  for_loop dimA (fun ia A =>
    let nnz_this := (nth (ia + 1) Xr_indptr 0 - nth ia Xr_indptr 0)%nat in
    let Bsum := if Req_dec_T w_mult 1 then cnst_sum
                else skipn (ia * k) Bsum_user in
    in_place (ia * k) k
      (for_loop maxupd (fun _ =>
         pg_update B (skipn (nth ia Xr_indptr 0%nat) Xr)
                   (skipn (nth ia Xr_indptr 0%nat) Xr_indices)
                   nnz_this k cnst_div Bsum step_size))
      A) A.

(** ** Row objective and gradient (conjugate gradient, truncated Newton) *)

(** Modelled from the spec: [struct fdata] is declared in [poismf.h], which
    is not among the sources.  It is the per-row context of the row
    objective (fixed matrix, aggregate statistics, the values and columns of
    the row's nonzeros, their number, the L2 weight, the weight multiplier,
    the row length); the fields are the ones the evaluators read, in the
    order of the initialiser
    [{ B, Bsum, NULL, NULL, 0, l2_reg, w_mult, k_int }]. *)
Record fdata : Type := mk_fdata {
  fd_B : list R;
  fd_Bsum : list R;
  fd_Xr : list R;
  fd_X_ind : list nat;
  fd_nnz_this : nat;
  fd_l2_reg : R;
  fd_w_mult : R;
  fd_k : nat
}.

(** [calc_fun_single]: the result is the value stored in [*f]. *)
Definition calc_fun_single (a_row : list R) (k_int : nat) (fun_data : fdata) : R :=
  let k := k_int in
  let reg_term := cblas_ddot k_int (fd_Bsum fun_data) a_row in
  let reg_term :=
    reg_term + fd_l2_reg fun_data * cblas_ddot k_int a_row a_row in
  let lsum :=
    for_loop (fd_nnz_this fun_data) (fun ix lsum =>
      lsum + nth ix (fd_Xr fun_data) 0
             * ln (cblas_ddot k_int a_row
                     (skipn (nth ix (fd_X_ind fun_data) 0%nat * k)
                            (fd_B fun_data)))) 0 in
  reg_term - lsum * fd_w_mult fun_data.

(** [calc_grad_single]: the result is the content of [grad]. *)
Definition calc_grad_single (a_row : list R) (k_int : nat) (fun_data : fdata)
    : list R :=
  let k := k_int in
  let grad := firstn k (fd_Bsum fun_data) in
  let grad := cblas_daxpy k_int (2 * fd_l2_reg fun_data) a_row grad in
  for_loop (fd_nnz_this fun_data) (fun ix grad =>
    cblas_daxpy k_int
      (- nth ix (fd_Xr fun_data) 0
         / cblas_ddot k_int a_row
             (skipn (nth ix (fd_X_ind fun_data) 0%nat * k) (fd_B fun_data)))
      (skipn (nth ix (fd_X_ind fun_data) 0%nat * k) (fd_B fun_data)) grad)
    grad.

(** [calc_grad_single_w]: the result is the content of [grad]. *)
Definition calc_grad_single_w (a_row : list R) (k_int : nat) (fun_data : fdata)
    : list R :=
  let k := k_int in
  let grad := memset_zero k in
  let grad :=
    for_loop (fd_nnz_this fun_data) (fun ix grad =>
      cblas_daxpy k_int
        (- nth ix (fd_Xr fun_data) 0
           / cblas_ddot k_int a_row
               (skipn (nth ix (fd_X_ind fun_data) 0%nat * k) (fd_B fun_data)))
        (skipn (nth ix (fd_X_ind fun_data) 0%nat * k) (fd_B fun_data)) grad)
      grad in
  let grad := cblas_dscal k_int (fd_w_mult fun_data) grad in
  let grad := cblas_daxpy k_int 1 (fd_Bsum fun_data) grad in
  cblas_daxpy k_int (2 * fd_l2_reg fun_data) a_row grad.

(** [calc_fun_and_grad]: the result is the pair of the value stored in [*f]
    and the content of [grad]; the C function always returns 0. *)
Definition calc_fun_and_grad (a_row : list R) (fun_data : fdata) : R * list R :=
  let k_int := fd_k fun_data in
  let k := k_int in
  let '(grad, lsum) :=
    for_loop (fd_nnz_this fun_data) (fun ix '(grad, lsum) =>
      let pred :=
        cblas_ddot k_int a_row
          (skipn (nth ix (fd_X_ind fun_data) 0%nat * k) (fd_B fun_data)) in
      (cblas_daxpy k_int (- nth ix (fd_Xr fun_data) 0 / pred)
         (skipn (nth ix (fd_X_ind fun_data) 0%nat * k) (fd_B fun_data)) grad,
       lsum + nth ix (fd_Xr fun_data) 0 * ln pred))
      (memset_zero k, 0) in
  let grad := if Req_dec_T (fd_w_mult fun_data) 1 then grad
              else cblas_dscal k_int (fd_w_mult fun_data) grad in
  let grad := cblas_daxpy k_int 1 (fd_Bsum fun_data) grad in
  let reg_term := cblas_ddot k_int (fd_Bsum fun_data) a_row in
  let grad := cblas_daxpy k_int (2 * fd_l2_reg fun_data) a_row grad in
  (reg_term - lsum * fd_w_mult fun_data, grad).

(** The callback types of the two external minimisers. *)
Definition fun_eval : Type := list R -> nat -> fdata -> R.
Definition grad_eval : Type := list R -> nat -> fdata -> list R.
Definition tnc_function : Type := list R -> fdata -> R * list R.

(** An upper bound of [tnc]: a finite number or [HUGE_VAL]. *)
Inductive upper_bound : Type :=
| Finite (r : R)
| HUGE_VAL.

(** The type of [minimize_nonneg_cg]: start point [x], [n], the two
    callbacks, their context, [tol], [maxnfeval], [maxiter], [decr_lnsrch],
    [lnsrch_const], [max_ls], [limit_step]. *)
Definition cg_minimizer : Type :=
  list R -> nat -> fun_eval -> grad_eval -> fdata ->
  R -> nat -> nat -> R -> R -> nat -> bool -> list R.

(** The type of [tnc]: [n], start point [x], the callback, its context,
    [low], [up], [maxCGit], [maxnfeval], [eta], [stepmx], [accuracy], [fmin],
    [ftol], [xtol], [pgtol], [rescale]. *)
Definition tnc_minimizer : Type :=
  nat -> list R -> tnc_function -> fdata -> list R -> list upper_bound ->
  nat -> nat -> R -> R -> R -> R -> R -> R -> R -> R -> list R.

(** Modelled from the spec: the enumeration [Method] is declared in
    [poismf.h], which is not among the sources; it is the method selector
    with the three values [tncg], [cg] and [pg] handled by [run_poismf]. *)
Inductive Method : Type := tncg | cg | pg.

(** [grad_eval *grad_fun = (w_mult == 1.)? calc_grad_single : calc_grad_single_w;] *)
Definition grad_fun (w_mult : R) : grad_eval :=
  if Req_dec_T w_mult 1 then calc_grad_single else calc_grad_single_w.

(** The [fdata] of row [ia], as filled at the top of the row loops of
    [cg_iteration] and [tncg_iteration]. *)
Definition row_data (B Xr : list R) (Xr_indptr Xr_indices : list nat) (k : nat)
    (Bsum : list R) (l2_reg w_mult : R) (Bsum_w : list R) (ia : nat) : fdata :=
  let data := mk_fdata B Bsum [] [] 0 l2_reg w_mult k in
  let data :=
    mk_fdata (fd_B data) (fd_Bsum data)
      (skipn (nth ia Xr_indptr 0%nat) Xr)
      (skipn (nth ia Xr_indptr 0%nat) Xr_indices)
      (nth (ia + 1) Xr_indptr 0 - nth ia Xr_indptr 0)%nat
      (fd_l2_reg data) (fd_w_mult data) (fd_k data) in
  if Req_dec_T w_mult 1 then data
  else mk_fdata (fd_B data) (skipn (ia * k) Bsum_w) (fd_Xr data)
         (fd_X_ind data) (fd_nnz_this data) (fd_l2_reg data) (fd_w_mult data)
         (fd_k data).

(** ** Process state: the cancellation flag and the heap *)

(** The six buffers [run_poismf] may allocate, named after the pointers. *)
Inductive buffer : Type :=
| Cnst_sum | Buffer_arr | Bsum_w | Buffer_int | Zeros_tncg | Inf_tncg.

Definition buffer_eq_dec (a b : buffer) : {a = b} + {a <> b}.
Proof. decide equality. Defined.

(** The global [should_stop_procedure] and the buffers currently live. *)
Record world : Type := mk_world {
  should_stop_procedure : bool;
  live : list buffer
}.

(** [set_interrup_global_variable]: the [SIGINT] handler. *)
Definition set_interrup_global_variable (w : world) : world :=
  mk_world true (live w).

(** [free(p)]; [free(NULL)] does nothing. *)
Definition free (p : option buffer) (w : world) : world :=
  match p with
  | Some b => mk_world (should_stop_procedure w) (remove buffer_eq_dec b (live w))
  | None => w
  end.

(** The matrices and the step-size variables that change over the outer
    iterations. *)
Record driver_state : Type := mk_state {
  st_A : list R;
  st_B : list R;
  st_step_size : R;
  st_neg_step_sz : R
}.

(** The pointers released at [cleanup]; [None] is [NULL]. *)
Record pointers : Type := mk_pointers {
  p_cnst_sum : option buffer;
  p_buffer_arr : option buffer;
  p_Bsum_w : option buffer;
  p_buffer_int : option buffer;
  p_zeros_tncg : option buffer;
  p_inf_tncg : option buffer
}.

(** What a call of [run_poismf] leaves behind. *)
Record outcome : Type := mk_outcome {
  ret_code : Z;
  out_A : list R;
  out_B : list R;
  out_world : world
}.

Definition is_null (p : option buffer) : bool :=
  match p with Some _ => false | None => true end.

Section Driver.

(** *** External collaborators *)

(** [minimize_nonneg_cg(x, n, &fun_val, calc_fun, grad_fun, NULL, data, tol,
    maxnfeval, maxiter, &niter, &nfeval, decr_lnsrch, lnsrch_const, max_ls,
    limit_step, buffer, 1, 0)]: the result is the new content of [x]. *)
Variable minimize_nonneg_cg : cg_minimizer.

(** [tnc(n, x, &f, g, function, state, low, up, NULL, NULL, 0, maxCGit,
    maxnfeval, eta, stepmx, accuracy, fmin, ftol, xtol, pgtol, rescale,
    &nfeval, &niter, ...)]: the result is the new content of [x]. *)
Variable tnc : tnc_minimizer.

(** Whether [malloc]/[calloc] succeeds for a given buffer. *)
Variable malloc_ok : buffer -> bool.

(** [sigint p]: an interrupt is delivered (and the handler run) between the
    previous test of the flag -- or the reset on entry -- and its [p]-th
    test, counting from 0. *)
Variable sigint : nat -> bool.

Definition malloc (b : buffer) (w : world) : option buffer * world :=
  if malloc_ok b then (Some b, mk_world (should_stop_procedure w) (b :: live w))
  else (None, w).

(** The environment up to the [p]-th test of the flag. *)
Definition deliver (p : nat) (w : world) : world :=
  if sigint p then set_interrup_global_variable w else w.

(** [cg_iteration]: the result is the new content of [A]. *)
Definition cg_iteration (A B Xr : list R) (Xr_indptr Xr_indices : list nat)
    (dimA k : nat) (limit_step : bool) (Bsum : list R) (l2_reg w_mult : R)
    (maxupd : nat) (Bsum_w : list R) : list R :=
  for_loop dimA (fun ia A =>
    let data :=
      row_data B Xr Xr_indptr Xr_indices k Bsum l2_reg w_mult Bsum_w ia in
    in_place (ia * k) k
      (fun a => minimize_nonneg_cg a k calc_fun_single (grad_fun w_mult) data
                  (1 / 100) 150%nat maxupd (1 / 4) (1 / 100) 20%nat limit_step)
      A) A.

(** [tncg_iteration]: the result is the new content of [A]. *)
Definition tncg_iteration (A B Xr : list R) (Xr_indptr Xr_indices : list nat)
    (dimA k : nat) (Bsum : list R) (l2_reg w_mult : R) (maxupd : nat)
    (zeros_tncg : list R) (inf_tncg : list upper_bound) (Bsum_w : list R)
    : list R :=
  let maxCGit := Nat.max 1 (Nat.min 50 (k / 2)) in
  for_loop dimA (fun ia A =>
    let data :=
      row_data B Xr Xr_indptr Xr_indices k Bsum l2_reg w_mult Bsum_w ia in
    in_place (ia * k) k
      (fun a => tnc k a calc_fun_and_grad data zeros_tncg inf_tncg
                  maxCGit maxupd (1 / 4) 10 0 0 (1 / 10000) (-1) (-1) (13 / 10))
      A) A.

(** *** The arguments of one call that never change *)

Variables (Xr : list R) (Xr_indptr Xr_indices : list nat).
Variables (Xc : list R) (Xc_indptr Xc_indices : list nat).
Variables (dimA dimB k : nat).
Variables (l2_reg l1_reg w_mult : R).
Variable method : Method.
Variable limit_step : bool.
Variable maxupd : nat.

(** Lines 397-418: the allocations after the flag reset.  The result tells
    whether control reached [throw_oom]. *)
Definition allocate (cnst_sum buffer_arr : option buffer) (w : world)
    : bool * pointers * world :=
  let '(Bsum_w_p, w) :=
    if Req_dec_T w_mult 1 then (None, w) else malloc Bsum_w w in
  if (if Req_dec_T w_mult 1 then false else is_null Bsum_w_p)
  then (true, mk_pointers cnst_sum buffer_arr Bsum_w_p None None None, w)
  else
    let '(buffer_int, zeros_tncg, inf_tncg, w) :=
      match method with
      | tncg =>
          let '(bi, w) := malloc Buffer_int w in
          let '(z, w) := malloc Zeros_tncg w in
          let '(i, w) := malloc Inf_tncg w in
          (bi, z, i, w)
      | _ => (None, None, None, w)
      end in
    let ptrs :=
      mk_pointers cnst_sum buffer_arr Bsum_w_p buffer_int zeros_tncg inf_tncg in
    match method with
    | tncg =>
        if is_null buffer_int || is_null zeros_tncg || is_null inf_tncg
        then (true, ptrs, w)
        else (is_null buffer_arr || is_null cnst_sum, ptrs, w)
    | _ => (is_null buffer_arr || is_null cnst_sum, ptrs, w)
    end.

(** The aggregate vector: [sum_by_cols] followed by the L1 increment. *)
Definition aggregate (M : list R) (nrow : nat) : list R :=
  let cnst_sum := sum_by_cols M nrow k in
  if Rlt_dec 0 l1_reg then add_const k l1_reg cnst_sum else cnst_sum.

(** Lines 427-467: the half-iteration that updates [A]; [cnst_div] is the
    value assigned on line 426.  The bound arrays of [tnc] are written out
    where they are passed: [zeros_tncg] comes from [calloc], and lines
    408-409 fill [inf_tncg] with [HUGE_VAL]. *)
Definition half_A (cnst_div : R) (st : driver_state) : driver_state :=
  let A := st_A st in
  let B := st_B st in
  let step_size := st_step_size st in
  let neg_step_sz := st_neg_step_sz st in
  let cnst_sum := aggregate B dimB in
  let Bsum_w_v :=
    if Req_dec_T w_mult 1 then []
    else adjustment_Bsum B cnst_sum Xr_indices Xr_indptr dimA k w_mult in
  let A :=
    match method with
    | pg =>
        let cnst_sum :=
          if Req_dec_T w_mult 1 then cblas_dscal k neg_step_sz cnst_sum
          else cnst_sum in
        let Bsum_w_v :=
          if Req_dec_T w_mult 1 then Bsum_w_v
          else dscal_large (dimA * k) neg_step_sz Bsum_w_v in
        let cnst_sum := cblas_dscal k neg_step_sz cnst_sum in
        pg_iteration A B Xr Xr_indptr Xr_indices dimA k cnst_div cnst_sum
          Bsum_w_v step_size w_mult maxupd
    | cg =>
        cg_iteration A B Xr Xr_indptr Xr_indices dimA k limit_step cnst_sum
          l2_reg w_mult maxupd Bsum_w_v
    | tncg =>
        tncg_iteration A B Xr Xr_indptr Xr_indices dimA k cnst_sum l2_reg
          w_mult maxupd (repeat 0 k) (repeat HUGE_VAL k) Bsum_w_v
    end in
  mk_state A B step_size neg_step_sz.

(** Lines 474-517: the half-iteration that updates [B], with the step-size
    decay of the [pg] case. *)
Definition half_B (cnst_div : R) (st : driver_state) : driver_state :=
  let A := st_A st in
  let B := st_B st in
  let step_size := st_step_size st in
  let neg_step_sz := st_neg_step_sz st in
  let cnst_sum := aggregate A dimA in
  let Bsum_w_v :=
    if Req_dec_T w_mult 1 then []
    else adjustment_Bsum A cnst_sum Xc_indices Xc_indptr dimB k w_mult in
  match method with
  | pg =>
      let cnst_sum :=
        if Req_dec_T w_mult 1 then cblas_dscal k neg_step_sz cnst_sum
        else cnst_sum in
      let Bsum_w_v :=
        if Req_dec_T w_mult 1 then Bsum_w_v
        else dscal_large (dimB * k) neg_step_sz Bsum_w_v in
      let B :=
        pg_iteration B A Xc Xc_indptr Xc_indices dimB k cnst_div cnst_sum
          Bsum_w_v step_size w_mult maxupd in
      let step_size := step_size * (1 / 2) in
      let neg_step_sz := - step_size in
      mk_state A B step_size neg_step_sz
  | cg =>
      let B :=
        cg_iteration B A Xr Xc_indptr Xc_indices dimB k limit_step cnst_sum
          l2_reg w_mult maxupd Bsum_w_v in
      mk_state A B step_size neg_step_sz
  | tncg =>
      let B :=
        tncg_iteration B A Xc Xc_indptr Xc_indices dimB k cnst_sum l2_reg
          w_mult maxupd (repeat 0 k) (repeat HUGE_VAL k) Bsum_w_v in
      mk_state A B step_size neg_step_sz
  end.

(** [cnst_div = 1. / (1. + 2. * l2_reg * step_size)] *)
Definition cnst_div_of (st : driver_state) : R :=
  1 / (1 + 2 * l2_reg * st_step_size st).

(** The [fulliter] loop with [iters] iterations left; [p] counts the tests
    of the flag made so far.  Leaving the loop through [goto cleanup] and
    running it to its end both return the current state. *)
Fixpoint outer_loop (iters p : nat) (w : world) (st : driver_state)
    : world * driver_state :=
  match iters with
  | O => (w, st)
  | S iters' =>
      let w := deliver p w in
      if should_stop_procedure w then (w, st)
      else
        let cnst_div := cnst_div_of st in
        let st := half_A cnst_div st in
        let w := deliver (p + 1) w in
        if should_stop_procedure w then (w, st)
        else
          let st := half_B cnst_div st in
          outer_loop iters' (p + 2) w st
  end.

(** The [cleanup] label. *)
Definition cleanup (ptrs : pointers) (w : world) : world :=
  let w := free (p_cnst_sum ptrs) w in
  let w := free (p_buffer_arr ptrs) w in
  let w := free (p_buffer_int ptrs) w in
  let w := free (p_Bsum_w ptrs) w in
  let w := free (p_zeros_tncg ptrs) w in
  let w := free (p_inf_tncg ptrs) w in
  mk_world false (live w).

(** [run_poismf]; [nthreads] only sizes the scratch buffers and the thread
    pool and is left out. *)
Definition run_poismf (A B : list R) (step_size : R) (numiter : nat) (w : world)
    : outcome :=
  let '(cnst_sum, w) := malloc Cnst_sum w in
  let neg_step_sz := - step_size in
  let '(buffer_arr, w) := malloc Buffer_arr w in
  let w := mk_world false (live w) in
  let st := mk_state A B step_size neg_step_sz in
  let '(oom, ptrs, w) := allocate cnst_sum buffer_arr w in
  if oom then
    mk_outcome 1%Z A B (cleanup ptrs w)
  else
    let '(w, st) := outer_loop numiter 0 w st in
    mk_outcome 0%Z (st_A st) (st_B st) (cleanup ptrs w).

(** The [i]-th half-iteration of an uninterrupted run, counting from 0: the
    even ones update [A], the odd ones update [B].  Within one outer
    iteration [step_size] does not change before the second half, so the
    divisor computed on line 426 is [cnst_div_of] of either state. *)
Definition nth_half (i : nat) (st : driver_state) : driver_state :=
  if Nat.even i then half_A (cnst_div_of st) st
  else half_B (cnst_div_of st) st.

(** The state after the first [n] half-iterations. *)
Definition halves (n : nat) (st : driver_state) : driver_state :=
  for_loop n nth_half st.

(** The buffers a call asks for: the aggregate vector and the scratch array
    always, the correction matrix when [w_mult != 1.], the three auxiliary
    buffers when [method == tncg]. *)
Definition requested (b : buffer) : bool :=
  match b with
  | Cnst_sum | Buffer_arr => true
  | Bsum_w => if Req_dec_T w_mult 1 then false else true
  | Buffer_int | Zeros_tncg | Inf_tncg =>
      match method with tncg => true | _ => false end
  end.

End Driver.

(** * Reference formulas

    The vector operations in which the written specification is phrased. *)

Definition vadd (u v : list R) : list R :=
  map (fun p => fst p + snd p) (combine u v).

Definition vsub (u v : list R) : list R :=
  map (fun p => fst p - snd p) (combine u v).

Definition vscale (c : R) (v : list R) : list R := map (Rmult c) v.

(** The sum of a list of reals, and of a list of vectors of length [k]. *)
Definition Rsum (l : list R) : R := fold_right Rplus 0 l.

Definition vsum (k : nat) (vs : list (list R)) : list R :=
  fold_right vadd (repeat 0 k) vs.

(** [dot(u, v)] for vectors of length [k]. *)
Definition dot (k : nat) (u v : list R) : R := cblas_ddot k u v.

(** The observed columns of entity [i] in a compressed sparse view, in the
    order of storage, and the values stored with them. *)
Definition nz_cols (indptr indices : list nat) (i : nat) : list nat :=
  map (fun ix => nth ix indices 0%nat)
      (seq (nth i indptr 0%nat) (nth (i + 1) indptr 0 - nth i indptr 0)%nat).

Definition nz_vals (X : list R) (indptr : list nat) (i : nat) : list R :=
  map (fun ix => nth ix X 0)
      (seq (nth i indptr 0%nat) (nth (i + 1) indptr 0 - nth i indptr 0)%nat).

(** Every listed column names a full row of the [k]-column matrix [B]. *)
Definition cols_in_range (B : list R) (k : nat) (cols : list nat) : Prop :=
  Forall (fun j => (j * k + k <= length B)%nat) cols.

(** The fixed-matrix row of the [ix]-th nonzero of a row context, and the
    value predicted for that nonzero by the row [a]. *)
Definition fd_row (fd : fdata) (k ix : nat) : list R :=
  row (fd_B fd) k (nth ix (fd_X_ind fd) 0%nat).

Definition fd_pred (a : list R) (k : nat) (fd : fdata) (ix : nat) : R :=
  dot k a (fd_row fd k ix).

(** The context is well formed for rows of length [k]: the aggregate vector
    has [k] cells and every nonzero names a full row of the fixed matrix. *)
Definition fdata_wf (k : nat) (fd : fdata) : Prop :=
  (k <= length (fd_Bsum fd))%nat
  /\ forall ix, (ix < fd_nnz_this fd)%nat ->
       (nth ix (fd_X_ind fd) 0 * k + k <= length (fd_B fd))%nat.

(** All predicted values are strictly positive. *)
Definition preds_positive (a : list R) (k : nat) (fd : fdata) : Prop :=
  forall ix, (ix < fd_nnz_this fd)%nat -> 0 < fd_pred a k fd ix.

(** [value(a) = dot(S, a) + l2 * dot(a, a) - weight * sum x * log(dot(a, B[col]))] *)
Definition value_formula (a : list R) (k : nat) (fd : fdata) : R :=
  dot k (fd_Bsum fd) a + fd_l2_reg fd * dot k a a
  - fd_w_mult fd
    * Rsum (map (fun ix => nth ix (fd_Xr fd) 0 * ln (fd_pred a k fd ix))
                (seq 0 (fd_nnz_this fd))).

(** [gradient(a) = S + 2 * l2 * a - weight * sum (x / dot(a, B[col])) * B[col]] *)
Definition gradient_formula (a : list R) (k : nat) (fd : fdata) : list R :=
  vsub (vadd (firstn k (fd_Bsum fd)) (vscale (2 * fd_l2_reg fd) a))
       (vscale (fd_w_mult fd)
          (vsum k (map (fun ix =>
                          vscale (nth ix (fd_Xr fd) 0 / fd_pred a k fd ix)
                                 (fd_row fd k ix))
                       (seq 0 (fd_nnz_this fd))))).

(** The weighted sum of fixed-matrix rows that appears in the gradient,
    at coordinate [c]. *)
Definition nz_sum (a : list R) (k : nat) (fd : fdata) (c : nat) : R :=
  Rsum (map (fun ix => nth ix (fd_Xr fd) 0 / fd_pred a k fd ix
                       * nth c (fd_row fd k ix) 0)
            (seq 0 (fd_nnz_this fd))).

(** A row context with one nonzero and a non-zero L2 weight:
    [B = [[1]]], [Bsum = [1]], [x = 1] in column 0, [l2_reg = 1],
    [w_mult = 1], [k = 1]. *)
Definition l2_data : fdata := mk_fdata [1] [1] [1] [0%nat] 1 1 1 1.

(** [correction[i] = baseline + (weight - 1) * sum of B[j] over the observed
    columns j of entity i]. *)
Definition correction_formula (B baseline : list R)
    (indices indptr : list nat) (k : nat) (w : R) (i : nat) : list R :=
  vadd (firstn k baseline)
       (vscale (w - 1)
          (vsum k (map (fun j => row B k j) (nz_cols indptr indices i)))).

(** Coordinate [c] of the sum of the first [nrow] rows of [M]. *)
Definition colsum (M : list R) (nrow k c : nat) : R :=
  Rsum (map (fun r => nth (r * k + c) M 0) (seq 0 nrow)).

(** The nonzeros of entity [i]: the stored values paired with their
    columns. *)
Definition row_nz (X : list R) (indptr indices : list nat) (i : nat)
    : list (R * nat) :=
  combine (nz_vals X indptr i) (nz_cols indptr indices i).

(** [gradAscent(a)]: the sum over the nonzeros of
    [x / dot(a, F[col]) * F[col]]. *)
Definition gradAscent (a F : list R) (k : nat) (nz : list (R * nat)) : list R :=
  vsum k (map (fun p => vscale (fst p / dot k a (row F k (snd p)))
                               (row F k (snd p))) nz).

(** [a <- nonneg((a + step * gradAscent(a) - step * S) / (1 + 2 * l2 * step))] *)
Definition pg_formula (F : list R) (k : nat) (nz : list (R * nat))
    (S : list R) (l2 step : R) (a : list R) : list R :=
  map (fun x => nonneg (x / (1 + 2 * l2 * step)))
      (vsub (vadd a (vscale step (gradAscent a F k nz))) (vscale step S)).

(** ** Contracts of the external minimisers *)

(** [minimize_nonneg_cg] keeps a point with no negative coordinate that
    way. *)
Definition cg_keeps_nonneg (m : cg_minimizer) : Prop :=
  forall x n f g data tol maxnfeval maxiter decr lconst max_ls limit,
    Forall (Rle 0) x ->
    Forall (Rle 0) (m x n f g data tol maxnfeval maxiter decr lconst max_ls limit).

(** [tnc] returns a point of [n] coordinates, each of them at least its
    lower bound. *)
Definition tnc_respects_low (t : tnc_minimizer) : Prop :=
  forall n x f data low up maxCGit maxnfeval eta stepmx accuracy fmin ftol
         xtol pgtol rescale,
    length low = n ->
    length (t n x f data low up maxCGit maxnfeval eta stepmx accuracy
              fmin ftol xtol pgtol rescale) = n
    /\ forall i, (i < n)%nat ->
         nth i low 0
         <= nth i (t n x f data low up maxCGit maxnfeval eta stepmx accuracy
                     fmin ftol xtol pgtol rescale) 0.

(** ** Concrete inputs *)

(** Two stand-ins for the external minimisers: one gradient step of length
    1 followed by the projection on the bounds. *)
Definition one_step_cg : cg_minimizer :=
  fun x n f g data tol maxnfeval maxiter decr lconst max_ls limit =>
    map nonneg (vsub x (g x n data)).

Definition one_step_tnc : tnc_minimizer :=
  fun n x f data low up maxCGit maxnfeval eta stepmx accuracy fmin ftol
      xtol pgtol rescale =>
    map (fun i => Rmax (nth i low 0) (nth i x 0 - nth i (snd (f x data)) 0))
        (seq 0 n).

Definition always_ok : buffer -> bool := fun _ => true.
Definition never_interrupted : nat -> bool := fun _ => false.
Definition interrupted_at_once : nat -> bool := fun _ => true.
Definition interrupted_after_A : nat -> bool := fun p => Nat.eqb p 1.
Definition idle : world := mk_world false [].

Definition never_ok : buffer -> bool := fun _ => false.

(** The end-to-end scenario of the specification: [dimA = dimB = 2],
    [k = 1], [X = [[1,0],[0,1]]], [A = B = [[1],[1]]], no regularisation,
    weight 1, step 0.1, one update per row. *)
Definition sc_X : list R := [1; 1].
Definition sc_indptr : list nat := [0; 1; 2]%nat.
Definition sc_indices : list nat := [0; 1]%nat.
Definition sc_A : list R := [1; 1].
Definition sc_B : list R := [1; 1].
Definition sc_step : R := 1 / 10.
Definition sc_state : driver_state := mk_state sc_A sc_B sc_step (- sc_step).

(** A matrix whose two views store their values in different orders:
    [X = [[0,1],[2,0]]]. *)
Definition tr_Xr : list R := [1; 2].
Definition tr_Xr_indptr : list nat := [0; 1; 2]%nat.
Definition tr_Xr_indices : list nat := [1; 0]%nat.
Definition tr_Xc : list R := [2; 1].
Definition tr_Xc_indptr : list nat := [0; 1; 2]%nat.
Definition tr_Xc_indices : list nat := [1; 0]%nat.

(** The state with the roles of the two matrices exchanged. *)
Definition swap_roles (st : driver_state) : driver_state :=
  mk_state (st_B st) (st_A st) (st_step_size st) (st_neg_step_sz st).

(** ** Further reference definitions *)

(** Iteration [ia] of the parallel row loop of [pg_iteration]: the loop is
    [for_loop dimA] of this task. *)
Definition pg_row_task (B Xr : list R) (Xr_indptr Xr_indices : list nat)
    (k : nat) (cnst_div : R) (cnst_sum Bsum_user : list R)
    (step_size w_mult : R) (maxupd : nat) (ia : nat) (A : list R) : list R :=
  let nnz_this := (nth (ia + 1) Xr_indptr 0 - nth ia Xr_indptr 0)%nat in
  let Bsum := if Req_dec_T w_mult 1 then cnst_sum
              else skipn (ia * k) Bsum_user in
  in_place (ia * k) k
    (for_loop maxupd (fun _ =>
       pg_update B (skipn (nth ia Xr_indptr 0%nat) Xr)
                 (skipn (nth ia Xr_indptr 0%nat) Xr_indices)
                 nnz_this k cnst_div Bsum (step_size * w_mult)))
    A.

(** The projected-gradient update with a weight:
    [a <- nonneg((a + step * w * gradAscent(a) - step * S) / (1 + 2*l2*step))]. *)
Definition pg_formula_w (F : list R) (k : nat) (nz : list (R * nat))
    (S : list R) (l2 step w : R) (a : list R) : list R :=
  map (fun x => nonneg (x / (1 + 2 * l2 * step)))
      (vsub (vadd a (vscale (step * w) (gradAscent a F k nz)))
            (vscale step S)).

(** The row objective and its gradient over the nonzeros [nz] of one
    entity, given as (value, column) pairs. *)
Definition row_objective (k : nat) (S : list R) (l2 w : R) (F : list R)
    (nz : list (R * nat)) (a : list R) : R :=
  dot k S a + l2 * dot k a a
  - w * Rsum (map (fun p => fst p * ln (dot k a (row F k (snd p)))) nz).

Definition row_gradient (k : nat) (S : list R) (l2 w : R) (F : list R)
    (nz : list (R * nat)) (a : list R) : list R :=
  vsub (vadd (firstn k S) (vscale (2 * l2) a))
       (vscale w (gradAscent a F k nz)).

(** The aggregate statistics row [ia] works from: the shared vector for
    weight 1, row [ia] of the correction matrix otherwise. *)
Definition row_stats (k : nat) (w_mult : R) (Bsum Bsum_w : list R) (ia : nat)
    : list R :=
  if Req_dec_T w_mult 1 then Bsum else skipn (ia * k) Bsum_w.

(** The row [a] with coordinate [c] replaced by [t]: the objective of a row
    as a function of one coordinate is [fun t => f (set_coord a c t)]. *)
Definition set_coord (a : list R) (c : nat) (t : R) : list R :=
  firstn c a ++ t :: skipn (S c) a.

(** [minimize_nonneg_cg] works in place on the [n] cells of [x]: what it
    leaves there has [n] coordinates again. *)
Definition cg_in_place (m : cg_minimizer) : Prop :=
  forall x n f g data tol maxnfeval maxiter decr lconst max_ls limit,
    length x = n ->
    length (m x n f g data tol maxnfeval maxiter decr lconst max_ls limit) = n.

(** A stand-in for [minimize_nonneg_cg] that only projects its start
    point. *)
Definition clip_only_cg : cg_minimizer :=
  fun x n f g data tol maxnfeval maxiter decr lconst max_ls limit =>
    map nonneg x.

(** * Properties *)

(** ** Loops and arrays *)

Lemma fold_seq_ind {St : Type} (P : nat -> St -> Prop) (body : nat -> St -> St) :
  forall len lo s,
    P lo s ->
    (forall i t, (lo <= i < lo + len)%nat -> P i t -> P (S i) (body i t)) ->
    P (lo + len)%nat (fold_left (fun t i => body i t) (seq lo len) s).
Proof.
  induction len as [|len IH]; intros lo s H0 Hstep; simpl.
  - now rewrite Nat.add_0_r.
  - replace (lo + S len)%nat with (S lo + len)%nat by lia.
    apply IH.
    + apply Hstep; [lia | exact H0].
    + intros i t Hi. apply Hstep. lia.
Qed.

Lemma for_loop_ind {St : Type} (P : nat -> St -> Prop) (body : nat -> St -> St)
    (n : nat) (s : St) :
  P 0%nat s ->
  (forall i t, (i < n)%nat -> P i t -> P (S i) (body i t)) ->
  P n (for_loop n body s).
Proof.
  intros H0 Hstep. unfold for_loop.
  apply (fold_seq_ind P body n 0 s H0).
  intros i t Hi. apply Hstep. lia.
Qed.

Lemma for_loop_S {St : Type} (body : nat -> St -> St) (n : nat) (s : St) :
  for_loop (S n) body s = body n (for_loop n body s).
Proof.
  unfold for_loop. rewrite seq_S, fold_left_app. reflexivity.
Qed.

Lemma for_loop_ext {St : Type} (f g : nat -> St -> St) (n : nat) (s : St) :
  (forall i t, (i < n)%nat -> f i t = g i t) ->
  for_loop n f s = for_loop n g s.
Proof.
  induction n as [|n IH]; intros H; [reflexivity|].
  rewrite !for_loop_S, IH by (intros; apply H; lia). apply H. lia.
Qed.

Lemma cblas_daxpy_length n alpha x y :
  length (cblas_daxpy n alpha x y) = length y.
Proof.
  revert x y; induction n as [|n IH]; intros [|xi x] [|yi y]; simpl; auto.
Qed.

Lemma cblas_dscal_length n alpha x : length (cblas_dscal n alpha x) = length x.
Proof. revert x; induction n as [|n IH]; intros [|xi x]; simpl; auto. Qed.

Lemma scale_loop_length n alpha x : length (scale_loop n alpha x) = length x.
Proof. revert x; induction n as [|n IH]; intros [|xi x]; simpl; auto. Qed.

Lemma add_const_length n c x : length (add_const n c x) = length x.
Proof. revert x; induction n as [|n IH]; intros [|xi x]; simpl; auto. Qed.

Lemma add_into_length n src out : length (add_into n src out) = length out.
Proof.
  revert src out; induction n as [|n IH]; intros [|si s] [|oi o]; simpl; auto.
Qed.

Lemma clip_nonneg_length n x : length (clip_nonneg n x) = length x.
Proof. revert x; induction n as [|n IH]; intros [|xi x]; simpl; auto. Qed.

Lemma row_length M k i : (i * k + k <= length M)%nat -> length (row M k i) = k.
Proof.
  intros H. unfold row. rewrite length_firstn, length_skipn. lia.
Qed.

Lemma in_place_length off k f M :
  (off + k <= length M)%nat ->
  (forall r, length r = k -> length (f r) = k) ->
  length (in_place off k f M) = length M.
Proof.
  intros Hb Hf. unfold in_place.
  rewrite !length_app, Hf, length_firstn, length_skipn; [lia|].
  rewrite length_firstn, length_skipn. lia.
Qed.

Lemma firstn_skipn_firstn {T : Type} (k a b : nat) (M : list T) :
  (a + k <= b)%nat ->
  firstn k (skipn a (firstn b M)) = firstn k (skipn a M).
Proof.
  intros H. rewrite skipn_firstn_comm, firstn_firstn.
  f_equal. lia.
Qed.

Lemma row_in_place_same M k i f :
  (i * k + k <= length M)%nat ->
  (forall r, length r = k -> length (f r) = k) ->
  row (in_place (i * k) k f M) k i = f (row M k i).
Proof.
  intros Hb Hf. unfold row, in_place.
  rewrite skipn_app, length_firstn, Nat.min_l by lia.
  rewrite Nat.sub_diag. simpl skipn at 2.
  rewrite skipn_all2 by (rewrite length_firstn; lia). simpl.
  rewrite firstn_app, Hf by (rewrite length_firstn, length_skipn; lia).
  rewrite Nat.sub_diag. simpl. rewrite app_nil_r.
  apply firstn_all2. rewrite Hf; [lia|].
  rewrite length_firstn, length_skipn; lia.
Qed.

Lemma row_in_place_other M k i j f :
  (i * k + k <= length M)%nat ->
  (forall r, length r = k -> length (f r) = k) ->
  i <> j ->
  row (in_place (i * k) k f M) k j = row M k j.
Proof.
  intros Hb Hf Hij. unfold row, in_place.
  assert (Hmid : length (f (firstn k (skipn (i * k) M))) = k).
  { apply Hf. rewrite length_firstn, length_skipn. lia. }
  destruct (Nat.lt_ge_cases j i) as [Hlt | Hge].
  - assert (j * k + k <= i * k)%nat by nia.
    rewrite skipn_app, firstn_app.
    rewrite length_skipn, !length_firstn, Nat.min_l by lia.
    replace (k - (i * k - j * k))%nat with 0%nat by lia.
    simpl firstn at 2. rewrite app_nil_r.
    apply firstn_skipn_firstn. lia.
  - assert (i * k + k <= j * k)%nat by nia.
    rewrite skipn_app, length_firstn, Nat.min_l by lia.
    rewrite (skipn_all2 (firstn (i * k) M)) by (rewrite length_firstn; lia).
    simpl. rewrite skipn_app, Hmid.
    rewrite (skipn_all2 (f _)) by lia. simpl.
    rewrite skipn_skipn. do 2 f_equal. lia.
Qed.

(** The row loop of an [omp parallel for] whose body works in place on its
    own row: row [j] of the result is the body applied to row [j]. *)
Lemma for_rows_spec (dim k : nat) (g : nat -> list R -> list R) (M : list R) :
  (dim * k <= length M)%nat ->
  (forall i r, length r = k -> length (g i r) = k) ->
  length (for_loop dim (fun i M' => in_place (i * k) k (g i) M') M) = length M
  /\ forall j, (j < dim)%nat ->
       row (for_loop dim (fun i M' => in_place (i * k) k (g i) M') M) k j
       = g j (row M k j).
Proof.
  intros Hlen Hg.
  pose (P := fun (n : nat) (M' : list R) =>
    length M' = length M
    /\ (forall j, (j < n)%nat -> row M' k j = g j (row M k j))
    /\ (forall j, (n <= j)%nat -> row M' k j = row M k j)).
  assert (HP : P dim (for_loop dim (fun i M' => in_place (i * k) k (g i) M') M)).
  { apply for_loop_ind.
    - repeat split; auto. intros j Hj; lia.
    - intros i t Hi (Hl & Hdone & Htodo).
      assert (Hb : (i * k + k <= length t)%nat) by nia.
      repeat split.
      + rewrite in_place_length; auto.
      + intros j Hj. destruct (Nat.eq_dec i j) as [->|Hne].
        * rewrite row_in_place_same by auto. f_equal. apply Htodo. lia.
        * rewrite row_in_place_other by auto. apply Hdone. lia.
      + intros j Hj. rewrite row_in_place_other by (auto; lia).
        apply Htodo. lia. }
  destruct HP as (Hl & Hdone & _). split; auto.
Qed.

(** Two in-place operations on the same window compose. *)
Lemma in_place_in_place off k f g M :
  (off + k <= length M)%nat ->
  (forall r, length r = k -> length (g r) = k) ->
  in_place off k f (in_place off k g M) = in_place off k (fun r => f (g r)) M.
Proof.
  intros Hb Hg. unfold in_place at 1 3.
  assert (Hmid : length (g (firstn k (skipn off M))) = k).
  { apply Hg. rewrite length_firstn, length_skipn. lia. }
  assert (H1 : firstn off (in_place off k g M) = firstn off M).
  { unfold in_place. rewrite firstn_app, length_firstn, Nat.min_l by lia.
    rewrite Nat.sub_diag. simpl. rewrite app_nil_r.
    apply firstn_all2. rewrite length_firstn. lia. }
  assert (H2 : firstn k (skipn off (in_place off k g M))
               = g (firstn k (skipn off M))).
  { unfold in_place. rewrite skipn_app, length_firstn, Nat.min_l by lia.
    rewrite Nat.sub_diag. simpl skipn at 2.
    rewrite skipn_all2 by (rewrite length_firstn; lia). simpl.
    rewrite firstn_app, Hmid, Nat.sub_diag. simpl. rewrite app_nil_r.
    apply firstn_all2. lia. }
  assert (H3 : skipn (off + k) (in_place off k g M) = skipn (off + k) M).
  { unfold in_place. rewrite skipn_app, length_firstn, Nat.min_l by lia.
    rewrite skipn_all2 by (rewrite length_firstn; lia). simpl.
    replace (off + k - off)%nat with k by lia.
    rewrite skipn_app, Hmid, Nat.sub_diag.
    rewrite skipn_all2 by lia. reflexivity. }
  rewrite H1, H2, H3. reflexivity.
Qed.

Lemma in_place_id off k M : in_place off k (fun r => r) M = M.
Proof.
  unfold in_place.
  replace (off + k)%nat with (k + off)%nat by lia.
  rewrite <- skipn_skipn, firstn_skipn, firstn_skipn. reflexivity.
Qed.

(** A loop of in-place operations on one window is one in-place loop. *)
Lemma for_range_in_place off k (h : nat -> list R -> list R) lo hi M :
  (off + k <= length M)%nat ->
  (forall ix r, length r = k -> length (h ix r) = k) ->
  for_range lo hi (fun ix M' => in_place off k (h ix) M') M
  = in_place off k (for_range lo hi h) M.
Proof.
  intros Hb Hh. unfold for_range.
  generalize (hi - lo)%nat as len. intros len. revert lo M Hb.
  induction len as [|len IH]; intros lo M Hb; simpl.
  - symmetry. apply in_place_id.
  - rewrite IH by (rewrite in_place_length; auto).
    rewrite in_place_in_place by auto. reflexivity.
Qed.

(** ** Vectors, coordinate by coordinate *)

Lemma vec_ext (k : nat) (u v : list R) :
  length u = k -> length v = k ->
  (forall c, (c < k)%nat -> nth c u 0 = nth c v 0) -> u = v.
Proof.
  intros Hu Hv H. apply (nth_ext u v 0 0); [congruence|].
  intros c Hc. apply H. lia.
Qed.

Lemma vadd_length u v : length u = length v -> length (vadd u v) = length u.
Proof.
  intros H. unfold vadd. rewrite length_map, length_combine. lia.
Qed.

Lemma vsub_length u v : length u = length v -> length (vsub u v) = length u.
Proof.
  intros H. unfold vsub. rewrite length_map, length_combine. lia.
Qed.

Lemma vscale_length c v : length (vscale c v) = length v.
Proof. apply length_map. Qed.

Lemma nth_vadd u v c :
  length u = length v -> nth c (vadd u v) 0 = nth c u 0 + nth c v 0.
Proof.
  revert v c; induction u as [|a u IH]; intros [|b v] [|c]; simpl;
    intros H; try discriminate; try lra.
  apply IH. lia.
Qed.

Lemma nth_vsub u v c :
  length u = length v -> nth c (vsub u v) 0 = nth c u 0 - nth c v 0.
Proof.
  revert v c; induction u as [|a u IH]; intros [|b v] [|c]; simpl;
    intros H; try discriminate; try lra.
  apply IH. lia.
Qed.

Lemma nth_vscale a v c : nth c (vscale a v) 0 = a * nth c v 0.
Proof.
  revert c; induction v as [|b v IH]; intros [|c]; simpl; try lra.
  apply IH.
Qed.

Lemma nth_map_in (f : R -> R) l c :
  (c < length l)%nat -> nth c (map f l) 0 = f (nth c l 0).
Proof.
  intros H. rewrite (nth_indep _ 0 (f 0)) by now rewrite length_map.
  apply map_nth.
Qed.

Lemma nth_repeat_0 n c : nth c (repeat 0 n) 0 = 0.
Proof.
  revert c; induction n as [|n IH]; intros [|c]; simpl; auto.
Qed.

Lemma Rsum_app l1 l2 : Rsum (l1 ++ l2) = Rsum l1 + Rsum l2.
Proof.
  induction l1 as [|a l1 IH]; simpl; [lra|]. rewrite IH. lra.
Qed.

Lemma Rsum_scale a (f : nat -> R) l :
  Rsum (map (fun i => a * f i) l) = a * Rsum (map f l).
Proof.
  induction l as [|i l IH]; simpl; [lra|]. rewrite IH. lra.
Qed.

Lemma Rsum_ext (f g : nat -> R) l :
  (forall i, In i l -> f i = g i) -> Rsum (map f l) = Rsum (map g l).
Proof.
  induction l as [|i l IH]; intros H; simpl; [reflexivity|].
  rewrite H, IH; auto with datatypes.
Qed.

Lemma vsum_length k vs :
  Forall (fun v => length v = k) vs -> length (vsum k vs) = k.
Proof.
  induction 1 as [|v vs Hv _ IH]; simpl.
  - apply repeat_length.
  - rewrite vadd_length; congruence.
Qed.

Lemma nth_vsum k vs c :
  Forall (fun v => length v = k) vs ->
  nth c (vsum k vs) 0 = Rsum (map (fun v => nth c v 0) vs).
Proof.
  induction 1 as [|v vs Hv Hvs IH]; simpl.
  - apply nth_repeat_0.
  - rewrite nth_vadd, IH; [reflexivity|].
    rewrite vsum_length; auto.
Qed.

(** ** The kernels, coordinate by coordinate *)

Lemma cblas_ddot_firstn_r n x y :
  cblas_ddot n x (firstn n y) = cblas_ddot n x y.
Proof.
  revert x y; induction n as [|n IH]; intros [|xi x] [|yi y]; simpl; auto.
  now rewrite IH.
Qed.

Lemma nth_cblas_daxpy n alpha x y c :
  (c < n)%nat -> (n <= length x)%nat -> (n <= length y)%nat ->
  nth c (cblas_daxpy n alpha x y) 0 = nth c y 0 + alpha * nth c x 0.
Proof.
  revert x y c; induction n as [|n IH]; intros [|xi x] [|yi y] [|c];
    simpl; intros Hc Hx Hy; try lia; try lra.
  apply IH; lia.
Qed.

Lemma nth_cblas_dscal n alpha x c :
  (c < n)%nat -> (n <= length x)%nat ->
  nth c (cblas_dscal n alpha x) 0 = alpha * nth c x 0.
Proof.
  revert x c; induction n as [|n IH]; intros [|xi x] [|c];
    simpl; intros Hc Hx; try lia; try lra.
  apply IH; lia.
Qed.

Lemma nth_scale_loop n alpha x c :
  (c < n)%nat -> (n <= length x)%nat ->
  nth c (scale_loop n alpha x) 0 = nth c x 0 * alpha.
Proof.
  revert x c; induction n as [|n IH]; intros [|xi x] [|c];
    simpl; intros Hc Hx; try lia; try lra.
  apply IH; lia.
Qed.

Lemma nth_add_const n a x c :
  (c < n)%nat -> (n <= length x)%nat ->
  nth c (add_const n a x) 0 = nth c x 0 + a.
Proof.
  revert x c; induction n as [|n IH]; intros [|xi x] [|c];
    simpl; intros Hc Hx; try lia; try lra.
  apply IH; lia.
Qed.

Lemma nth_add_into n src out c :
  (c < n)%nat -> (n <= length src)%nat -> (n <= length out)%nat ->
  nth c (add_into n src out) 0 = nth c out 0 + nth c src 0.
Proof.
  revert src out c; induction n as [|n IH]; intros [|si s] [|oi o] [|c];
    simpl; intros Hc Hs Ho; try lia; try lra.
  apply IH; lia.
Qed.

Lemma nth_clip_nonneg n x c :
  (c < n)%nat -> (n <= length x)%nat ->
  nth c (clip_nonneg n x) 0 = nonneg (nth c x 0).
Proof.
  revert x c; induction n as [|n IH]; intros [|xi x] [|c];
    simpl; intros Hc Hx; try lia; try reflexivity.
  apply IH; lia.
Qed.

Lemma nth_skipn_off {T : Type} (M : list T) off c d :
  nth c (skipn off M) d = nth (off + c) M d.
Proof.
  revert M; induction off as [|off IH]; intros [|m M]; simpl; auto.
  destruct c; reflexivity.
Qed.

Lemma nth_row M k i c :
  (c < k)%nat -> nth c (row M k i) 0 = nth (i * k + c) M 0.
Proof.
  intros Hc. unfold row. rewrite nth_firstn.
  destruct (Nat.ltb_spec c k); [|lia]. apply nth_skipn_off.
Qed.

(** A loop of [cblas_daxpy] into one accumulator adds up the scaled
    vectors. *)
Lemma daxpy_loop_spec k n (coef : nat -> R) (vec : nat -> list R) g0 :
  length g0 = k ->
  (forall ix, (ix < n)%nat -> (k <= length (vec ix))%nat) ->
  length (for_loop n (fun ix g => cblas_daxpy k (coef ix) (vec ix) g) g0) = k
  /\ forall c, (c < k)%nat ->
       nth c (for_loop n (fun ix g => cblas_daxpy k (coef ix) (vec ix) g) g0) 0
       = nth c g0 0
         + Rsum (map (fun ix => coef ix * nth c (vec ix) 0) (seq 0 n)).
Proof.
  intros Hg. induction n as [|n IH]; intros Hvec.
  - split; [exact Hg|]. intros c Hc. simpl. unfold for_loop. simpl. lra.
  - destruct IH as [IHl IHn]; [intros; apply Hvec; lia|].
    rewrite for_loop_S. split.
    + now rewrite cblas_daxpy_length.
    + intros c Hc. rewrite nth_cblas_daxpy; try lia.
      * rewrite IHn by exact Hc.
        rewrite seq_S, map_app, Rsum_app. simpl. lra.
      * apply Hvec. lia.
Qed.

(** ** Row objective and gradient *)

Lemma fd_row_length fd k ix :
  fdata_wf k fd -> (ix < fd_nnz_this fd)%nat -> length (fd_row fd k ix) = k.
Proof. intros [_ H] Hix. apply row_length. now apply H. Qed.

Lemma nth_fd_row fd k ix c :
  (c < k)%nat ->
  nth c (fd_row fd k ix) 0
  = nth c (skipn (nth ix (fd_X_ind fd) 0%nat * k) (fd_B fd)) 0.
Proof.
  intros Hc. unfold fd_row. rewrite nth_row by exact Hc.
  now rewrite nth_skipn_off.
Qed.

Lemma fd_pred_eq a k fd ix :
  fd_pred a k fd ix
  = cblas_ddot k a (skipn (nth ix (fd_X_ind fd) 0%nat * k) (fd_B fd)).
Proof. unfold fd_pred, dot, fd_row, row. apply cblas_ddot_firstn_r. Qed.

Lemma nth_gradient_formula a k fd c :
  length a = k -> fdata_wf k fd -> (c < k)%nat ->
  nth c (gradient_formula a k fd) 0
  = nth c (fd_Bsum fd) 0 + 2 * fd_l2_reg fd * nth c a 0
    - fd_w_mult fd * nz_sum a k fd c.
Proof.
  intros Ha Hwf Hc. pose proof Hwf as [HS _]. unfold gradient_formula.
  assert (Hrows : Forall (fun v => length v = k)
            (map (fun ix => vscale (nth ix (fd_Xr fd) 0 / fd_pred a k fd ix)
                                   (fd_row fd k ix))
                 (seq 0 (fd_nnz_this fd)))).
  { apply Forall_forall. intros v Hv. apply in_map_iff in Hv.
    destruct Hv as (ix & <- & Hix). apply in_seq in Hix.
    rewrite vscale_length. apply fd_row_length; [exact Hwf | lia]. }
  assert (HlS : length (firstn k (fd_Bsum fd)) = k)
    by (rewrite length_firstn; lia).
  assert (H1 : length (vadd (firstn k (fd_Bsum fd))
                            (vscale (2 * fd_l2_reg fd) a)) = k).
  { rewrite vadd_length; rewrite ?vscale_length; congruence. }
  rewrite nth_vsub by (rewrite vscale_length, vsum_length; auto).
  rewrite nth_vadd by (rewrite vscale_length; congruence).
  rewrite !nth_vscale, nth_vsum by exact Hrows.
  rewrite nth_firstn. destruct (Nat.ltb_spec c k); [|lia].
  rewrite map_map. unfold nz_sum.
  rewrite (Rsum_ext _ (fun ix => nth ix (fd_Xr fd) 0 / fd_pred a k fd ix
                                 * nth c (fd_row fd k ix) 0));
    [ring | intros; apply nth_vscale].
Qed.

Lemma gradient_formula_length a k fd :
  length a = k -> fdata_wf k fd -> length (gradient_formula a k fd) = k.
Proof.
  intros Ha [HS Hrows]. unfold gradient_formula.
  assert (HlS : length (firstn k (fd_Bsum fd)) = k)
    by (rewrite length_firstn; lia).
  assert (H1 : length (vadd (firstn k (fd_Bsum fd))
                            (vscale (2 * fd_l2_reg fd) a)) = k).
  { rewrite vadd_length; rewrite ?vscale_length; congruence. }
  rewrite vsub_length; [exact H1|].
  rewrite vscale_length, vsum_length; [congruence|].
  apply Forall_forall. intros v Hv. apply in_map_iff in Hv.
  destruct Hv as (ix & <- & Hix). apply in_seq in Hix.
  rewrite vscale_length. apply row_length. apply Hrows. lia.
Qed.

(** The accumulation loop shared by the three gradient evaluators. *)
Lemma grad_loop_spec a k fd g0 :
  length g0 = k -> fdata_wf k fd ->
  let loop :=
    for_loop (fd_nnz_this fd) (fun ix grad =>
      cblas_daxpy k
        (- nth ix (fd_Xr fd) 0
           / cblas_ddot k a
               (skipn (nth ix (fd_X_ind fd) 0%nat * k) (fd_B fd)))
        (skipn (nth ix (fd_X_ind fd) 0%nat * k) (fd_B fd)) grad) g0 in
  length loop = k
  /\ forall c, (c < k)%nat -> nth c loop 0 = nth c g0 0 - nz_sum a k fd c.
Proof.
  intros Hg [HS Hrows] loop.
  destruct (daxpy_loop_spec k (fd_nnz_this fd)
    (fun ix => - nth ix (fd_Xr fd) 0
               / cblas_ddot k a
                   (skipn (nth ix (fd_X_ind fd) 0%nat * k) (fd_B fd)))
    (fun ix => skipn (nth ix (fd_X_ind fd) 0%nat * k) (fd_B fd)) g0 Hg)
    as [Hl Hn].
  { intros ix Hix. rewrite length_skipn. specialize (Hrows ix Hix). lia. }
  split; [exact Hl|]. intros c Hc. unfold loop. rewrite Hn by exact Hc.
  unfold nz_sum.
  rewrite (Rsum_ext _ (fun ix => -1 * (nth ix (fd_Xr fd) 0 / fd_pred a k fd ix
                                       * nth c (fd_row fd k ix) 0))).
  - rewrite Rsum_scale. ring.
  - intros ix _. rewrite fd_pred_eq, nth_fd_row by exact Hc.
    unfold Rdiv. ring.
Qed.

Lemma calc_grad_single_w_spec a k fd :
  length a = k -> fdata_wf k fd ->
  calc_grad_single_w a k fd = gradient_formula a k fd.
Proof.
  intros Ha Hwf. pose proof Hwf as [HS _].
  destruct (grad_loop_spec a k fd (memset_zero k)) as [Hl Hn];
    [apply repeat_length | exact Hwf |].
  apply (vec_ext k).
  - unfold calc_grad_single_w.
    now rewrite !cblas_daxpy_length, cblas_dscal_length.
  - now apply gradient_formula_length.
  - intros c Hc. rewrite nth_gradient_formula by assumption.
    unfold calc_grad_single_w.
    rewrite !nth_cblas_daxpy, nth_cblas_dscal, Hn;
      rewrite ?cblas_daxpy_length, ?cblas_dscal_length; try lia.
    unfold memset_zero. rewrite nth_repeat_0. ring.
Qed.

Lemma calc_grad_single_spec a k fd :
  length a = k -> fdata_wf k fd -> fd_w_mult fd = 1 ->
  calc_grad_single a k fd = gradient_formula a k fd.
Proof.
  intros Ha Hwf Hw. pose proof Hwf as [HS _].
  assert (Hg0 : length (cblas_daxpy k (2 * fd_l2_reg fd) a
                          (firstn k (fd_Bsum fd))) = k).
  { rewrite cblas_daxpy_length, length_firstn. lia. }
  destruct (grad_loop_spec a k fd _ Hg0 Hwf) as [Hl Hn].
  apply (vec_ext k).
  - exact Hl.
  - now apply gradient_formula_length.
  - intros c Hc. rewrite nth_gradient_formula by assumption.
    unfold calc_grad_single. rewrite Hn by exact Hc.
    rewrite nth_cblas_daxpy; rewrite ?length_firstn; try lia.
    rewrite nth_firstn. destruct (Nat.ltb_spec c k); [|lia].
    rewrite Hw. ring.
Qed.

Lemma for_loop_pair {S1 S2 : Type} (F : nat -> S1 -> S1) (L : nat -> S2 -> S2)
    n s1 s2 :
  for_loop n (fun ix '(g, l) => (F ix g, L ix l)) (s1, s2)
  = (for_loop n F s1, for_loop n L s2).
Proof.
  induction n as [|n IH]; [reflexivity|].
  rewrite !for_loop_S, IH. reflexivity.
Qed.

Lemma sum_loop_spec (f : nat -> R) n l0 :
  for_loop n (fun ix l => l + f ix) l0 = l0 + Rsum (map f (seq 0 n)).
Proof.
  induction n as [|n IH].
  - unfold for_loop. simpl. lra.
  - rewrite for_loop_S, IH, seq_S, map_app, Rsum_app. simpl. lra.
Qed.

(** The two-component loop of [calc_fun_and_grad], one component at a
    time. *)
Lemma calc_fun_and_grad_loop a fd :
  for_loop (fd_nnz_this fd) (fun ix '(grad, lsum) =>
    let pred :=
      cblas_ddot (fd_k fd) a
        (skipn (nth ix (fd_X_ind fd) 0%nat * fd_k fd) (fd_B fd)) in
    (cblas_daxpy (fd_k fd) (- nth ix (fd_Xr fd) 0 / pred)
       (skipn (nth ix (fd_X_ind fd) 0%nat * fd_k fd) (fd_B fd)) grad,
     lsum + nth ix (fd_Xr fd) 0 * ln pred))
    (memset_zero (fd_k fd), 0)
  = (for_loop (fd_nnz_this fd) (fun ix grad =>
       cblas_daxpy (fd_k fd)
         (- nth ix (fd_Xr fd) 0
            / cblas_ddot (fd_k fd) a
                (skipn (nth ix (fd_X_ind fd) 0%nat * fd_k fd) (fd_B fd)))
         (skipn (nth ix (fd_X_ind fd) 0%nat * fd_k fd) (fd_B fd)) grad)
       (memset_zero (fd_k fd)),
     Rsum (map (fun ix => nth ix (fd_Xr fd) 0 * ln (fd_pred a (fd_k fd) fd ix))
               (seq 0 (fd_nnz_this fd)))).
Proof.
  etransitivity.
  - apply (for_loop_pair
      (fun ix grad =>
         cblas_daxpy (fd_k fd)
           (- nth ix (fd_Xr fd) 0
              / cblas_ddot (fd_k fd) a
                  (skipn (nth ix (fd_X_ind fd) 0%nat * fd_k fd) (fd_B fd)))
           (skipn (nth ix (fd_X_ind fd) 0%nat * fd_k fd) (fd_B fd)) grad)
      (fun ix lsum =>
         lsum + nth ix (fd_Xr fd) 0
                * ln (cblas_ddot (fd_k fd) a
                        (skipn (nth ix (fd_X_ind fd) 0%nat * fd_k fd)
                               (fd_B fd))))).
  - f_equal. rewrite sum_loop_spec, Rplus_0_l.
    apply Rsum_ext. intros ix _. now rewrite fd_pred_eq.
Qed.

(** The value computed by [calc_fun_single] is the objective. *)
Lemma calc_fun_single_spec a k fd :
  calc_fun_single a k fd = value_formula a k fd.
Proof.
  unfold calc_fun_single, value_formula, dot.
  rewrite sum_loop_spec, Rplus_0_l.
  rewrite (Rsum_ext _ (fun ix => nth ix (fd_Xr fd) 0 * ln (fd_pred a k fd ix)))
    by (intros ix _; now rewrite fd_pred_eq).
  ring.
Qed.

(** The value computed by [calc_fun_and_grad] lacks the L2 term of the
    objective. *)
Lemma calc_fun_and_grad_value a fd :
  fst (calc_fun_and_grad a fd)
  = value_formula a (fd_k fd) fd - fd_l2_reg fd * dot (fd_k fd) a a.
Proof.
  unfold calc_fun_and_grad. rewrite calc_fun_and_grad_loop.
  unfold value_formula, dot. simpl. ring.
Qed.

Lemma calc_fun_and_grad_grad a fd :
  length a = fd_k fd -> fdata_wf (fd_k fd) fd ->
  snd (calc_fun_and_grad a fd) = gradient_formula a (fd_k fd) fd.
Proof.
  intros Ha Hwf. pose proof Hwf as [HS _].
  destruct (grad_loop_spec a (fd_k fd) fd (memset_zero (fd_k fd)))
    as [Hl Hn]; [apply repeat_length | exact Hwf |].
  unfold calc_fun_and_grad. rewrite calc_fun_and_grad_loop. cbv beta iota.
  unfold snd.
  apply (vec_ext (fd_k fd)).
  - rewrite !cblas_daxpy_length.
    destruct (Req_dec_T (fd_w_mult fd) 1); rewrite ?cblas_dscal_length; exact Hl.
  - now apply gradient_formula_length.
  - intros c Hc. rewrite nth_gradient_formula by assumption.
    assert (Hw : nth c (if Req_dec_T (fd_w_mult fd) 1
                        then for_loop (fd_nnz_this fd) (fun ix grad =>
                               cblas_daxpy (fd_k fd)
                                 (- nth ix (fd_Xr fd) 0
                                    / cblas_ddot (fd_k fd) a
                                        (skipn (nth ix (fd_X_ind fd) 0%nat
                                                * fd_k fd) (fd_B fd)))
                                 (skipn (nth ix (fd_X_ind fd) 0%nat * fd_k fd)
                                        (fd_B fd)) grad)
                               (memset_zero (fd_k fd))
                        else cblas_dscal (fd_k fd) (fd_w_mult fd)
                               (for_loop (fd_nnz_this fd) (fun ix grad =>
                                  cblas_daxpy (fd_k fd)
                                    (- nth ix (fd_Xr fd) 0
                                       / cblas_ddot (fd_k fd) a
                                           (skipn (nth ix (fd_X_ind fd) 0%nat
                                                   * fd_k fd) (fd_B fd)))
                                    (skipn (nth ix (fd_X_ind fd) 0%nat
                                            * fd_k fd) (fd_B fd)) grad)
                                  (memset_zero (fd_k fd)))) 0
                 = - fd_w_mult fd * nz_sum a (fd_k fd) fd c).
    { destruct (Req_dec_T (fd_w_mult fd) 1) as [E|E].
      - rewrite Hn, E by exact Hc. unfold memset_zero.
        rewrite nth_repeat_0. ring.
      - rewrite nth_cblas_dscal, Hn by (try exact Hc; lia).
        unfold memset_zero. rewrite nth_repeat_0. ring. }
    rewrite !nth_cblas_daxpy; rewrite ?cblas_daxpy_length; try lia.
    + rewrite Hw. ring.
    + destruct (Req_dec_T (fd_w_mult fd) 1);
        rewrite ?cblas_dscal_length; lia.
    + destruct (Req_dec_T (fd_w_mult fd) 1);
        rewrite ?cblas_dscal_length; lia.
Qed.

(** C6.  Each gradient evaluator -- the callback [grad_fun] picked by
    [cg_iteration], which is [calc_grad_single] for weight 1 and
    [calc_grad_single_w] otherwise, and the gradient half of
    [calc_fun_and_grad] -- returns, for a row [a] of length [k] whose
    predicted values are strictly positive,
    [S + 2*l2*a - weight * sum (x / dot(a, B[col])) * B[col]]. *)
Theorem gradient_evaluators_formula (a : list R) (k : nat) (fd : fdata) :
  length a = k -> fdata_wf k fd -> preds_positive a k fd ->
  grad_fun (fd_w_mult fd) a k fd = gradient_formula a k fd
  /\ (fd_w_mult fd = 1 -> calc_grad_single a k fd = gradient_formula a k fd)
  /\ calc_grad_single_w a k fd = gradient_formula a k fd
  /\ (fd_k fd = k -> snd (calc_fun_and_grad a fd) = gradient_formula a k fd).
Proof.
  intros Ha Hwf _. repeat split.
  - unfold grad_fun. destruct (Req_dec_T (fd_w_mult fd) 1) as [E|E].
    + now apply calc_grad_single_spec.
    + now apply calc_grad_single_w_spec.
  - intros E. now apply calc_grad_single_spec.
  - now apply calc_grad_single_w_spec.
  - intros <-. now apply calc_fun_and_grad_grad.
Qed.

Lemma l2_data_wf : fdata_wf 1 l2_data.
Proof.
  split; simpl; [lia|]. intros ix Hix.
  assert (ix = 0%nat) as -> by lia. simpl. lia.
Defined.

Lemma l2_data_positive : preds_positive [1] 1 l2_data.
Proof.
  intros ix Hix. simpl in Hix. assert (ix = 0%nat) as -> by lia.
  unfold fd_pred, dot, fd_row, row. simpl. lra.
Defined.

(** C6 on the row [a = [1]] with the context [l2_data]. *)
Lemma gradient_evaluators_witness :
  (length [1] = 1%nat /\ fdata_wf 1 l2_data /\ preds_positive [1] 1 l2_data)
  /\ calc_grad_single_w [1] 1 l2_data = gradient_formula [1] 1 l2_data.
Proof.
  split.
  - split; [reflexivity | split; [exact l2_data_wf | exact l2_data_positive]].
  - apply (gradient_evaluators_formula [1] 1 l2_data eq_refl l2_data_wf
             l2_data_positive).
Defined.

(** C3.  On the row [a = [1]] with the context [l2_data] (one nonzero,
    predicted value 1, [l2_reg = 1]) the objective is
    [1*1 + 1*(1*1) - 1*(1 * log 1) = 2]; [calc_fun_single] returns 2, while
    [calc_fun_and_grad] returns 1: its value leaves out [l2 * dot(a, a)]. *)
Theorem calc_fun_and_grad_omits_l2_term :
  preds_positive [1] 1 l2_data
  /\ value_formula [1] 1 l2_data = 2
  /\ calc_fun_single [1] 1 l2_data = 2
  /\ fst (calc_fun_and_grad [1] l2_data) = 1.
Proof.
  assert (Hv : value_formula [1] 1 l2_data = 2).
  { unfold value_formula, fd_pred, dot, fd_row, row. simpl.
    replace (1 * 1 + 0) with 1 by lra. rewrite ln_1. lra. }
  split; [exact l2_data_positive|].
  split; [exact Hv|].
  split.
  - rewrite calc_fun_single_spec. exact Hv.
  - rewrite calc_fun_and_grad_value. change (fd_k l2_data) with 1%nat.
    rewrite Hv. unfold dot. simpl. lra.
Qed.

(** ** Aggregate statistics *)

Lemma daxpy_fold_spec k (l : list nat) (coef : nat -> R) (vec : nat -> list R) :
  forall g0,
  length g0 = k ->
  (forall ix, In ix l -> (k <= length (vec ix))%nat) ->
  length (fold_left (fun g ix => cblas_daxpy k (coef ix) (vec ix) g) l g0) = k
  /\ forall c, (c < k)%nat ->
       nth c (fold_left (fun g ix => cblas_daxpy k (coef ix) (vec ix) g) l g0) 0
       = nth c g0 0 + Rsum (map (fun ix => coef ix * nth c (vec ix) 0) l).
Proof.
  induction l as [|ix l IH]; intros g0 Hg Hvec; simpl.
  - split; [exact Hg|]. intros; lra.
  - destruct (IH (cblas_daxpy k (coef ix) (vec ix) g0)) as [Hl Hn].
    + now rewrite cblas_daxpy_length.
    + intros; apply Hvec; now right.
    + split; [exact Hl|]. intros c Hc. rewrite Hn by exact Hc.
      rewrite nth_cblas_daxpy; try lia; [lra|].
      apply Hvec. now left.
Qed.

Lemma add_into_daxpy n src out : add_into n src out = cblas_daxpy n 1 src out.
Proof.
  revert src out; induction n as [|n IH]; intros [|si s] [|oi o]; simpl; auto.
  rewrite IH. f_equal. lra.
Qed.

Lemma sum_by_cols_length M nrow ncol : length (sum_by_cols M nrow ncol) = ncol.
Proof.
  unfold sum_by_cols. apply for_loop_ind.
  - apply repeat_length.
  - intros i t _ Ht. now rewrite add_into_length.
Qed.

(** [sum_by_cols] returns the column sums of the first [nrow] rows. *)
Lemma sum_by_cols_spec M nrow ncol c :
  (nrow * ncol <= length M)%nat -> (c < ncol)%nat ->
  nth c (sum_by_cols M nrow ncol) 0 = colsum M nrow ncol c.
Proof.
  intros HM Hc. unfold sum_by_cols.
  rewrite (for_loop_ext _
    (fun r out => cblas_daxpy ncol 1 (skipn (r * ncol) M) out))
    by (intros; apply add_into_daxpy).
  destruct (daxpy_loop_spec ncol nrow (fun _ => 1)
              (fun r => skipn (r * ncol) M) (memset_zero ncol)) as [_ Hn].
  - apply repeat_length.
  - intros r Hr. rewrite length_skipn. nia.
  - rewrite Hn by exact Hc. unfold memset_zero, colsum.
    rewrite nth_repeat_0, Rplus_0_l. apply Rsum_ext.
    intros r _. rewrite nth_skipn_off. lra.
Qed.

Lemma row_repeat_0 n k i :
  (i * k + k <= n)%nat -> row (repeat 0 n) k i = repeat 0 k.
Proof.
  intros H. apply (vec_ext k).
  - apply row_length. now rewrite repeat_length.
  - apply repeat_length.
  - intros c Hc. rewrite nth_row by exact Hc. now rewrite !nth_repeat_0.
Qed.

Lemma for_loop_ext_inv {St : Type} (Inv : St -> Prop) (f g : nat -> St -> St)
    (n : nat) (s : St) :
  Inv s ->
  (forall i t, (i < n)%nat -> Inv t -> f i t = g i t /\ Inv (g i t)) ->
  for_loop n f s = for_loop n g s /\ Inv (for_loop n g s).
Proof.
  intros Hs. induction n as [|n IH]; intros H.
  - split; [reflexivity | exact Hs].
  - destruct IH as [IHe IHi]; [intros; apply H; auto; lia|].
    rewrite !for_loop_S, IHe.
    destruct (H n (for_loop n g s)) as [He Hi]; auto.
Qed.

(** The three passes of [adjustment_Bsum], read off row [i]. *)
Lemma adjustment_Bsum_row B Bsum Xr_indices Xr_indptr dimA k w_mult i :
  (i < dimA)%nat -> (k <= length Bsum)%nat ->
  cols_in_range B k (nz_cols Xr_indptr Xr_indices i) ->
  row (adjustment_Bsum B Bsum Xr_indices Xr_indptr dimA k w_mult) k i
  = correction_formula B Bsum Xr_indices Xr_indptr k w_mult i.
Proof.
  intros Hi HS Hcols.
  pose (h := fun ix : nat =>
               cblas_daxpy k 1 (skipn (nth ix Xr_indices 0%nat * k) B)).
  pose (lo := fun r : nat => nth r Xr_indptr 0%nat).
  pose (hi := fun r : nat => nth (r + 1) Xr_indptr 0%nat).
  change (adjustment_Bsum B Bsum Xr_indices Xr_indptr dimA k w_mult)
    with (for_loop dimA
            (fun r s => in_place (r * k) k (cblas_daxpy k 1 Bsum) s)
            (scale_loop (dimA * k) (w_mult - 1)
               (for_loop dimA
                  (fun r s => for_range (lo r) (hi r)
                                (fun ix s' => in_place (r * k) k (h ix) s') s)
                  (memset_zero (dimA * k))))).
  assert (Hh : forall ix r, length r = k -> length (h ix r) = k).
  { intros ix r Hr. unfold h. now rewrite cblas_daxpy_length. }
  assert (Hhr : forall r v, length v = k ->
                 length (for_range (lo r) (hi r) h v) = k).
  { intros r v Hv. unfold for_range.
    generalize (seq (lo r) (hi r - lo r)). intros l. revert v Hv.
    induction l as [|ix l IH]; intros v Hv; simpl; auto. }
  (* first pass: one in-place loop per row *)
  destruct (for_loop_ext_inv (fun s => length s = (dimA * k)%nat)
    (fun r s => for_range (lo r) (hi r)
                  (fun ix s' => in_place (r * k) k (h ix) s') s)
    (fun r s => in_place (r * k) k (for_range (lo r) (hi r) h) s)
    dimA (memset_zero (dimA * k))) as [E1 L1].
  { apply repeat_length. }
  { intros r t Hr Ht. assert (r * k + k <= length t)%nat by nia. split.
    - apply for_range_in_place; auto.
    - rewrite in_place_length; auto. }
  rewrite E1.
  destruct (for_rows_spec dimA k (fun r => for_range (lo r) (hi r) h)
              (memset_zero (dimA * k))) as [_ R1].
  { unfold memset_zero. rewrite repeat_length. lia. }
  { intros; now apply Hhr. }
  set (pass1 := for_loop dimA
         (fun r s => in_place (r * k) k (for_range (lo r) (hi r) h) s)
         (memset_zero (dimA * k))) in *.
  (* third pass *)
  destruct (for_rows_spec dimA k (fun _ => cblas_daxpy k 1 Bsum)
              (scale_loop (dimA * k) (w_mult - 1) pass1)) as [_ R3].
  { rewrite scale_loop_length, L1. lia. }
  { intros; now rewrite cblas_daxpy_length. }
  rewrite R3 by exact Hi.
  assert (Hin : (i * k + k <= dimA * k)%nat) by nia.
  assert (Hrange : forall ix, In ix (seq (lo i) (hi i - lo i)) ->
            (k <= length (skipn (nth ix Xr_indices 0%nat * k) B))%nat).
  { intros ix Hix. rewrite length_skipn.
    unfold cols_in_range, nz_cols in Hcols. rewrite Forall_forall in Hcols.
    assert (nth ix Xr_indices 0 * k + k <= length B)%nat; [|lia].
    apply Hcols. apply in_map_iff. exists ix. split; [reflexivity|].
    exact Hix. }
  destruct (daxpy_fold_spec k (seq (lo i) (hi i - lo i)) (fun _ => 1)
              (fun ix => skipn (nth ix Xr_indices 0%nat * k) B)
              (repeat 0 k) (repeat_length 0 k) Hrange) as [_ N1].
  assert (Hcolsl : Forall (fun v => length v = k)
            (map (fun j => row B k j) (nz_cols Xr_indptr Xr_indices i))).
  { apply Forall_forall. intros v Hv. apply in_map_iff in Hv.
    destruct Hv as (j & <- & Hj). apply row_length.
    unfold cols_in_range in Hcols. rewrite Forall_forall in Hcols. auto. }
  unfold correction_formula.
  apply (vec_ext k).
  - rewrite cblas_daxpy_length. apply row_length.
    rewrite scale_loop_length, L1. exact Hin.
  - rewrite vadd_length; rewrite ?vscale_length, ?vsum_length,
      ?length_firstn; auto; lia.
  - intros c Hc.
    rewrite nth_cblas_daxpy; try lia.
    2:{ rewrite row_length; [lia|]. now rewrite scale_loop_length, L1. }
    rewrite nth_row, nth_scale_loop by (try exact Hc; rewrite ?L1; nia).
    rewrite <- nth_row by exact Hc.
    rewrite R1 by exact Hi.
    unfold memset_zero. rewrite row_repeat_0 by exact Hin.
    unfold for_range, h. rewrite N1 by exact Hc.
    rewrite nth_vadd, nth_vscale, nth_vsum, nth_firstn;
      rewrite ?vscale_length, ?vsum_length, ?length_firstn; auto; try lia.
    destruct (Nat.ltb_spec c k); [|lia].
    rewrite nth_repeat_0. unfold nz_cols. rewrite !map_map.
    fold (lo i) (hi i).
    rewrite (Rsum_ext _ (fun ix => nth c (row B k (nth ix Xr_indices 0%nat)) 0)).
    + ring.
    + intros ix _. rewrite nth_row, nth_skipn_off by exact Hc. lra.
Qed.

(** ** Projected gradient *)

Lemma cblas_ddot_comm n x y : cblas_ddot n x y = cblas_ddot n y x.
Proof.
  revert x y; induction n as [|n IH]; intros [|xi x] [|yi y]; simpl; auto.
  rewrite IH. lra.
Qed.

Lemma Rsum_seq_shift (f : nat -> R) lo n :
  Rsum (map f (seq lo n)) = Rsum (map (fun ix => f (lo + ix)%nat) (seq 0 n)).
Proof.
  revert f lo; induction n as [|n IH]; intros f lo; simpl; [reflexivity|].
  rewrite Nat.add_0_r. f_equal.
  rewrite (IH f (S lo)), (IH (fun ix => f (lo + ix)%nat) 1%nat).
  apply Rsum_ext. intros ix _. f_equal. lia.
Qed.

Lemma combine_map_seq {T U : Type} (f : nat -> T) (g : nat -> U) l :
  combine (map f l) (map g l) = map (fun ix => (f ix, g ix)) l.
Proof. induction l as [|x l IH]; simpl; [reflexivity | now rewrite IH]. Qed.

Lemma gradAscent_length a F k nz :
  cols_in_range F k (map snd nz) -> length (gradAscent a F k nz) = k.
Proof.
  intros H. apply vsum_length. apply Forall_forall. intros v Hv.
  apply in_map_iff in Hv. destruct Hv as (p & <- & Hp).
  rewrite vscale_length. apply row_length.
  unfold cols_in_range in H. rewrite Forall_forall in H. apply H.
  apply in_map_iff. now exists p.
Qed.

Lemma nth_gradAscent a F k nz c :
  cols_in_range F k (map snd nz) ->
  nth c (gradAscent a F k nz) 0
  = Rsum (map (fun p => fst p / dot k a (row F k (snd p))
                        * nth c (row F k (snd p)) 0) nz).
Proof.
  intros H. unfold gradAscent. rewrite nth_vsum.
  - rewrite map_map. clear H. induction nz as [|p nz IH]; simpl; [reflexivity|].
    now rewrite nth_vscale, IH.
  - apply Forall_forall. intros v Hv.
    apply in_map_iff in Hv. destruct Hv as (p & <- & Hp).
    rewrite vscale_length. apply row_length.
    unfold cols_in_range in H. rewrite Forall_forall in H. apply H.
    apply in_map_iff. now exists p.
Qed.

Lemma map_snd_row_nz X indptr indices i :
  map snd (row_nz X indptr indices i) = nz_cols indptr indices i.
Proof.
  unfold row_nz, nz_vals, nz_cols. rewrite combine_map_seq, map_map.
  reflexivity.
Qed.

(** [calc_grad_pgd] on the slice of entity [i] is [gradAscent]. *)
Lemma calc_grad_pgd_spec a F X indptr indices k i :
  cols_in_range F k (nz_cols indptr indices i) ->
  calc_grad_pgd a F (skipn (nth i indptr 0%nat) X)
                (skipn (nth i indptr 0%nat) indices)
                (nth (i + 1) indptr 0 - nth i indptr 0)%nat k
  = gradAscent a F k (row_nz X indptr indices i).
Proof.
  intros Hcols.
  set (lo := nth i indptr 0%nat).
  set (n := (nth (i + 1) indptr 0 - nth i indptr 0)%nat).
  assert (Hrange : forall ix, (ix < n)%nat ->
            (nth (lo + ix) indices 0 * k + k <= length F)%nat).
  { intros ix Hix. unfold cols_in_range, nz_cols in Hcols.
    rewrite Forall_forall in Hcols. apply Hcols.
    apply in_map_iff. exists (lo + ix)%nat. split; [reflexivity|].
    apply in_seq. fold lo n. lia. }
  destruct (daxpy_loop_spec k n
    (fun ix => nth ix (skipn lo X) 0
               / cblas_ddot k (skipn (nth ix (skipn lo indices) 0%nat * k) F) a)
    (fun ix => skipn (nth ix (skipn lo indices) 0%nat * k) F)
    (memset_zero k)) as [Hl Hn].
  { apply repeat_length. }
  { intros ix Hix. rewrite length_skipn, nth_skipn_off.
    specialize (Hrange ix Hix). lia. }
  apply (vec_ext k).
  - exact Hl.
  - apply gradAscent_length. now rewrite map_snd_row_nz.
  - intros c Hc. unfold calc_grad_pgd. rewrite Hn by exact Hc.
    rewrite nth_gradAscent by now rewrite map_snd_row_nz.
    unfold memset_zero. rewrite nth_repeat_0, Rplus_0_l.
    unfold row_nz, nz_vals, nz_cols. fold lo n.
    rewrite combine_map_seq, map_map. cbn [fst snd].
    rewrite (Rsum_seq_shift _ lo n).
    apply Rsum_ext. intros ix _.
    rewrite !nth_skipn_off, nth_row by exact Hc.
    unfold dot, row. rewrite cblas_ddot_firstn_r, (cblas_ddot_comm k a).
    reflexivity.
Qed.

Lemma pg_update_length B X Xind nnz k cd Bsum step a :
  length (pg_update B X Xind nnz k cd Bsum step a) = length a.
Proof.
  unfold pg_update.
  now rewrite clip_nonneg_length, cblas_dscal_length, !cblas_daxpy_length.
Qed.

(** One inner update of [pg_iteration], coordinate [c], for an arbitrary
    content [Bsum] of the vector added after the gradient step. *)
Lemma nth_pg_update F X indptr indices k i cd Bsum step a c :
  length a = k -> (k <= length Bsum)%nat -> (c < k)%nat ->
  cols_in_range F k (nz_cols indptr indices i) ->
  nth c (pg_update F (skipn (nth i indptr 0%nat) X)
           (skipn (nth i indptr 0%nat) indices)
           (nth (i + 1) indptr 0 - nth i indptr 0)%nat k cd Bsum step a) 0
  = nonneg (cd * (nth c a 0
                  + step * nth c (gradAscent a F k (row_nz X indptr indices i)) 0
                  + nth c Bsum 0)).
Proof.
  intros Ha HS Hc Hcols. unfold pg_update.
  rewrite calc_grad_pgd_spec by exact Hcols.
  assert (Hg : length (gradAscent a F k (row_nz X indptr indices i)) = k).
  { apply gradAscent_length. now rewrite map_snd_row_nz. }
  rewrite nth_clip_nonneg, nth_cblas_dscal, !nth_cblas_daxpy;
    rewrite ?cblas_dscal_length, ?cblas_daxpy_length; try lia.
  f_equal. ring.
Qed.

(** With the vector [-step * S] and the divisor of the driver, one inner
    update is the update of the written specification. *)
Lemma pg_update_formula F X indptr indices k i l2 step S a :
  length a = k -> length S = k ->
  cols_in_range F k (nz_cols indptr indices i) ->
  pg_update F (skipn (nth i indptr 0%nat) X)
    (skipn (nth i indptr 0%nat) indices)
    (nth (i + 1) indptr 0 - nth i indptr 0)%nat k
    (1 / (1 + 2 * l2 * step)) (cblas_dscal k (- step) S) step a
  = pg_formula F k (row_nz X indptr indices i) S l2 step a.
Proof.
  intros Ha HS Hcols.
  assert (Hg : length (gradAscent a F k (row_nz X indptr indices i)) = k).
  { apply gradAscent_length. now rewrite map_snd_row_nz. }
  assert (H1 : length (vadd a (vscale step
                 (gradAscent a F k (row_nz X indptr indices i)))) = k).
  { rewrite vadd_length; rewrite ?vscale_length; congruence. }
  assert (H2 : length (vscale step S) = k) by now rewrite vscale_length.
  assert (H3 : length (pg_formula F k (row_nz X indptr indices i) S l2 step a)
               = k).
  { unfold pg_formula. rewrite length_map, vsub_length; congruence. }
  apply (vec_ext k).
  - now rewrite pg_update_length.
  - exact H3.
  - intros c Hc.
    rewrite nth_pg_update; rewrite ?cblas_dscal_length; try lia; auto.
    rewrite nth_cblas_dscal by lia.
    unfold pg_formula.
    rewrite nth_map_in by (rewrite vsub_length; congruence).
    rewrite nth_vsub by congruence.
    rewrite nth_vadd by (rewrite vscale_length; congruence).
    rewrite !nth_vscale.
    f_equal. unfold Rdiv. ring.
Qed.

(** [pg_iteration], read off row [i]: [maxupd] inner updates of that row. *)
Lemma pg_iteration_row A B Xr Xr_indptr Xr_indices dimA k cd cnst_sum Bsum_user
    step_size w_mult maxupd i :
  (dimA * k <= length A)%nat -> (i < dimA)%nat ->
  row (pg_iteration A B Xr Xr_indptr Xr_indices dimA k cd cnst_sum Bsum_user
         step_size w_mult maxupd) k i
  = for_loop maxupd (fun _ =>
      pg_update B (skipn (nth i Xr_indptr 0%nat) Xr)
        (skipn (nth i Xr_indptr 0%nat) Xr_indices)
        (nth (i + 1) Xr_indptr 0 - nth i Xr_indptr 0)%nat k cd
        (if Req_dec_T w_mult 1 then cnst_sum else skipn (i * k) Bsum_user)
        (step_size * w_mult))
      (row A k i).
Proof.
  intros HA Hi. unfold pg_iteration.
  destruct (for_rows_spec dimA k
    (fun ia => for_loop maxupd (fun _ =>
       pg_update B (skipn (nth ia Xr_indptr 0%nat) Xr)
         (skipn (nth ia Xr_indptr 0%nat) Xr_indices)
         (nth (ia + 1) Xr_indptr 0 - nth ia Xr_indptr 0)%nat k cd
         (if Req_dec_T w_mult 1 then cnst_sum else skipn (ia * k) Bsum_user)
         (step_size * w_mult))) A HA) as [_ HR].
  - intros ia r Hr. apply for_loop_ind; [exact Hr|].
    intros p t _ Ht. now rewrite pg_update_length.
  - apply HR. exact Hi.
Qed.

(** ** The driver *)

Section DriverProperties.

Variable minimize_nonneg_cg : cg_minimizer.
Variable tnc : tnc_minimizer.
Variable malloc_ok : buffer -> bool.
Variable sigint : nat -> bool.
Variables (Xr : list R) (Xr_indptr Xr_indices : list nat).
Variables (Xc : list R) (Xc_indptr Xc_indices : list nat).
Variables (dimA dimB k : nat).
Variables (l2_reg l1_reg w_mult : R).
Variable method : Method.
Variable limit_step : bool.
Variable maxupd : nat.

Local Abbreviation half_A_ :=
  (half_A minimize_nonneg_cg tnc Xr Xr_indptr Xr_indices dimA dimB k
          l2_reg l1_reg w_mult method limit_step maxupd).
Local Abbreviation half_B_ :=
  (half_B minimize_nonneg_cg tnc Xr Xc Xc_indptr Xc_indices dimA dimB k
          l2_reg l1_reg w_mult method limit_step maxupd).
Local Abbreviation nth_half_ :=
  (nth_half minimize_nonneg_cg tnc Xr Xr_indptr Xr_indices
            Xc Xc_indptr Xc_indices dimA dimB k l2_reg l1_reg w_mult method
            limit_step maxupd).
Local Abbreviation halves_ :=
  (halves minimize_nonneg_cg tnc Xr Xr_indptr Xr_indices
          Xc Xc_indptr Xc_indices dimA dimB k l2_reg l1_reg w_mult method
          limit_step maxupd).
Local Abbreviation outer_loop_ :=
  (outer_loop minimize_nonneg_cg tnc sigint Xr Xr_indptr Xr_indices
              Xc Xc_indptr Xc_indices dimA dimB k l2_reg l1_reg w_mult method
              limit_step maxupd).
Local Abbreviation run_poismf_ :=
  (run_poismf minimize_nonneg_cg tnc malloc_ok sigint Xr Xr_indptr Xr_indices
              Xc Xc_indptr Xc_indices dimA dimB k l2_reg l1_reg w_mult method
              limit_step maxupd).
Local Abbreviation allocate_ := (allocate malloc_ok w_mult method).
Local Abbreviation requested_ := (requested w_mult method).
Local Abbreviation aggregate_ := (aggregate k l1_reg).
Local Abbreviation cnst_div_of_ := (cnst_div_of l2_reg).

Lemma half_A_step_size cd st :
  st_step_size (half_A_ cd st) = st_step_size st
  /\ st_neg_step_sz (half_A_ cd st) = st_neg_step_sz st
  /\ st_B (half_A_ cd st) = st_B st.
Proof. repeat split. Qed.

Lemma half_B_frame cd st : st_A (half_B_ cd st) = st_A st.
Proof. unfold half_B. destruct method; reflexivity. Qed.

Lemma halves_S n st : halves_ (S n) st = nth_half_ n (halves_ n st).
Proof. apply for_loop_S. Qed.

Lemma halves_SS n st :
  halves_ (S (S n)) st
  = halves_ n (half_B_ (cnst_div_of_ st) (half_A_ (cnst_div_of_ st) st)).
Proof.
  induction n as [|n IH].
  - reflexivity.
  - rewrite halves_S, IH.
    rewrite (halves_S n (half_B_ (cnst_div_of_ st) (half_A_ (cnst_div_of_ st) st))).
    reflexivity.
Qed.

(** The loop stops at the first test of the flag that follows an
    interrupt, in the state reached by the half-iterations completed so
    far. *)
Lemma outer_loop_interrupted iters :
  forall n p w st,
    should_stop_procedure w = false ->
    (n < 2 * iters)%nat ->
    (forall q, (q < n)%nat -> sigint (p + q) = false) ->
    sigint (p + n) = true ->
    outer_loop_ iters p w st = (set_interrup_global_variable w, halves_ n st).
Proof.
  induction iters as [|iters IH]; intros n p w st Hw Hn Hq Hs; [lia|].
  simpl. unfold deliver.
  destruct n as [|[|n]].
  - rewrite Nat.add_0_r in Hs. rewrite Hs. reflexivity.
  - pose proof (Hq 0%nat ltac:(lia)) as H0. rewrite Nat.add_0_r in H0.
    rewrite H0, Hw, Hs. reflexivity.
  - pose proof (Hq 0%nat ltac:(lia)) as H0. rewrite Nat.add_0_r in H0.
    pose proof (Hq 1%nat ltac:(lia)) as H1.
    rewrite H0, Hw, H1, Hw.
    rewrite (IH n); auto; try lia.
    + now rewrite halves_SS.
    + intros q Hq'. replace (p + 2 + q)%nat with (p + S (S q))%nat by lia.
      apply Hq. lia.
    + replace (p + 2 + n)%nat with (p + S (S n))%nat by lia. exact Hs.
Qed.

(** Without an interrupt the loop runs all its half-iterations. *)
Lemma outer_loop_completed iters :
  forall p w st,
    should_stop_procedure w = false ->
    (forall q, (q < 2 * iters)%nat -> sigint (p + q) = false) ->
    outer_loop_ iters p w st = (w, halves_ (2 * iters) st).
Proof.
  induction iters as [|iters IH]; intros p w st Hw Hq; [reflexivity|].
  simpl outer_loop. unfold deliver.
  pose proof (Hq 0%nat ltac:(lia)) as H0. rewrite Nat.add_0_r in H0.
  pose proof (Hq 1%nat ltac:(lia)) as H1.
  rewrite H0, Hw, H1, Hw.
  rewrite IH; auto.
  - replace (2 * S iters)%nat with (S (S (2 * iters))) by lia.
    now rewrite halves_SS.
  - intros q Hq'. replace (p + 2 + q)%nat with (p + S (S q))%nat by lia.
    apply Hq. lia.
Qed.

(** Whatever the interrupts, the loop ends in a state reached by some
    number of half-iterations, and it neither allocates nor frees. *)
Lemma outer_loop_reaches iters :
  forall p w st,
    should_stop_procedure w = false ->
    exists n, (n <= 2 * iters)%nat
              /\ snd (outer_loop_ iters p w st) = halves_ n st
              /\ live (fst (outer_loop_ iters p w st)) = live w.
Proof.
  induction iters as [|iters IH]; intros p w st Hw.
  - exists 0%nat. repeat split. lia.
  - simpl outer_loop. unfold deliver.
    destruct (sigint p) eqn:H0.
    + exists 0%nat. repeat split. lia.
    + rewrite Hw. destruct (sigint (p + 1)) eqn:H1.
      * exists 1%nat. repeat split. lia.
      * rewrite Hw.
        destruct (IH (p + 2)%nat w
                    (half_B_ (cnst_div_of_ st) (half_A_ (cnst_div_of_ st) st)) Hw)
          as (n & Hn & Hst & Hlive).
        exists (S (S n)). repeat split; [lia | | exact Hlive].
        rewrite Hst. now rewrite halves_SS.
Qed.

(** *** Allocation and release *)

Lemma cleanup_flag ptrs w : should_stop_procedure (cleanup ptrs w) = false.
Proof. reflexivity. Qed.

Lemma free_live p w1 w2 :
  live w1 = live w2 -> live (free p w1) = live (free p w2).
Proof. intros H. destruct p; simpl; now rewrite H. Qed.

Lemma cleanup_live ptrs w1 w2 :
  live w1 = live w2 -> live (cleanup ptrs w1) = live (cleanup ptrs w2).
Proof.
  intros H. unfold cleanup. simpl. repeat apply free_live. exact H.
Qed.

(** When every requested buffer is obtained, the call runs the outer loop
    from a world whose flag is clear, returns 0, and its [cleanup] empties
    the heap. *)
Lemma run_poismf_success A B step_size numiter w0 :
  (forall b, requested_ b = true -> malloc_ok b = true) ->
  exists ptrs w1,
    should_stop_procedure w1 = false
    /\ (live w0 = [] -> live (cleanup ptrs w1) = [])
    /\ let r := run_poismf_ A B step_size numiter w0 in
       let l := outer_loop_ numiter 0 w1
                  (mk_state A B step_size (- step_size)) in
       ret_code r = 0%Z /\ out_A r = st_A (snd l) /\ out_B r = st_B (snd l)
       /\ out_world r = cleanup ptrs (fst l).
Proof.
  intros H.
  assert (H1 : malloc_ok Cnst_sum = true) by (apply H; reflexivity).
  assert (H2 : malloc_ok Buffer_arr = true) by (apply H; reflexivity).
  assert (H3 : w_mult <> 1 -> malloc_ok Bsum_w = true).
  { intros Hw. apply H. simpl. destruct (Req_dec_T w_mult 1); congruence. }
  assert (H4 : method = tncg ->
               malloc_ok Buffer_int = true /\ malloc_ok Zeros_tncg = true
               /\ malloc_ok Inf_tncg = true).
  { intros Hm. repeat split; apply H; simpl; now rewrite Hm. }
  unfold run_poismf, allocate, malloc. rewrite H1, H2.
  destruct (Req_dec_T w_mult 1) as [Hw|Hw]; [|rewrite (H3 Hw)];
    destruct method eqn:Hm;
    try (destruct (H4 eq_refl) as (-> & -> & ->));
    cbn -[outer_loop cleanup];
    match goal with
    | |- context [outer_loop _ _ _ _ _ _ _ _ _ _ _ _ _ _ _ _ _ _ _ _ ?w _] =>
        match goal with
        | |- context [cleanup ?p _] =>
            exists p, w;
            destruct (outer_loop minimize_nonneg_cg tnc sigint Xr Xr_indptr
                        Xr_indices Xc Xc_indptr Xc_indices dimA dimB k l2_reg
                        l1_reg w_mult method limit_step maxupd numiter 0 w
                        (mk_state A B step_size (- step_size))) eqn:E
        end
    end;
    rewrite ?Hm in *; rewrite ?E; cbn -[outer_loop cleanup];
    (split; [reflexivity|]);
    (split; [intros Hl; unfold cleanup; simpl; rewrite Hl; reflexivity|]);
    repeat split.
Qed.

(** When a requested buffer is not obtained, the call reaches [throw_oom]:
    it returns 1 and never enters the outer loop. *)
Lemma run_poismf_failure A B step_size numiter w0 :
  (exists b, requested_ b = true /\ malloc_ok b = false) ->
  let r := run_poismf_ A B step_size numiter w0 in
  ret_code r = 1%Z /\ out_A r = A /\ out_B r = B
  /\ should_stop_procedure (out_world r) = false
  /\ (live w0 = [] -> live (out_world r) = []).
Proof.
  intros (b & Hr & Hf). unfold run_poismf, allocate, malloc, requested in *.
  destruct b; destruct (Req_dec_T w_mult 1); destruct method;
    try discriminate Hr; rewrite ?Hf;
    destruct (malloc_ok Cnst_sum), (malloc_ok Buffer_arr),
      (malloc_ok Bsum_w), (malloc_ok Buffer_int), (malloc_ok Zeros_tncg),
      (malloc_ok Inf_tncg);
    try discriminate Hf; simpl;
    repeat split; intros Hl; rewrite Hl; reflexivity.
Qed.

Lemma requested_cases :
  (forall b, requested_ b = true -> malloc_ok b = true)
  \/ (exists b, requested_ b = true /\ malloc_ok b = false).
Proof.
  destruct (forallb (fun b => implb (requested_ b) (malloc_ok b))
              [Cnst_sum; Buffer_arr; Bsum_w; Buffer_int; Zeros_tncg; Inf_tncg])
    eqn:E.
  - left. intros b Hb. rewrite forallb_forall in E.
    assert (Hin : In b [Cnst_sum; Buffer_arr; Bsum_w; Buffer_int; Zeros_tncg;
                        Inf_tncg]) by (destruct b; simpl; tauto).
    specialize (E b Hin). rewrite Hb in E. exact E.
  - right.
    assert (Hex : exists b, In b [Cnst_sum; Buffer_arr; Bsum_w; Buffer_int;
                                  Zeros_tncg; Inf_tncg]
                            /\ implb (requested_ b) (malloc_ok b) = false).
    { apply not_true_iff_false in E.
      destruct (existsb (fun b => negb (implb (requested_ b) (malloc_ok b)))
                  [Cnst_sum; Buffer_arr; Bsum_w; Buffer_int; Zeros_tncg;
                   Inf_tncg]) eqn:E'.
      - apply existsb_exists in E'. destruct E' as (b & Hin & Hb).
        exists b. split; [exact Hin|]. now apply negb_true_iff.
      - exfalso. apply E. apply forallb_forall. intros b Hin.
        rewrite <- not_true_iff_false in E'.
        destruct (implb (requested_ b) (malloc_ok b)) eqn:Eb; [reflexivity|].
        exfalso. apply E'. apply existsb_exists. exists b.
        split; [exact Hin|]. now rewrite Eb. }
    destruct Hex as (b & _ & Hb). exists b.
    destruct (requested_ b), (malloc_ok b); simpl in Hb; try discriminate.
    split; reflexivity.
Qed.

(** The flag is cleared on entry: the value it has when [run_poismf] is
    called does not influence the call. *)
Lemma run_poismf_ignores_stale_flag A B step_size numiter flag flag' heap :
  run_poismf_ A B step_size numiter (mk_world flag heap)
  = run_poismf_ A B step_size numiter (mk_world flag' heap).
Proof.
  unfold run_poismf, malloc.
  destruct (malloc_ok Cnst_sum), (malloc_ok Buffer_arr); reflexivity.
Qed.

(** Without an interrupt and with every requested buffer obtained, the call
    performs all [2 * numiter] half-iterations. *)
Lemma run_poismf_uninterrupted A B step_size numiter w0 :
  (forall b, requested_ b = true -> malloc_ok b = true) ->
  (forall q, (q < 2 * numiter)%nat -> sigint q = false) ->
  let r := run_poismf_ A B step_size numiter w0 in
  let st := halves_ (2 * numiter) (mk_state A B step_size (- step_size)) in
  ret_code r = 0%Z /\ out_A r = st_A st /\ out_B r = st_B st.
Proof.
  intros Hok Hq r st.
  destruct (run_poismf_success A B step_size numiter w0 Hok)
    as (ptrs & w1 & Hw1 & _ & Hret & HA & HB & _).
  fold r in Hret, HA, HB.
  rewrite Hret, HA, HB, outer_loop_completed by assumption.
  repeat split.
Qed.

(** C8.  When an interrupt sets the flag before the first outer iteration
    tests it, [run_poismf] returns 0 with [A] and [B] as the caller passed
    them.  More generally, when the [n]-th test of the flag is the first to
    see it set, the call returns 0 with the matrices left by the [n]
    half-iterations completed before that test.  On every path, allocation
    failure included, the flag is [false] when the call returns. *)
Theorem cancellation_at_half_iteration_boundary
    (A B : list R) (step_size : R) (numiter : nat) (w0 : world) :
  let r := run_poismf_ A B step_size numiter w0 in
  let st0 := mk_state A B step_size (- step_size) in
  should_stop_procedure (out_world r) = false
  /\ ((forall b, requested_ b = true -> malloc_ok b = true) ->
      (sigint 0 = true -> ret_code r = 0%Z /\ out_A r = A /\ out_B r = B)
      /\ forall n, (n < 2 * numiter)%nat ->
           (forall q, (q < n)%nat -> sigint q = false) -> sigint n = true ->
           ret_code r = 0%Z
           /\ out_A r = st_A (halves_ n st0)
           /\ out_B r = st_B (halves_ n st0)).
Proof.
  intros r st0. split.
  - destruct requested_cases as [Hok | Hfail].
    + destruct (run_poismf_success A B step_size numiter w0 Hok)
        as (ptrs & w1 & _ & _ & _ & _ & _ & Hw).
      subst r. rewrite Hw. apply cleanup_flag.
    + now destruct (run_poismf_failure A B step_size numiter w0 Hfail)
        as (_ & _ & _ & Hfl & _).
  - intros Hok.
    destruct (run_poismf_success A B step_size numiter w0 Hok)
      as (ptrs & w1 & Hw1 & _ & Hret & HA & HB & _).
    fold r in Hret, HA, HB. split.
    + intros Hs. rewrite Hret, HA, HB. destruct numiter as [|iters].
      * repeat split.
      * simpl. unfold deliver. rewrite Hs. repeat split.
    + intros n Hn Hq Hs.
      rewrite Hret, HA, HB, (outer_loop_interrupted numiter n 0 w1); auto.
Qed.

(** C9.  When the allocation of a requested buffer fails, [run_poismf]
    returns 1, leaves no buffer of the call live and returns [A] and [B] as
    passed; when every requested buffer is obtained it returns 0, again
    with no buffer left live. *)
Theorem allocation_failure_status
    (A B : list R) (step_size : R) (numiter : nat) (w0 : world) :
  let r := run_poismf_ A B step_size numiter w0 in
  ((exists b, requested_ b = true /\ malloc_ok b = false) ->
   ret_code r = 1%Z /\ out_A r = A /\ out_B r = B
   /\ (live w0 = [] -> live (out_world r) = []))
  /\ ((forall b, requested_ b = true -> malloc_ok b = true) ->
      ret_code r = 0%Z /\ (live w0 = [] -> live (out_world r) = [])).
Proof.
  intros r. split.
  - intros Hfail.
    destruct (run_poismf_failure A B step_size numiter w0 Hfail)
      as (H1 & H2 & H3 & _ & H5). auto.
  - intros Hok.
    destruct (run_poismf_success A B step_size numiter w0 Hok)
      as (ptrs & w1 & Hw1 & Hheap & Hret & _ & _ & Hw).
    split; [exact Hret|]. intros Hl. fold r in Hw. rewrite Hw.
    destruct (outer_loop_reaches numiter 0 w1
                (mk_state A B step_size (- step_size)) Hw1)
      as (n & _ & _ & Hlive).
    rewrite (cleanup_live ptrs _ w1 Hlive). now apply Hheap.
Qed.

(** C10.  With [numiter = 0] and every requested buffer obtained,
    [run_poismf] returns 0 and [A] and [B] are the lists it was given. *)
Theorem zero_iterations_leave_matrices
    (A B : list R) (step_size : R) (w0 : world) :
  (forall b, requested_ b = true -> malloc_ok b = true) ->
  let r := run_poismf_ A B step_size 0 w0 in
  ret_code r = 0%Z /\ out_A r = A /\ out_B r = B.
Proof.
  intros Hok r.
  destruct (run_poismf_success A B step_size 0 w0 Hok)
    as (ptrs & w1 & _ & _ & Hret & HA & HB & _).
  fold r in Hret, HA, HB. rewrite Hret, HA, HB. repeat split.
Qed.

(** *** Outer iterations *)

Lemma even_double n : Nat.even (2 * n) = true.
Proof. rewrite Nat.even_mul. reflexivity. Qed.

Lemma even_S_double n : Nat.even (S (2 * n)) = false.
Proof. rewrite Nat.even_succ, <- Nat.negb_even, even_double. reflexivity. Qed.

(** Outer iteration [n] takes the state after [2 * n] half-iterations
    through the [A] half and then the [B] half. *)
Lemma halves_outer_iteration n st0 :
  halves_ (2 * S n) st0
  = half_B_ (cnst_div_of_ (halves_ (2 * n) st0))
      (half_A_ (cnst_div_of_ (halves_ (2 * n) st0)) (halves_ (2 * n) st0)).
Proof.
  replace (2 * S n)%nat with (S (S (2 * n))) by lia.
  rewrite halves_S, halves_S. unfold nth_half at 1 2.
  rewrite even_double, even_S_double. reflexivity.
Qed.

Lemma half_B_pg_step cd st :
  method = pg ->
  st_step_size (half_B_ cd st) = st_step_size st * (1 / 2)
  /\ st_neg_step_sz (half_B_ cd st) = - (st_step_size st * (1 / 2)).
Proof. intros Hm. unfold half_B. rewrite Hm. split; reflexivity. Qed.

(** [neg_step_sz] is the opposite of [step_size] throughout a run. *)
Lemma halves_neg_step_sz n A B s0 :
  st_neg_step_sz (halves_ n (mk_state A B s0 (- s0)))
  = - st_step_size (halves_ n (mk_state A B s0 (- s0))).
Proof.
  induction n as [|n IH]; [reflexivity|].
  rewrite halves_S. unfold nth_half. destruct (Nat.even n).
  - exact IH.
  - unfold half_B. destruct method; cbn; auto.
Qed.

Lemma half_A_pg_call cd st :
  method = pg ->
  exists cs bw,
    st_A (half_A_ cd st)
    = pg_iteration (st_A st) (st_B st) Xr Xr_indptr Xr_indices dimA k cd cs bw
        (st_step_size st) w_mult maxupd.
Proof.
  intros Hm. unfold half_A. rewrite Hm. eexists. eexists. reflexivity.
Qed.

Lemma half_B_pg_call cd st :
  method = pg ->
  exists cs bw,
    st_B (half_B_ cd st)
    = pg_iteration (st_B st) (st_A st) Xc Xc_indptr Xc_indices dimB k cd cs bw
        (st_step_size st) w_mult maxupd.
Proof.
  intros Hm. unfold half_B. rewrite Hm. eexists. eexists. reflexivity.
Qed.

Lemma pg_step_size_at n A B s0 :
  method = pg ->
  st_step_size (halves_ (2 * n) (mk_state A B s0 (- s0))) = s0 * (1 / 2) ^ n
  /\ st_neg_step_sz (halves_ (2 * n) (mk_state A B s0 (- s0)))
     = - (s0 * (1 / 2) ^ n).
Proof.
  intros Hm. induction n as [|n [IH1 IH2]].
  - simpl. split; [lra | f_equal; lra].
  - rewrite halves_outer_iteration.
    destruct (half_B_pg_step
                (cnst_div_of_ (halves_ (2 * n) (mk_state A B s0 (- s0))))
                (half_A_ (cnst_div_of_ (halves_ (2 * n) (mk_state A B s0 (- s0))))
                         (halves_ (2 * n) (mk_state A B s0 (- s0)))) Hm)
      as [E1 E2].
    rewrite E1, E2.
    destruct (half_A_step_size
                (cnst_div_of_ (halves_ (2 * n) (mk_state A B s0 (- s0))))
                (halves_ (2 * n) (mk_state A B s0 (- s0)))) as (E3 & _ & _).
    rewrite E3, IH1. simpl. split; [lra | f_equal; lra].
Qed.

(** C7.  With the projected-gradient method and initial step [s0], outer
    iteration [n] (counted from 0) starts with [step_size = s0 * 0.5^n];
    both of its calls of [pg_iteration], for [A] and then for [B], receive
    that value; the step is halved once, after the second call.  The state
    [st] in which iteration [n] starts is the one the loop of [run_poismf]
    is in when it has run [n] iterations without an interrupt. *)
Theorem pg_step_size_decay (A B : list R) (s0 : R) (n : nat) :
  method = pg ->
  let st := halves_ (2 * n) (mk_state A B s0 (- s0)) in
  let cd := cnst_div_of_ st in
  st_step_size st = s0 * (1 / 2) ^ n
  /\ (exists cs bw,
        st_A (half_A_ cd st)
        = pg_iteration (st_A st) (st_B st) Xr Xr_indptr Xr_indices dimA k
            (1 / (1 + 2 * l2_reg * (s0 * (1 / 2) ^ n))) cs bw
            (s0 * (1 / 2) ^ n) w_mult maxupd)
  /\ (exists cs bw,
        st_B (half_B_ cd (half_A_ cd st))
        = pg_iteration (st_B st) (st_A (half_A_ cd st)) Xc Xc_indptr Xc_indices
            dimB k (1 / (1 + 2 * l2_reg * (s0 * (1 / 2) ^ n))) cs bw
            (s0 * (1 / 2) ^ n) w_mult maxupd)
  /\ st_step_size (half_B_ cd (half_A_ cd st)) = s0 * (1 / 2) ^ S n
  /\ forall w,
       should_stop_procedure w = false ->
       (forall q, (q < 2 * S n)%nat -> sigint q = false) ->
       snd (outer_loop_ (S n) 0 w (mk_state A B s0 (- s0)))
       = half_B_ cd (half_A_ cd st).
Proof.
  intros Hm st cd.
  destruct (pg_step_size_at n A B s0 Hm) as [Hs Hn]. fold st in Hs, Hn.
  assert (Hcd : cd = 1 / (1 + 2 * l2_reg * (s0 * (1 / 2) ^ n))).
  { unfold cd, cnst_div_of. now rewrite Hs. }
  split; [exact Hs|]. split; [|split; [|split]].
  - destruct (half_A_pg_call cd st Hm) as (cs & bw & E).
    exists cs, bw. now rewrite E, Hs, <- Hcd.
  - destruct (half_B_pg_call cd (half_A_ cd st) Hm) as (cs & bw & E).
    exists cs, bw.
    destruct (half_A_step_size cd st) as (E1 & E2 & E3).
    now rewrite E, E1, E3, Hs, <- Hcd.
  - destruct (half_B_pg_step cd (half_A_ cd st) Hm) as [E _].
    rewrite E. destruct (half_A_step_size cd st) as (E1 & _ & _).
    rewrite E1, Hs. simpl. lra.
  - intros w Hw Hq. rewrite outer_loop_completed by assumption.
    apply halves_outer_iteration.
Qed.

(** *** Non-negativity *)

Lemma nonneg_ge_0 x : 0 <= nonneg x.
Proof. unfold nonneg. destruct (Rlt_dec 0 x); lra. Qed.

Lemma Forall_firstn_R (P : R -> Prop) n l : Forall P l -> Forall P (firstn n l).
Proof.
  intros H. revert n. induction H as [|x l Hx _ IH]; intros [|n]; simpl; auto.
Qed.

Lemma Forall_skipn_R (P : R -> Prop) n l : Forall P l -> Forall P (skipn n l).
Proof.
  intros H. revert n. induction H as [|x l Hx Hl IH]; intros [|n]; simpl; auto.
Qed.

Lemma in_place_Forall (P : R -> Prop) off n f M :
  Forall P M ->
  (forall r, Forall P r -> (length r <= n)%nat -> Forall P (f r)) ->
  Forall P (in_place off n f M).
Proof.
  intros HM Hf. unfold in_place. apply Forall_app. split.
  - now apply Forall_firstn_R.
  - apply Forall_app. split.
    + apply Hf.
      * now apply Forall_firstn_R, Forall_skipn_R.
      * rewrite length_firstn. lia.
    + now apply Forall_skipn_R.
Qed.

Lemma clip_nonneg_Forall n x :
  (length x <= n)%nat -> Forall (Rle 0) (clip_nonneg n x).
Proof.
  revert x; induction n as [|n IH]; intros [|xi x]; simpl; intros H;
    try constructor; try lia.
  - apply nonneg_ge_0.
  - apply IH. lia.
Qed.

Lemma pg_iteration_nonneg A B X indptr indices dim n cd cs bw step w upd :
  Forall (Rle 0) A ->
  Forall (Rle 0)
    (pg_iteration A B X indptr indices dim n cd cs bw step w upd).
Proof.
  intros HA. unfold pg_iteration. apply for_loop_ind; [exact HA|].
  intros ia M _ HM. apply in_place_Forall; [exact HM|].
  intros r Hr Hlen.
  apply (for_loop_ind (fun _ a => Forall (Rle 0) a /\ (length a <= n)%nat)).
  - split; assumption.
  - intros p a _ [Ha Hl]. split.
    + unfold pg_update. apply clip_nonneg_Forall.
      now rewrite cblas_dscal_length, !cblas_daxpy_length.
    + now rewrite pg_update_length.
Qed.

Lemma cg_iteration_nonneg A B X indptr indices dim n limit Bsum l2 w upd bw :
  cg_keeps_nonneg minimize_nonneg_cg ->
  Forall (Rle 0) A ->
  Forall (Rle 0)
    (cg_iteration minimize_nonneg_cg A B X indptr indices dim n limit Bsum l2
                  w upd bw).
Proof.
  intros Hcg HA. unfold cg_iteration. apply for_loop_ind; [exact HA|].
  intros ia M _ HM. apply in_place_Forall; [exact HM|].
  intros r Hr _. now apply Hcg.
Qed.

Lemma tncg_iteration_nonneg A B X indptr indices dim n Bsum l2 w upd up bw :
  tnc_respects_low tnc ->
  Forall (Rle 0) A ->
  Forall (Rle 0)
    (tncg_iteration tnc A B X indptr indices dim n Bsum l2 w upd
                    (repeat 0 n) up bw).
Proof.
  intros Htnc HA. unfold tncg_iteration. apply for_loop_ind; [exact HA|].
  intros ia M _ HM. apply in_place_Forall; [exact HM|].
  intros r _ _.
  destruct (Htnc n r calc_fun_and_grad
              (row_data B X indptr indices n Bsum l2 w bw ia) (repeat 0 n) up
              (Nat.max 1 (Nat.min 50 (n / 2))) upd (1 / 4) 10 0 0 (1 / 10000)
              (-1) (-1) (13 / 10) (repeat_length 0 n)) as [Hlen Hlow].
  apply Forall_forall. intros y Hy.
  destruct (In_nth _ _ 0 Hy) as (j & Hj & <-).
  rewrite Hlen in Hj. specialize (Hlow j Hj).
  now rewrite nth_repeat_0 in Hlow.
Qed.

Lemma half_A_nonneg cd st :
  cg_keeps_nonneg minimize_nonneg_cg -> tnc_respects_low tnc ->
  Forall (Rle 0) (st_A st) -> Forall (Rle 0) (st_B st) ->
  Forall (Rle 0) (st_A (half_A_ cd st))
  /\ Forall (Rle 0) (st_B (half_A_ cd st)).
Proof.
  intros Hcg Htnc HA HB. split; [|exact HB].
  unfold half_A. cbn [st_A]. destruct method.
  - now apply tncg_iteration_nonneg.
  - now apply cg_iteration_nonneg.
  - now apply pg_iteration_nonneg.
Qed.

Lemma half_B_nonneg cd st :
  cg_keeps_nonneg minimize_nonneg_cg -> tnc_respects_low tnc ->
  Forall (Rle 0) (st_A st) -> Forall (Rle 0) (st_B st) ->
  Forall (Rle 0) (st_A (half_B_ cd st))
  /\ Forall (Rle 0) (st_B (half_B_ cd st)).
Proof.
  intros Hcg Htnc HA HB. rewrite half_B_frame. split; [exact HA|].
  unfold half_B. destruct method; cbn [st_B].
  - now apply tncg_iteration_nonneg.
  - now apply cg_iteration_nonneg.
  - now apply pg_iteration_nonneg.
Qed.

Lemma halves_nonneg n st :
  cg_keeps_nonneg minimize_nonneg_cg -> tnc_respects_low tnc ->
  Forall (Rle 0) (st_A st) -> Forall (Rle 0) (st_B st) ->
  Forall (Rle 0) (st_A (halves_ n st))
  /\ Forall (Rle 0) (st_B (halves_ n st)).
Proof.
  intros Hcg Htnc HA HB. induction n as [|n [IHA IHB]].
  - split; assumption.
  - rewrite halves_S. unfold nth_half. destruct (Nat.even n).
    + now apply half_A_nonneg.
    + now apply half_B_nonneg.
Qed.

(** C5.  When the minimisers honour their non-negativity contracts and [A]
    and [B] start with no negative entry, neither matrix has a negative
    entry after any number of half-iterations, for each of the three
    methods, nor in what [run_poismf] returns. *)
Theorem nonnegativity_invariant
    (A B : list R) (step_size : R) (numiter : nat) (w0 : world) :
  cg_keeps_nonneg minimize_nonneg_cg -> tnc_respects_low tnc ->
  Forall (Rle 0) A -> Forall (Rle 0) B ->
  (forall n,
     Forall (Rle 0)
       (st_A (halves_ n (mk_state A B step_size (- step_size))))
     /\ Forall (Rle 0)
          (st_B (halves_ n (mk_state A B step_size (- step_size)))))
  /\ Forall (Rle 0) (out_A (run_poismf_ A B step_size numiter w0))
  /\ Forall (Rle 0) (out_B (run_poismf_ A B step_size numiter w0)).
Proof.
  intros Hcg Htnc HA HB.
  assert (Hall : forall n,
     Forall (Rle 0)
       (st_A (halves_ n (mk_state A B step_size (- step_size))))
     /\ Forall (Rle 0)
          (st_B (halves_ n (mk_state A B step_size (- step_size))))).
  { intros n. now apply halves_nonneg. }
  split; [exact Hall|].
  destruct requested_cases as [Hok | Hfail].
  - destruct (run_poismf_success A B step_size numiter w0 Hok)
      as (ptrs & w1 & Hw1 & _ & _ & EA & EB & _).
    destruct (outer_loop_reaches numiter 0 w1
                (mk_state A B step_size (- step_size)) Hw1)
      as (n & _ & Hn & _).
    rewrite EA, EB, Hn. apply Hall.
  - destruct (run_poismf_failure A B step_size numiter w0 Hfail)
      as (_ & EA & EB & _). rewrite EA, EB. split; assumption.
Qed.

(** *** Weighted correction *)

Lemma aggregate_length M nrow : length (aggregate_ M nrow) = k.
Proof.
  unfold aggregate. destruct (Rlt_dec 0 l1_reg);
    rewrite ?add_const_length; apply sum_by_cols_length.
Qed.

(** The aggregate vector is the column sum of the fixed matrix, plus the L1
    constant when [l1_reg > 0.]. *)
Lemma aggregate_spec M nrow c :
  (nrow * k <= length M)%nat -> (c < k)%nat ->
  nth c (aggregate_ M nrow) 0
  = colsum M nrow k c + (if Rlt_dec 0 l1_reg then l1_reg else 0).
Proof.
  intros HM Hc. unfold aggregate. destruct (Rlt_dec 0 l1_reg).
  - rewrite nth_add_const by (rewrite ?sum_by_cols_length; lia).
    now rewrite sum_by_cols_spec.
  - rewrite sum_by_cols_spec by assumption. lra.
Qed.

Lemma allocate_unweighted cs ba w :
  w_mult = 1 -> p_Bsum_w (snd (fst (allocate_ cs ba w))) = None.
Proof.
  intros Hw. unfold allocate, malloc.
  destruct (Req_dec_T w_mult 1) as [_|Hn]; [|contradiction].
  destruct method;
    destruct (malloc_ok Buffer_int), (malloc_ok Zeros_tncg),
      (malloc_ok Inf_tncg); reflexivity.
Qed.

Lemma row_data_Bsum F X ptr ind Bsum l2 bw i :
  fd_Bsum (row_data F X ptr ind k Bsum l2 w_mult bw i)
  = if Req_dec_T w_mult 1 then Bsum else skipn (i * k) bw.
Proof. unfold row_data. destruct (Req_dec_T w_mult 1); reflexivity. Qed.

Lemma pg_iteration_unweighted M F X ptr ind dim cd cs bw step upd :
  w_mult = 1 ->
  pg_iteration M F X ptr ind dim k cd cs bw step w_mult upd
  = pg_iteration M F X ptr ind dim k cd cs [] step w_mult upd.
Proof.
  intros Hw. unfold pg_iteration.
  destruct (Req_dec_T w_mult 1) as [_|Hn]; [reflexivity | contradiction].
Qed.

(** C4.  For a weight multiplier other than 1 the driver fills row [i] of
    the correction matrix with
    [baseline + (w_mult - 1) * sum of F[j] over the observed columns j of
    entity i], where [F] is the fixed matrix and [baseline] its aggregate
    vector: the column sum, plus the L1 constant when [l1_reg > 0.].  For
    weight 1 the correction matrix is not allocated, and the row solvers
    work from the baseline alone. *)
Theorem weighted_correction_identity
    (F : list R) (nF : nat) (ind ptr : list nat) (dim i : nat) :
  (i < dim)%nat -> (nF * k <= length F)%nat ->
  cols_in_range F k (nz_cols ptr ind i) ->
  let baseline := aggregate_ F nF in
  (forall c, (c < k)%nat ->
     nth c baseline 0
     = colsum F nF k c + (if Rlt_dec 0 l1_reg then l1_reg else 0))
  /\ (w_mult <> 1 ->
      row (adjustment_Bsum F baseline ind ptr dim k w_mult) k i
      = correction_formula F baseline ind ptr k w_mult i
      /\ forall X l2 bw,
           fd_Bsum (row_data F X ptr ind k baseline l2 w_mult bw i)
           = skipn (i * k) bw)
  /\ (w_mult = 1 ->
      (forall cs ba w, p_Bsum_w (snd (fst (allocate_ cs ba w))) = None)
      /\ (forall X l2 bw,
            fd_Bsum (row_data F X ptr ind k baseline l2 w_mult bw i) = baseline)
      /\ forall M X cd bw step upd,
           pg_iteration M F X ptr ind dim k cd baseline bw step w_mult upd
           = pg_iteration M F X ptr ind dim k cd baseline [] step w_mult upd).
Proof.
  intros Hi HF Hcols baseline. split; [|split].
  - intros c Hc. now apply aggregate_spec.
  - intros Hw. split.
    + apply adjustment_Bsum_row; auto.
      unfold baseline. rewrite aggregate_length. lia.
    + intros X l2 bw. rewrite row_data_Bsum.
      destruct (Req_dec_T w_mult 1); [contradiction | reflexivity].
  - intros Hw. split; [|split].
    + intros cs ba w. now apply allocate_unweighted.
    + intros X l2 bw. rewrite row_data_Bsum.
      destruct (Req_dec_T w_mult 1); [reflexivity | contradiction].
    + intros M X cd bw step upd. now apply pg_iteration_unweighted.
Qed.

(** *** Projected-gradient half-iterations *)

(** Handed the divisor [1 / (1 + 2 * l2 * step)] and the vector
    [-step * S], [pg_iteration] with weight 1 performs on row [i] the
    [maxupd] updates of the written specification. *)
Lemma pg_iteration_formula M F X ptr ind dim S s bw i :
  (dim * k <= length M)%nat -> (i < dim)%nat -> length S = k ->
  cols_in_range F k (nz_cols ptr ind i) ->
  row (pg_iteration M F X ptr ind dim k (1 / (1 + 2 * l2_reg * s))
         (cblas_dscal k (- s) S) bw s 1 maxupd) k i
  = for_loop maxupd
      (fun _ => pg_formula F k (row_nz X ptr ind i) S l2_reg s) (row M k i).
Proof.
  intros HM Hi HS Hcols. rewrite pg_iteration_row by assumption.
  destruct (Req_dec_T 1 1) as [_|Hn]; [|contradiction].
  replace (s * 1) with s by ring.
  apply (for_loop_ext_inv (fun a => length a = k)).
  - apply row_length. nia.
  - intros p a _ Ha. rewrite pg_update_formula by assumption.
    split; [reflexivity|].
    rewrite <- (pg_update_formula F X ptr ind k i l2_reg s S a) by assumption.
    now rewrite pg_update_length.
Qed.

Lemma half_B_pg_unweighted_call st :
  method = pg -> w_mult = 1 -> st_neg_step_sz st = - st_step_size st ->
  st_B (half_B_ (cnst_div_of_ st) st)
  = pg_iteration (st_B st) (st_A st) Xc Xc_indptr Xc_indices dimB k
      (1 / (1 + 2 * l2_reg * st_step_size st))
      (cblas_dscal k (- st_step_size st) (aggregate_ (st_A st) dimA)) []
      (st_step_size st) 1 maxupd.
Proof.
  intros Hm Hw Hneg. unfold half_B. rewrite Hm. cbn [st_B].
  destruct (Req_dec_T w_mult 1) as [_|Hn]; [|contradiction].
  rewrite Hneg, Hw. reflexivity.
Qed.

(** In the [A] half the aggregate vector is scaled by [neg_step_sz] twice
    (lines 439 and 442) before [pg_iteration] adds it. *)
Lemma half_A_pg_unweighted_call st :
  method = pg -> w_mult = 1 -> st_neg_step_sz st = - st_step_size st ->
  st_A (half_A_ (cnst_div_of_ st) st)
  = pg_iteration (st_A st) (st_B st) Xr Xr_indptr Xr_indices dimA k
      (1 / (1 + 2 * l2_reg * st_step_size st))
      (cblas_dscal k (- st_step_size st)
         (cblas_dscal k (- st_step_size st) (aggregate_ (st_B st) dimB))) []
      (st_step_size st) 1 maxupd.
Proof.
  intros Hm Hw Hneg. unfold half_A. rewrite Hm. cbn [st_A].
  destruct (Req_dec_T w_mult 1) as [_|Hn]; [|contradiction].
  rewrite Hneg, Hw. reflexivity.
Qed.

(** X19.  With the projected-gradient method and weight 1, the
    half-iteration that updates [B] performs on every row [maxupd] updates
    [b <- nonneg((b + step * gradAscent(b) - step * S) / (1 + 2*l2*step))],
    where [S] is the aggregate vector of [A] and [gradAscent] runs over the
    nonzeros of the row in the column view: there the aggregate is scaled
    by [neg_step_sz] once.  [pg_iteration] performs this update on the rows
    of any matrix when it is handed [- step * S]. *)
Theorem pg_update_formula_B_half (st : driver_state) (i : nat) :
  method = pg -> w_mult = 1 -> st_neg_step_sz st = - st_step_size st ->
  (i < dimB)%nat -> (dimB * k <= length (st_B st))%nat ->
  cols_in_range (st_A st) k (nz_cols Xc_indptr Xc_indices i) ->
  row (st_B (half_B_ (cnst_div_of_ st) st)) k i
  = for_loop maxupd
      (fun _ => pg_formula (st_A st) k (row_nz Xc Xc_indptr Xc_indices i)
                  (aggregate_ (st_A st) dimA) l2_reg (st_step_size st))
      (row (st_B st) k i)
  /\ (forall M F X ptr ind dim S s bw j,
        (dim * k <= length M)%nat -> (j < dim)%nat -> length S = k ->
        cols_in_range F k (nz_cols ptr ind j) ->
        row (pg_iteration M F X ptr ind dim k (1 / (1 + 2 * l2_reg * s))
               (cblas_dscal k (- s) S) bw s 1 maxupd) k j
        = for_loop maxupd
            (fun _ => pg_formula F k (row_nz X ptr ind j) S l2_reg s)
            (row M k j)).
Proof.
  intros Hm Hw Hneg Hi HB Hcols. split.
  - rewrite half_B_pg_unweighted_call by assumption.
    apply pg_iteration_formula; auto. apply aggregate_length.
  - intros. now apply pg_iteration_formula.
Qed.

End DriverProperties.

(** * Concrete runs

    The theorems above, applied to the end-to-end scenario, with the
    stand-ins [one_step_cg] and [one_step_tnc] for the minimisers. *)

(** C8 on a call interrupted before its first test of the flag. *)
Lemma cancellation_witness :
  (forall b, requested 1 pg b = true -> always_ok b = true)
  /\ interrupted_at_once 0 = true
  /\ out_A (run_poismf one_step_cg one_step_tnc always_ok interrupted_at_once
              sc_X sc_indptr sc_indices sc_X sc_indptr sc_indices 2 2 1
              0 0 1 pg false 1 sc_A sc_B sc_step 1 idle) = sc_A.
Proof.
  assert (H : forall b, requested 1 pg b = true -> always_ok b = true)
    by (intros; reflexivity).
  split; [exact H|]. split; [reflexivity|].
  apply (cancellation_at_half_iteration_boundary one_step_cg one_step_tnc
           always_ok interrupted_at_once sc_X sc_indptr sc_indices
           sc_X sc_indptr sc_indices 2 2 1 0 0 1 pg false 1
           sc_A sc_B sc_step 1 idle); [exact H | reflexivity].
Defined.

(** C9 on a call that obtains no buffer and on one that obtains them
    all. *)
Lemma allocation_failure_witness :
  ((exists b, requested 1 pg b = true /\ never_ok b = false)
   /\ ret_code (run_poismf one_step_cg one_step_tnc never_ok never_interrupted
                  sc_X sc_indptr sc_indices sc_X sc_indptr sc_indices 2 2 1
                  0 0 1 pg false 1 sc_A sc_B sc_step 1 idle) = 1%Z)
  /\ ((forall b, requested 1 pg b = true -> always_ok b = true)
      /\ ret_code (run_poismf one_step_cg one_step_tnc always_ok
                     never_interrupted sc_X sc_indptr sc_indices
                     sc_X sc_indptr sc_indices 2 2 1
                     0 0 1 pg false 1 sc_A sc_B sc_step 1 idle) = 0%Z).
Proof.
  assert (Hf : exists b, requested 1 pg b = true /\ never_ok b = false)
    by (exists Cnst_sum; split; reflexivity).
  assert (Hok : forall b, requested 1 pg b = true -> always_ok b = true)
    by (intros; reflexivity).
  split; (split; [assumption|]).
  - apply (allocation_failure_status one_step_cg one_step_tnc never_ok
             never_interrupted sc_X sc_indptr sc_indices
             sc_X sc_indptr sc_indices 2 2 1 0 0 1 pg false 1
             sc_A sc_B sc_step 1 idle). exact Hf.
  - apply (allocation_failure_status one_step_cg one_step_tnc always_ok
             never_interrupted sc_X sc_indptr sc_indices
             sc_X sc_indptr sc_indices 2 2 1 0 0 1 pg false 1
             sc_A sc_B sc_step 1 idle). exact Hok.
Defined.

(** C10 on the scenario with [numiter = 0]. *)
Lemma zero_iterations_witness :
  (forall b, requested 1 pg b = true -> always_ok b = true)
  /\ out_A (run_poismf one_step_cg one_step_tnc always_ok never_interrupted
              sc_X sc_indptr sc_indices sc_X sc_indptr sc_indices 2 2 1
              0 0 1 pg false 1 sc_A sc_B sc_step 0 idle) = sc_A.
Proof.
  assert (H : forall b, requested 1 pg b = true -> always_ok b = true)
    by (intros; reflexivity).
  split; [exact H|].
  apply (zero_iterations_leave_matrices one_step_cg one_step_tnc always_ok
           never_interrupted sc_X sc_indptr sc_indices
           sc_X sc_indptr sc_indices 2 2 1 0 0 1 pg false 1
           sc_A sc_B sc_step idle H).
Defined.

(** C7 at outer iteration 3 of the scenario. *)
Lemma pg_step_size_decay_witness :
  pg = pg
  /\ st_step_size
       (halves one_step_cg one_step_tnc sc_X sc_indptr sc_indices
               sc_X sc_indptr sc_indices 2 2 1 0 0 1 pg false 1 (2 * 3)
               (mk_state sc_A sc_B sc_step (- sc_step)))
     = sc_step * (1 / 2) ^ 3.
Proof.
  split; [reflexivity|].
  apply (pg_step_size_decay one_step_cg one_step_tnc never_interrupted
           sc_X sc_indptr sc_indices sc_X sc_indptr sc_indices 2 2 1 0 0 1
           pg false 1 sc_A sc_B sc_step 3 eq_refl).
Defined.

(** The stand-ins honour the contracts of the minimisers. *)
Lemma one_step_cg_keeps_nonneg : cg_keeps_nonneg one_step_cg.
Proof.
  intros x n f g data tol maxnfeval maxiter decr lconst max_ls limit _.
  unfold one_step_cg. apply Forall_forall. intros y Hy.
  apply in_map_iff in Hy. destruct Hy as (z & <- & _).
  unfold nonneg. destruct (Rlt_dec 0 z); lra.
Defined.

Lemma nth_map_seq (F : nat -> R) n i :
  (i < n)%nat -> nth i (map F (seq 0 n)) 0 = F i.
Proof.
  intros Hi. rewrite (nth_indep (map F (seq 0 n)) 0 (F 0%nat))
    by now rewrite length_map, length_seq.
  now rewrite map_nth, seq_nth.
Qed.

Lemma one_step_tnc_respects_low : tnc_respects_low one_step_tnc.
Proof.
  intros n x f data low up maxCGit maxnfeval eta stepmx accuracy fmin ftol
         xtol pgtol rescale Hlow.
  unfold one_step_tnc. split.
  - now rewrite length_map, length_seq.
  - intros i Hi. rewrite nth_map_seq by exact Hi. apply Rmax_l.
Defined.

Lemma sc_matrix_nonneg : Forall (Rle 0) [1; 1].
Proof. repeat constructor; lra. Defined.

(** C5 on one outer iteration of the scenario. *)
Lemma nonnegativity_invariant_witness :
  (cg_keeps_nonneg one_step_cg /\ tnc_respects_low one_step_tnc
   /\ Forall (Rle 0) sc_A /\ Forall (Rle 0) sc_B)
  /\ Forall (Rle 0)
       (out_A (run_poismf one_step_cg one_step_tnc always_ok never_interrupted
                 sc_X sc_indptr sc_indices sc_X sc_indptr sc_indices 2 2 1
                 0 0 1 pg false 1 sc_A sc_B sc_step 1 idle)).
Proof.
  split.
  - exact (conj one_step_cg_keeps_nonneg
             (conj one_step_tnc_respects_low
                (conj sc_matrix_nonneg sc_matrix_nonneg))).
  - apply (nonnegativity_invariant one_step_cg one_step_tnc always_ok
             never_interrupted sc_X sc_indptr sc_indices
             sc_X sc_indptr sc_indices 2 2 1 0 0 1 pg false 1
             sc_A sc_B sc_step 1 idle one_step_cg_keeps_nonneg
             one_step_tnc_respects_low sc_matrix_nonneg sc_matrix_nonneg).
Defined.

Lemma sc_cols_in_range : cols_in_range sc_B 1 (nz_cols sc_indptr sc_indices 0).
Proof. repeat constructor. Defined.

(** C4 on row 0 of the scenario with weight 2. *)
Lemma weighted_correction_witness :
  ((0 < 2)%nat /\ (2 * 1 <= length sc_B)%nat
   /\ cols_in_range sc_B 1 (nz_cols sc_indptr sc_indices 0))
  /\ row (adjustment_Bsum sc_B (aggregate 1 0 sc_B 2) sc_indices sc_indptr
            2 1 2) 1 0
     = correction_formula sc_B (aggregate 1 0 sc_B 2) sc_indices sc_indptr
         1 2 0.
Proof.
  assert (H1 : (0 < 2)%nat) by lia.
  assert (H2 : (2 * 1 <= length sc_B)%nat) by (simpl; lia).
  split; [repeat split; [exact H1 | exact H2 | exact sc_cols_in_range]|].
  destruct (weighted_correction_identity always_ok 1 0 2 pg sc_B 2 sc_indices
              sc_indptr 2 0 H1 H2 sc_cols_in_range) as (_ & H & _).
  apply H. lra.
Defined.

(** ** Role symmetry *)

(** The truncated-Newton [B] half is the [A] half on the exchanged roles
    and the column view. *)
Lemma role_symmetry_tncg m t Xr Xc Xc_indptr Xc_indices dimA dimB k l2 l1 w
    limit maxupd cd st :
  st_B (half_B m t Xr Xc Xc_indptr Xc_indices dimA dimB k l2 l1 w tncg limit
               maxupd cd st)
  = st_A (half_A m t Xc Xc_indptr Xc_indices dimB dimA k l2 l1 w tncg limit
                 maxupd cd (swap_roles st)).
Proof. reflexivity. Qed.

(** The conjugate-gradient [B] half is the [A] half on the exchanged roles
    with the offsets and indices of the column view but the values of the
    row view. *)
Lemma role_symmetry_cg_row_values m t Xr Xc Xc_indptr Xc_indices dimA dimB k
    l2 l1 w limit maxupd cd st :
  st_B (half_B m t Xr Xc Xc_indptr Xc_indices dimA dimB k l2 l1 w cg limit
               maxupd cd st)
  = st_A (half_A m t Xr Xc_indptr Xc_indices dimB dimA k l2 l1 w cg limit
                 maxupd cd (swap_roles st)).
Proof. reflexivity. Qed.

(** C2.  For [X = [[0,1],[2,0]]], [A = B = [[1],[1]]], weight 1 and the
    conjugate-gradient method, the [B] half of [run_poismf] pairs column 0
    with the value 1 (the first value of the row view) where the column
    view stores 2.  With a minimiser that takes one projected gradient step
    it returns [B = [0; 1]]; the mirrored call, the [A] half on the
    exchanged roles and the column view, returns [[1; 0]]. *)
Theorem cg_B_half_reads_row_view_values :
  nz_vals tr_Xc tr_Xc_indptr 0 = [2]
  /\ firstn 1 (fd_Xr (row_data sc_A tr_Xr tr_Xc_indptr tr_Xc_indices 1 [2] 0 1
                        [] 0)) = [1]
  /\ st_B (half_B one_step_cg one_step_tnc tr_Xr tr_Xc tr_Xc_indptr
             tr_Xc_indices 2 2 1 0 0 1 cg false 1 1 sc_state) = [0; 1]
  /\ st_A (half_A one_step_cg one_step_tnc tr_Xc tr_Xc_indptr tr_Xc_indices
             2 2 1 0 0 1 cg false 1 1 (swap_roles sc_state)) = [1; 0].
Proof.
  split; [reflexivity|]. split.
  - unfold row_data. destruct (Req_dec_T 1 1); reflexivity.
  - split.
    + unfold half_B, cg_iteration, row_data, aggregate, sum_by_cols, for_loop,
        one_step_cg, grad_fun, in_place.
      simpl. destruct (Req_dec_T 1 1) as [_|Hn]; [|contradiction].
      destruct (Rlt_dec 0 0); [lra|]. simpl.
      unfold calc_grad_single, for_loop, nonneg. simpl.
      repeat match goal with
             | |- context [Rlt_dec 0 ?x] =>
                 destruct (Rlt_dec 0 x); try (exfalso; lra)
             end;
        repeat f_equal; lra.
    + unfold half_A, swap_roles, cg_iteration, row_data, aggregate,
        sum_by_cols, for_loop, one_step_cg, grad_fun, in_place.
      simpl. destruct (Req_dec_T 1 1) as [_|Hn]; [|contradiction].
      destruct (Rlt_dec 0 0); [lra|]. simpl.
      unfold calc_grad_single, for_loop, nonneg. simpl.
      repeat match goal with
             | |- context [Rlt_dec 0 ?x] =>
                 destruct (Rlt_dec 0 x); try (exfalso; lra)
             end;
        repeat f_equal; lra.
Qed.

(** With a weight other than 1 the projected-gradient [B] half is the
    mirror image of the [A] half as well: the second scaling of [cnst_sum]
    in the [A] half touches a vector that [pg_iteration] does not read. *)
Lemma role_symmetry_pg_weighted m t Xr Xc Xc_indptr Xc_indices dimA dimB k
    l2 l1 w limit maxupd cd st :
  w <> 1 ->
  st_B (half_B m t Xr Xc Xc_indptr Xc_indices dimA dimB k l2 l1 w pg limit
               maxupd cd st)
  = st_A (half_A m t Xc Xc_indptr Xc_indices dimB dimA k l2 l1 w pg limit
                 maxupd cd (swap_roles st)).
Proof.
  intros Hw. unfold half_B, half_A, swap_roles, pg_iteration. cbn.
  destruct (Req_dec_T w 1) as [E|_]; [contradiction | reflexivity].
Qed.

(** ** The end-to-end scenario *)

(** C1.  The end-to-end scenario: the aggregate of [B] is [S = [2]], and
    the update of the specification,
    [a <- nonneg((a + step * gradAscent(a) - step * S) / (1 + 2*l2*step))],
    takes [a0 = 1] to [0.9].  [run_poismf] returns [a0 = 1.12] instead, both
    after the whole outer iteration and when it is stopped right after the
    [A] half: in that half the aggregate is scaled by [neg_step_sz] twice
    (lines 439 and 442), so it reaches [pg_iteration] as [+ step^2 * S] and
    the row becomes [1 + 0.1 * 1 + 0.01 * 2].  The [B] half, which scales
    the aggregate once, performs the update of the specification on the
    same data. *)
Theorem pg_A_half_scales_aggregate_twice :
  let r := run_poismf one_step_cg one_step_tnc always_ok never_interrupted
             sc_X sc_indptr sc_indices sc_X sc_indptr sc_indices 2 2 1
             0 0 1 pg false 1 sc_A sc_B sc_step 1 idle in
  let r' := run_poismf one_step_cg one_step_tnc always_ok interrupted_after_A
              sc_X sc_indptr sc_indices sc_X sc_indptr sc_indices 2 2 1
              0 0 1 pg false 1 sc_A sc_B sc_step 1 idle in
  let claimed := pg_formula sc_B 1 (row_nz sc_X sc_indptr sc_indices 0)
                   (aggregate 1 0 sc_B 2) 0 sc_step (row sc_A 1 0) in
  aggregate 1 0 sc_B 2 = [2]
  /\ claimed = [9 / 10]
  /\ row (out_A r) 1 0 = [112 / 100]
  /\ row (out_A r') 1 0 = [112 / 100] /\ out_B r' = sc_B
  /\ row (out_A r) 1 0 <> claimed
  /\ row (out_A r) 1 0 <> [1]
  /\ row (st_B (half_B one_step_cg one_step_tnc sc_X sc_X sc_indptr sc_indices
                  2 2 1 0 0 1 pg false 1 (cnst_div_of 0 sc_state) sc_state))
         1 0
     = pg_formula sc_A 1 (row_nz sc_X sc_indptr sc_indices 0)
         (aggregate 1 0 sc_A 2) 0 sc_step (row sc_B 1 0).
Proof.
  assert (HS : aggregate 1 0 sc_B 2 = [2]).
  { unfold aggregate, sum_by_cols, for_loop, sc_B. simpl.
    destruct (Rlt_dec 0 0); [lra|]. f_equal. lra. }
  assert (E : row (st_A (half_A one_step_cg one_step_tnc sc_X sc_indptr
                           sc_indices 2 2 1 0 0 1 pg false 1
                           (cnst_div_of 0 sc_state) sc_state)) 1 0
              = [112 / 100]).
  { unfold half_A, pg_iteration, aggregate, sum_by_cols, for_loop, in_place,
      cnst_div_of, sc_state, sc_A, sc_B, sc_X, sc_indptr, sc_indices, sc_step.
    simpl. destruct (Req_dec_T 1 1) as [_|Hn]; [|contradiction].
    destruct (Rlt_dec 0 0); [lra|]. simpl.
    unfold pg_update, calc_grad_pgd, for_loop, row, nonneg. simpl.
    repeat match goal with
           | |- context [Rlt_dec 0 ?x] =>
               destruct (Rlt_dec 0 x) as [?|Hneg];
               [| exfalso; apply Hneg; lra]
           end.
    f_equal. lra. }
  assert (F : pg_formula sc_B 1 (row_nz sc_X sc_indptr sc_indices 0)
                (aggregate 1 0 sc_B 2) 0 sc_step (row sc_A 1 0) = [9 / 10]).
  { unfold pg_formula, gradAscent, row_nz, nz_vals, nz_cols, vsum, vadd, vsub,
      vscale, dot, row, aggregate, sum_by_cols, for_loop, sc_A, sc_B, sc_X,
      sc_indptr, sc_indices, sc_step. simpl.
    destruct (Rlt_dec 0 0); [lra|]. simpl.
    f_equal. unfold nonneg.
    destruct (Rlt_dec 0 _) as [_|Hn]; [lra | exfalso; apply Hn; lra]. }
  assert (G : row (st_B (half_B one_step_cg one_step_tnc sc_X sc_X sc_indptr
                           sc_indices 2 2 1 0 0 1 pg false 1
                           (cnst_div_of 0 sc_state) sc_state)) 1 0
              = [9 / 10]).
  { unfold half_B, pg_iteration, aggregate, sum_by_cols, for_loop, in_place,
      cnst_div_of, sc_state, sc_A, sc_B, sc_X, sc_indptr, sc_indices, sc_step.
    simpl. destruct (Req_dec_T 1 1) as [_|Hn]; [|contradiction].
    destruct (Rlt_dec 0 0); [lra|]. simpl.
    unfold pg_update, calc_grad_pgd, for_loop, row, nonneg. simpl.
    repeat match goal with
           | |- context [Rlt_dec 0 ?x] =>
               destruct (Rlt_dec 0 x) as [?|Hneg];
               [| exfalso; apply Hneg; lra]
           end.
    f_equal. lra. }
  assert (Hok : forall b, requested 1 pg b = true -> always_ok b = true)
    by (intros; reflexivity).
  assert (Hfull : row (out_A (run_poismf one_step_cg one_step_tnc always_ok
                     never_interrupted sc_X sc_indptr sc_indices sc_X
                     sc_indptr sc_indices 2 2 1 0 0 1 pg false 1 sc_A sc_B
                     sc_step 1 idle)) 1 0 = [112 / 100]).
  { destruct (run_poismf_uninterrupted one_step_cg one_step_tnc always_ok
                never_interrupted sc_X sc_indptr sc_indices
                sc_X sc_indptr sc_indices 2 2 1 0 0 1 pg false 1
                sc_A sc_B sc_step 1 idle Hok
                (fun q _ => eq_refl)) as (_ & HA & _).
    rewrite HA.
    change (2 * 1)%nat with (S (S 0)).
    rewrite (halves_SS one_step_cg one_step_tnc sc_X sc_indptr sc_indices
               sc_X sc_indptr sc_indices 2 2 1 0 0 1 pg false 1 0
               (mk_state sc_A sc_B sc_step (- sc_step))).
    change (halves one_step_cg one_step_tnc sc_X sc_indptr sc_indices
              sc_X sc_indptr sc_indices 2 2 1 0 0 1 pg false 1 0
              (half_B one_step_cg one_step_tnc sc_X sc_X sc_indptr sc_indices
                 2 2 1 0 0 1 pg false 1 (cnst_div_of 0 sc_state)
                 (half_A one_step_cg one_step_tnc sc_X sc_indptr sc_indices
                    2 2 1 0 0 1 pg false 1 (cnst_div_of 0 sc_state)
                    sc_state)))
      with (half_B one_step_cg one_step_tnc sc_X sc_X sc_indptr sc_indices
              2 2 1 0 0 1 pg false 1 (cnst_div_of 0 sc_state)
              (half_A one_step_cg one_step_tnc sc_X sc_indptr sc_indices
                 2 2 1 0 0 1 pg false 1 (cnst_div_of 0 sc_state) sc_state)).
    change (st_A (half_B one_step_cg one_step_tnc sc_X sc_X sc_indptr
                    sc_indices 2 2 1 0 0 1 pg false 1 (cnst_div_of 0 sc_state)
                    (half_A one_step_cg one_step_tnc sc_X sc_indptr
                       sc_indices 2 2 1 0 0 1 pg false 1
                       (cnst_div_of 0 sc_state) sc_state)))
      with (st_A (half_A one_step_cg one_step_tnc sc_X sc_indptr sc_indices
                    2 2 1 0 0 1 pg false 1 (cnst_div_of 0 sc_state)
                    sc_state)).
    exact E. }
  destruct (run_poismf_success one_step_cg one_step_tnc always_ok
              interrupted_after_A sc_X sc_indptr sc_indices
              sc_X sc_indptr sc_indices 2 2 1 0 0 1 pg false 1
              sc_A sc_B sc_step 1 idle Hok)
    as (ptrs & w1 & Hw1 & _ & _ & HA & HB & _).
  cbv zeta. rewrite Hfull, HA, HB.
  rewrite (outer_loop_interrupted one_step_cg one_step_tnc interrupted_after_A
             sc_X sc_indptr sc_indices sc_X sc_indptr sc_indices 2 2 1
             0 0 1 pg false 1 1 1 0 w1
             (mk_state sc_A sc_B sc_step (- sc_step)) Hw1);
    [| lia | intros q Hq; assert (q = 0%nat) as -> by lia; reflexivity
     | reflexivity].
  change (snd (set_interrup_global_variable w1,
               halves one_step_cg one_step_tnc sc_X sc_indptr sc_indices
                      sc_X sc_indptr sc_indices 2 2 1 0 0 1 pg false 1 1
                      (mk_state sc_A sc_B sc_step (- sc_step))))
    with (half_A one_step_cg one_step_tnc sc_X sc_indptr sc_indices 2 2 1
                 0 0 1 pg false 1 (cnst_div_of 0 sc_state) sc_state).
  rewrite E, F, G.
  split; [exact HS|]. split; [reflexivity|]. split; [reflexivity|].
  split; [reflexivity|]. split; [reflexivity|]. split; [|split].
  - intros H. injection H. lra.
  - intros H. injection H. lra.
  - symmetry.
    unfold pg_formula, gradAscent, row_nz, nz_vals, nz_cols, vsum, vadd, vsub,
      vscale, dot, row, aggregate, sum_by_cols, for_loop, sc_A, sc_B, sc_X,
      sc_indptr, sc_indices, sc_step. simpl.
    destruct (Rlt_dec 0 0); [lra|]. simpl.
    f_equal. unfold nonneg.
    destruct (Rlt_dec 0 _) as [_|Hn]; [lra | exfalso; apply Hn; lra].
Qed.

Lemma sc_A_cols_in_range :
  cols_in_range sc_A 1 (nz_cols sc_indptr sc_indices 0).
Proof. repeat constructor. Defined.

(** X19 on row 0 of [B] in the scenario. *)
Lemma pg_update_formula_witness :
  (pg = pg /\ 1 = 1 /\ st_neg_step_sz sc_state = - st_step_size sc_state
   /\ (0 < 2)%nat /\ (2 * 1 <= length (st_B sc_state))%nat
   /\ cols_in_range (st_A sc_state) 1 (nz_cols sc_indptr sc_indices 0))
  /\ row (st_B (half_B one_step_cg one_step_tnc sc_X sc_X sc_indptr sc_indices
                  2 2 1 0 0 1 pg false 1 (cnst_div_of 0 sc_state) sc_state))
         1 0
     = for_loop 1
         (fun _ => pg_formula (st_A sc_state) 1
                     (row_nz sc_X sc_indptr sc_indices 0)
                     (aggregate 1 0 (st_A sc_state) 2) 0
                     (st_step_size sc_state))
         (row (st_B sc_state) 1 0).
Proof.
  assert (H1 : (0 < 2)%nat) by lia.
  assert (H2 : (2 * 1 <= length (st_B sc_state))%nat) by (simpl; lia).
  split.
  - repeat split; try reflexivity; try assumption. exact sc_A_cols_in_range.
  - apply (pg_update_formula_B_half one_step_cg one_step_tnc sc_X sc_X
             sc_indptr sc_indices 2 2 1 0 0 1 pg false 1 sc_state 0
             eq_refl eq_refl eq_refl H1 H2 sc_A_cols_in_range).
Defined.

(** With weight 1 the two projected-gradient halves are not mirror images:
    from the scenario's initial state the [B] half stores 0.9 in every row,
    the [A] half on the exchanged roles stores 1.12. *)
Lemma scenario_pg_halves_differ :
  st_B (half_B one_step_cg one_step_tnc sc_X sc_X sc_indptr sc_indices 2 2 1
               0 0 1 pg false 1 (cnst_div_of 0 sc_state) sc_state)
  = [9 / 10; 9 / 10]
  /\ st_A (half_A one_step_cg one_step_tnc sc_X sc_indptr sc_indices 2 2 1
                  0 0 1 pg false 1 (cnst_div_of 0 sc_state)
                  (swap_roles sc_state))
     = [112 / 100; 112 / 100].
Proof.
  split.
  - unfold half_B, pg_iteration, aggregate, sum_by_cols, for_loop, in_place,
      cnst_div_of, sc_state, sc_A, sc_B, sc_X, sc_indptr, sc_indices, sc_step.
    simpl. destruct (Req_dec_T 1 1) as [_|Hn]; [|contradiction].
    destruct (Rlt_dec 0 0); [lra|]. simpl.
    unfold pg_update, calc_grad_pgd, for_loop, nonneg. simpl.
    repeat match goal with
           | |- context [Rlt_dec 0 ?x] =>
               destruct (Rlt_dec 0 x) as [?|Hneg];
               [| exfalso; apply Hneg; lra]
           end.
    f_equal; [lra | f_equal; lra].
  - unfold half_A, swap_roles, pg_iteration, aggregate, sum_by_cols, for_loop,
      in_place, cnst_div_of, sc_state, sc_A, sc_B, sc_X, sc_indptr,
      sc_indices, sc_step.
    simpl. destruct (Req_dec_T 1 1) as [_|Hn]; [|contradiction].
    destruct (Rlt_dec 0 0); [lra|]. simpl.
    unfold pg_update, calc_grad_pgd, for_loop, nonneg. simpl.
    repeat match goal with
           | |- context [Rlt_dec 0 ?x] =>
               destruct (Rlt_dec 0 x) as [?|Hneg];
               [| exfalso; apply Hneg; lra]
           end.
    f_equal; [lra | f_equal; lra].
Qed.

(** * Further properties of the routines *)

(** ** Scaling and column sums *)

Lemma cblas_dscal_prefix n alpha x :
  cblas_dscal n alpha x = map (Rmult alpha) (firstn n x) ++ skipn n x.
Proof.
  revert x; induction n as [|n IH]; intros [|xi x]; simpl; auto.
  now rewrite IH.
Qed.

Lemma scale_loop_dscal n alpha x : scale_loop n alpha x = cblas_dscal n alpha x.
Proof.
  revert x; induction n as [|n IH]; intros [|xi x]; simpl; auto.
  rewrite IH. f_equal. apply Rmult_comm.
Qed.

(** X1.  [dscal_large] multiplies the first [n] cells by [alpha] and leaves
    the others as they are, on either side of the [INT_MAX] test: the plain
    loop of the large case computes what the BLAS call of the small case
    does. *)
Theorem dscal_large_scales_prefix (n : nat) (alpha : R) (x : list R) :
  dscal_large n alpha x = map (Rmult alpha) (firstn n x) ++ skipn n x
  /\ dscal_large n alpha x = cblas_dscal n alpha x
  /\ length (dscal_large n alpha x) = length x.
Proof.
  assert (E : dscal_large n alpha x = cblas_dscal n alpha x).
  { unfold dscal_large. destruct (N.of_nat n <? INT_MAX)%N;
      [reflexivity | apply scale_loop_dscal]. }
  split; [|split].
  - rewrite E. apply cblas_dscal_prefix.
  - exact E.
  - rewrite E. apply cblas_dscal_length.
Qed.

(** X2.  Column sums add up over stacked matrices: the sums of [n1 + n2]
    rows are the sums of the first [n1] rows plus those of the [n2] rows
    that follow. *)
Theorem sum_by_cols_stacked (M1 M2 : list R) (n1 n2 ncol : nat) :
  length M1 = (n1 * ncol)%nat -> (n2 * ncol <= length M2)%nat ->
  sum_by_cols (M1 ++ M2) (n1 + n2) ncol
  = vadd (sum_by_cols M1 n1 ncol) (sum_by_cols M2 n2 ncol).
Proof.
  intros H1 H2. apply (vec_ext ncol).
  - apply sum_by_cols_length.
  - rewrite vadd_length; rewrite !sum_by_cols_length; reflexivity.
  - intros c Hc.
    rewrite nth_vadd by (rewrite !sum_by_cols_length; reflexivity).
    rewrite !sum_by_cols_spec; try lia.
    2:{ rewrite length_app. nia. }
    unfold colsum. rewrite seq_app, map_app, Rsum_app. f_equal.
    + apply Rsum_ext. intros r Hr. apply in_seq in Hr.
      apply app_nth1. nia.
    + simpl. rewrite (Rsum_seq_shift _ n1 n2).
      apply Rsum_ext. intros r _.
      rewrite app_nth2 by nia. f_equal. nia.
Qed.

Lemma sum_by_cols_stacked_witness :
  (length [1; 2] = (1 * 2)%nat /\ (1 * 2 <= length [3; 4]%R)%nat)
  /\ sum_by_cols ([1; 2] ++ [3; 4]) (1 + 1) 2
     = vadd (sum_by_cols [1; 2] 1 2) (sum_by_cols [3; 4] 1 2).
Proof.
  assert (H1 : length [1; 2] = (1 * 2)%nat) by reflexivity.
  assert (H2 : (1 * 2 <= length [3; 4]%R)%nat) by (simpl; lia).
  split; [split; assumption|].
  apply (sum_by_cols_stacked [1; 2] [3; 4] 1 1 2 H1 H2).
Defined.

(** ** The correction matrix *)

Lemma fold_left_length_inv (n : nat) (body : nat -> list R -> list R) l :
  (forall ix s, length s = n -> length (body ix s) = n) ->
  forall s, length s = n ->
  length (fold_left (fun s ix => body ix s) l s) = n.
Proof.
  intros Hb. induction l as [|ix l IH]; intros s Hs; simpl; auto.
Qed.

Lemma adjustment_Bsum_length B Bsum Xr_indices Xr_indptr dimA k w_mult :
  length (adjustment_Bsum B Bsum Xr_indices Xr_indptr dimA k w_mult)
  = (dimA * k)%nat.
Proof.
  unfold adjustment_Bsum.
  apply (for_loop_ind (fun _ s => length s = (dimA * k)%nat)).
  - rewrite scale_loop_length.
    apply (for_loop_ind (fun _ s => length s = (dimA * k)%nat)).
    + apply repeat_length.
    + intros r s Hr Hs. unfold for_range.
      apply fold_left_length_inv; [|exact Hs].
      intros ix t Ht. rewrite in_place_length; auto; [nia|].
      intros v Hv. now rewrite cblas_daxpy_length.
  - intros r s Hr Hs. rewrite in_place_length; auto; [nia|].
    intros v Hv. now rewrite cblas_daxpy_length.
Qed.

Lemma vadd_zero_scaled u vs k :
  length u = k -> Forall (fun v => length v = k) vs ->
  vadd u (vscale 0 (vsum k vs)) = u.
Proof.
  intros Hu Hvs. apply (vec_ext k); auto.
  - rewrite vadd_length; rewrite ?vscale_length, ?vsum_length; auto.
  - intros c Hc.
    rewrite nth_vadd, nth_vscale
      by (rewrite ?vscale_length, ?vsum_length; auto).
    lra.
Qed.

(** X3.  With weight 1 [adjustment_Bsum] fills every row of the correction
    matrix with the baseline: the sum over the observed columns is
    multiplied by [w_mult - 1 = 0]. *)
Theorem adjustment_Bsum_unit_weight
    (B Bsum : list R) (Xr_indices Xr_indptr : list nat) (dimA k i : nat) :
  (i < dimA)%nat -> (k <= length Bsum)%nat ->
  cols_in_range B k (nz_cols Xr_indptr Xr_indices i) ->
  row (adjustment_Bsum B Bsum Xr_indices Xr_indptr dimA k 1) k i
  = firstn k Bsum.
Proof.
  intros Hi HS Hcols. rewrite adjustment_Bsum_row by assumption.
  unfold correction_formula. replace (1 - 1) with 0 by lra.
  apply vadd_zero_scaled.
  - rewrite length_firstn. lia.
  - apply Forall_forall. intros v Hv. apply in_map_iff in Hv.
    destruct Hv as (j & <- & Hj). apply row_length.
    unfold cols_in_range in Hcols. rewrite Forall_forall in Hcols. auto.
Qed.

Lemma adjustment_Bsum_unit_weight_witness :
  ((0 < 2)%nat /\ (1 <= length [5]%R)%nat
   /\ cols_in_range sc_B 1 (nz_cols sc_indptr sc_indices 0))
  /\ row (adjustment_Bsum sc_B [5] sc_indices sc_indptr 2 1 1) 1 0
     = firstn 1 [5].
Proof.
  assert (H1 : (0 < 2)%nat) by lia.
  assert (H2 : (1 <= length [5]%R)%nat) by (simpl; lia).
  split; [repeat split; [exact H1 | exact H2 | exact sc_cols_in_range]|].
  apply (adjustment_Bsum_unit_weight sc_B [5] sc_indices sc_indptr 2 1 0
           H1 H2 sc_cols_in_range).
Defined.

(** X4.  [adjustment_Bsum] writes [dimA * k] cells, and an entity whose
    range of nonzeros is empty gets the baseline, whatever the weight. *)
Theorem adjustment_Bsum_empty_row
    (B Bsum : list R) (Xr_indices Xr_indptr : list nat) (dimA k i : nat)
    (w_mult : R) :
  (i < dimA)%nat -> (k <= length Bsum)%nat ->
  (nth (i + 1) Xr_indptr 0 <= nth i Xr_indptr 0)%nat ->
  length (adjustment_Bsum B Bsum Xr_indices Xr_indptr dimA k w_mult)
  = (dimA * k)%nat
  /\ row (adjustment_Bsum B Bsum Xr_indices Xr_indptr dimA k w_mult) k i
     = firstn k Bsum.
Proof.
  intros Hi HS Hempty. split; [apply adjustment_Bsum_length|].
  assert (Hnz : nz_cols Xr_indptr Xr_indices i = []).
  { unfold nz_cols.
    replace (nth (i + 1) Xr_indptr 0 - nth i Xr_indptr 0)%nat with 0%nat
      by lia. reflexivity. }
  rewrite adjustment_Bsum_row; auto.
  - unfold correction_formula. rewrite Hnz. simpl.
    apply (vec_ext k).
    + rewrite vadd_length; rewrite ?vscale_length, ?repeat_length,
        ?length_firstn; lia.
    + rewrite length_firstn. lia.
    + intros c Hc.
      rewrite nth_vadd, nth_vscale, nth_repeat_0
        by (rewrite ?vscale_length, ?repeat_length, ?length_firstn; lia).
      lra.
  - unfold cols_in_range. rewrite Hnz. constructor.
Qed.

Lemma adjustment_Bsum_empty_row_witness :
  ((0 < 1)%nat /\ (1 <= length [5]%R)%nat
   /\ (nth (0 + 1) [0; 0]%nat 0 <= nth 0 [0; 0]%nat 0)%nat)
  /\ row (adjustment_Bsum [1] [5] [] [0; 0]%nat 1 1 3) 1 0 = firstn 1 [5].
Proof.
  assert (H1 : (0 < 1)%nat) by lia.
  assert (H2 : (1 <= length [5]%R)%nat) by (simpl; lia).
  assert (H3 : (nth (0 + 1) [0; 0]%nat 0 <= nth 0 [0; 0]%nat 0)%nat)
    by (simpl; lia).
  split; [repeat split; assumption|].
  apply (adjustment_Bsum_empty_row [1] [5] [] [0; 0]%nat 1 1 0 3 H1 H2 H3).
Defined.

(** ** The parallel row loop *)

Lemma skipn_in_place off k f M n :
  (off + k <= n)%nat -> (off + k <= length M)%nat ->
  (forall r, length r = k -> length (f r) = k) ->
  skipn n (in_place off k f M) = skipn n M.
Proof.
  intros Hn Hb Hf. unfold in_place.
  assert (Hmid : length (f (firstn k (skipn off M))) = k).
  { apply Hf. rewrite length_firstn, length_skipn. lia. }
  rewrite skipn_app, length_firstn, Nat.min_l by lia.
  rewrite (skipn_all2 (firstn off M)) by (rewrite length_firstn; lia).
  simpl. rewrite skipn_app, Hmid.
  rewrite (skipn_all2 (f _)) by lia. simpl.
  rewrite skipn_skipn. f_equal. lia.
Qed.

(** Row tasks run in any order without repetition: the rows listed are
    rewritten by their own task, everything else stays. *)
Lemma row_tasks_spec (dim k : nat) (g : nat -> list R -> list R) order :
  (forall i r, length r = k -> length (g i r) = k) ->
  NoDup order -> (forall i, In i order -> (i < dim)%nat) ->
  forall M, (dim * k <= length M)%nat ->
  let R := fold_left (fun M' i => in_place (i * k) k (g i) M') order M in
  length R = length M
  /\ (forall j, In j order -> row R k j = g j (row M k j))
  /\ (forall j, ~ In j order -> row R k j = row M k j)
  /\ skipn (dim * k) R = skipn (dim * k) M.
Proof.
  intros Hg. induction order as [|i order IH]; intros Hnd Hlt M HM; simpl.
  - repeat split; auto. intros j [].
  - inversion Hnd as [|? ? Hni Hnd']; subst.
    assert (Hi : (i < dim)%nat) by (apply Hlt; now left).
    assert (Hb : (i * k + k <= length M)%nat) by nia.
    assert (Hl1 : length (in_place (i * k) k (g i) M) = length M)
      by (apply in_place_length; [exact Hb | apply Hg]).
    destruct (IH Hnd' (fun j Hj => Hlt j (or_intror Hj))
                (in_place (i * k) k (g i) M)) as (Hl & Hin & Hout & Htl);
      [lia|].
    repeat split.
    + now rewrite Hl.
    + intros j [<-|Hj].
      * rewrite Hout by exact Hni.
        apply row_in_place_same; [exact Hb | apply Hg].
      * rewrite Hin by exact Hj. f_equal.
        apply row_in_place_other; [exact Hb | apply Hg |].
        intros ->. contradiction.
    + intros j Hj. rewrite Hout by tauto.
      apply row_in_place_other; [exact Hb | apply Hg |].
      intros ->. apply Hj. now left.
    + rewrite Htl. apply skipn_in_place; [nia | exact Hb | apply Hg].
Qed.

Lemma firstn_plus {T : Type} (a b : nat) (M : list T) :
  firstn (a + b) M = firstn a M ++ firstn b (skipn a M).
Proof.
  revert M; induction a as [|a IH]; intros [|m M]; simpl; auto.
  - now rewrite firstn_nil.
  - now rewrite IH.
Qed.

(** Two arrays with the same first [dim] rows and the same cells after them
    are equal. *)
Lemma rows_ext (dim k : nat) (M1 M2 : list R) :
  (forall j, (j < dim)%nat -> row M1 k j = row M2 k j) ->
  skipn (dim * k) M1 = skipn (dim * k) M2 ->
  M1 = M2.
Proof.
  intros Hrows Htl.
  assert (Hhd : firstn (dim * k) M1 = firstn (dim * k) M2).
  { clear Htl. induction dim as [|d IH]; [reflexivity|].
    replace (S d * k)%nat with (d * k + k)%nat by lia.
    rewrite !firstn_plus, IH by (intros; apply Hrows; lia).
    f_equal. apply (Hrows d). lia. }
  rewrite <- (firstn_skipn (dim * k) M1), <- (firstn_skipn (dim * k) M2).
  now rewrite Hhd, Htl.
Qed.

Lemma pg_row_task_length_ok B Xr Xr_indptr Xr_indices k cd cs bw step w upd :
  forall i r, length r = k ->
    length (for_loop upd (fun _ =>
              pg_update B (skipn (nth i Xr_indptr 0%nat) Xr)
                (skipn (nth i Xr_indptr 0%nat) Xr_indices)
                (nth (i + 1) Xr_indptr 0 - nth i Xr_indptr 0)%nat k cd
                (if Req_dec_T w 1 then cs else skipn (i * k) bw)
                (step * w)) r) = k.
Proof.
  intros i r Hr. apply for_loop_ind; [exact Hr|].
  intros p t _ Ht. now rewrite pg_update_length.
Qed.

(** X5.  [pg_iteration] keeps the size of the array it updates and writes
    only its first [dimA] rows: every cell from index [dimA * k] on is left
    as it was. *)
Theorem pg_iteration_frame
    (A B Xr : list R) (Xr_indptr Xr_indices : list nat) (dimA k : nat)
    (cnst_div : R) (cnst_sum Bsum_user : list R) (step_size w_mult : R)
    (maxupd : nat) :
  (dimA * k <= length A)%nat ->
  length (pg_iteration A B Xr Xr_indptr Xr_indices dimA k cnst_div cnst_sum
            Bsum_user step_size w_mult maxupd) = length A
  /\ skipn (dimA * k)
       (pg_iteration A B Xr Xr_indptr Xr_indices dimA k cnst_div cnst_sum
          Bsum_user step_size w_mult maxupd)
     = skipn (dimA * k) A.
Proof.
  intros HA.
  destruct (row_tasks_spec dimA k
    (fun ia => for_loop maxupd (fun _ =>
       pg_update B (skipn (nth ia Xr_indptr 0%nat) Xr)
         (skipn (nth ia Xr_indptr 0%nat) Xr_indices)
         (nth (ia + 1) Xr_indptr 0 - nth ia Xr_indptr 0)%nat k cnst_div
         (if Req_dec_T w_mult 1 then cnst_sum else skipn (ia * k) Bsum_user)
         (step_size * w_mult))) (seq 0 dimA)
    (pg_row_task_length_ok B Xr Xr_indptr Xr_indices k cnst_div cnst_sum
       Bsum_user step_size w_mult maxupd)
    (seq_NoDup dimA 0)
    (fun i Hi => proj2 (proj1 (in_seq dimA 0 i) Hi)) A HA)
    as (Hl & _ & _ & Htl).
  split; [exact Hl | exact Htl].
Qed.

Lemma pg_iteration_frame_witness :
  (1 * 1 <= length [1; 7]%R)%nat
  /\ skipn (1 * 1)
       (pg_iteration [1; 7] sc_B sc_X sc_indptr sc_indices 1 1 1 [0] [] sc_step
          1 1)
     = skipn (1 * 1) [1; 7].
Proof.
  assert (H : (1 * 1 <= length [1; 7]%R)%nat) by (simpl; lia).
  split; [exact H|].
  apply (pg_iteration_frame [1; 7] sc_B sc_X sc_indptr sc_indices 1 1 1 [0] []
           sc_step 1 1 H).
Defined.

(** X6.  The row loop of [pg_iteration] may be scheduled in any order: the
    tasks of the rows [0 .. dimA-1], run once each in whatever order, leave
    the array that [pg_iteration] returns. *)
Theorem pg_iteration_any_schedule
    (A B Xr : list R) (Xr_indptr Xr_indices : list nat) (dimA k : nat)
    (cnst_div : R) (cnst_sum Bsum_user : list R) (step_size w_mult : R)
    (maxupd : nat) (order : list nat) :
  (dimA * k <= length A)%nat ->
  NoDup order -> (forall i, In i order <-> (i < dimA)%nat) ->
  fold_left
    (fun A' ia => pg_row_task B Xr Xr_indptr Xr_indices k cnst_div cnst_sum
                    Bsum_user step_size w_mult maxupd ia A') order A
  = pg_iteration A B Xr Xr_indptr Xr_indices dimA k cnst_div cnst_sum
      Bsum_user step_size w_mult maxupd.
Proof.
  intros HA Hnd Hall.
  pose (g := fun ia => for_loop maxupd (fun _ =>
       pg_update B (skipn (nth ia Xr_indptr 0%nat) Xr)
         (skipn (nth ia Xr_indptr 0%nat) Xr_indices)
         (nth (ia + 1) Xr_indptr 0 - nth ia Xr_indptr 0)%nat k cnst_div
         (if Req_dec_T w_mult 1 then cnst_sum else skipn (ia * k) Bsum_user)
         (step_size * w_mult))).
  assert (Hg : forall i r, length r = k -> length (g i r) = k)
    by apply pg_row_task_length_ok.
  destruct (row_tasks_spec dimA k g order Hg Hnd
              (fun i Hi => proj1 (Hall i) Hi) A HA)
    as (_ & Hin1 & _ & Htl1).
  destruct (row_tasks_spec dimA k g (seq 0 dimA) Hg (seq_NoDup dimA 0)
              (fun i Hi => proj2 (proj1 (in_seq dimA 0 i) Hi)) A HA)
    as (_ & Hin2 & _ & Htl2).
  apply (rows_ext dimA k).
  - intros j Hj.
    change (row (fold_left (fun M' i => in_place (i * k) k (g i) M') order A)
                k j
            = row (fold_left (fun M' i => in_place (i * k) k (g i) M')
                             (seq 0 dimA) A) k j).
    rewrite Hin1 by (apply Hall; exact Hj).
    rewrite Hin2 by (apply in_seq; lia). reflexivity.
  - change (skipn (dimA * k)
              (fold_left (fun M' i => in_place (i * k) k (g i) M') order A)
            = skipn (dimA * k)
                (fold_left (fun M' i => in_place (i * k) k (g i) M')
                           (seq 0 dimA) A)).
    now rewrite Htl1, Htl2.
Qed.

Lemma pg_iteration_any_schedule_witness :
  ((2 * 1 <= length sc_A)%nat /\ NoDup [1; 0]%nat
   /\ forall i, In i [1; 0]%nat <-> (i < 2)%nat)
  /\ fold_left
       (fun A' ia => pg_row_task sc_B sc_X sc_indptr sc_indices 1 1 [0] []
                       sc_step 1 1 ia A') [1; 0]%nat sc_A
     = pg_iteration sc_A sc_B sc_X sc_indptr sc_indices 2 1 1 [0] [] sc_step
         1 1.
Proof.
  assert (H1 : (2 * 1 <= length sc_A)%nat) by (simpl; lia).
  assert (H2 : NoDup [1; 0]%nat).
  { repeat constructor; simpl; intuition lia. }
  assert (H3 : forall i, In i [1; 0]%nat <-> (i < 2)%nat)
    by (intros i; simpl; lia).
  split; [repeat split; try assumption; apply H3|].
  apply (pg_iteration_any_schedule sc_A sc_B sc_X sc_indptr sc_indices 2 1 1
           [0] [] sc_step 1 1 [1; 0]%nat H1 H2 H3).
Defined.

(** X7.  One inner update is enough for [pg_iteration] to return rows
    without a negative coordinate, whatever the signs in the array it was
    given. *)
Theorem pg_iteration_projects
    (A B Xr : list R) (Xr_indptr Xr_indices : list nat) (dimA k : nat)
    (cnst_div : R) (cnst_sum Bsum_user : list R) (step_size w_mult : R)
    (maxupd i : nat) :
  (dimA * k <= length A)%nat -> (i < dimA)%nat -> (0 < maxupd)%nat ->
  Forall (Rle 0)
    (row (pg_iteration A B Xr Xr_indptr Xr_indices dimA k cnst_div cnst_sum
            Bsum_user step_size w_mult maxupd) k i).
Proof.
  intros HA Hi Hupd. rewrite pg_iteration_row by assumption.
  destruct maxupd as [|m]; [lia|]. rewrite for_loop_S.
  unfold pg_update at 1. apply clip_nonneg_Forall.
  rewrite cblas_dscal_length, !cblas_daxpy_length.
  rewrite (pg_row_task_length_ok B Xr Xr_indptr Xr_indices k cnst_div
             cnst_sum Bsum_user step_size w_mult m i (row A k i)); [lia|].
  apply row_length. nia.
Qed.

Lemma pg_iteration_projects_witness :
  ((1 * 1 <= length [-5]%R)%nat /\ (0 < 1)%nat /\ (0 < 1)%nat)
  /\ Forall (Rle 0)
       (row (pg_iteration [-5] sc_B sc_X sc_indptr sc_indices 1 1 1 [0] []
               sc_step 1 1) 1 0).
Proof.
  assert (H1 : (1 * 1 <= length [-5]%R)%nat) by (simpl; lia).
  assert (H2 : (0 < 1)%nat) by lia.
  split; [repeat split; assumption|].
  apply (pg_iteration_projects [-5] sc_B sc_X sc_indptr sc_indices 1 1 1 [0]
           [] sc_step 1 1 0 H1 H2 H2).
Defined.

(** ** Projected gradient with a weight multiplier *)

Lemma dscal_large_dscal n alpha x :
  dscal_large n alpha x = cblas_dscal n alpha x.
Proof.
  unfold dscal_large. destruct (N.of_nat n <? INT_MAX)%N;
    [reflexivity | apply scale_loop_dscal].
Qed.

Lemma correction_formula_length F Sv ind ptr k w i :
  (k <= length Sv)%nat -> cols_in_range F k (nz_cols ptr ind i) ->
  length (correction_formula F Sv ind ptr k w i) = k.
Proof.
  intros HS Hcols.
  rewrite <- (adjustment_Bsum_row F Sv ind ptr (S i) k w i) by (auto; lia).
  apply row_length. rewrite adjustment_Bsum_length. simpl. lia.
Qed.

(** One inner update with the weighted step [step * w] and a vector that
    holds [- step * C] in its first [k] cells. *)
Lemma pg_update_formula_w F X indptr indices k i l2 step w C Bsum a :
  length a = k -> length C = k -> (k <= length Bsum)%nat ->
  (forall c, (c < k)%nat -> nth c Bsum 0 = - step * nth c C 0) ->
  cols_in_range F k (nz_cols indptr indices i) ->
  pg_update F (skipn (nth i indptr 0%nat) X)
    (skipn (nth i indptr 0%nat) indices)
    (nth (i + 1) indptr 0 - nth i indptr 0)%nat k
    (1 / (1 + 2 * l2 * step)) Bsum (step * w) a
  = pg_formula_w F k (row_nz X indptr indices i) C l2 step w a.
Proof.
  intros Ha HC HB HBc Hcols.
  assert (Hg : length (gradAscent a F k (row_nz X indptr indices i)) = k).
  { apply gradAscent_length. now rewrite map_snd_row_nz. }
  assert (H1 : length (vadd a (vscale (step * w)
                 (gradAscent a F k (row_nz X indptr indices i)))) = k).
  { rewrite vadd_length; rewrite ?vscale_length; congruence. }
  assert (H2 : length (vscale step C) = k) by now rewrite vscale_length.
  apply (vec_ext k).
  - now rewrite pg_update_length.
  - unfold pg_formula_w. rewrite length_map, vsub_length; congruence.
  - intros c Hc.
    rewrite nth_pg_update by assumption.
    rewrite HBc by exact Hc.
    unfold pg_formula_w.
    rewrite nth_map_in by (rewrite vsub_length; congruence).
    rewrite nth_vsub by congruence.
    rewrite nth_vadd by (rewrite vscale_length; congruence).
    rewrite !nth_vscale.
    f_equal. unfold Rdiv. ring.
Qed.

Lemma pg_formula_w_length F k nz S l2 step w a :
  length a = k -> length S = k -> cols_in_range F k (map snd nz) ->
  length (pg_formula_w F k nz S l2 step w a) = k.
Proof.
  intros Ha HS Hcols. unfold pg_formula_w.
  assert (Hg : length (gradAscent a F k nz) = k)
    by now apply gradAscent_length.
  assert (H1 : length (vadd a (vscale (step * w) (gradAscent a F k nz))) = k).
  { rewrite vadd_length; rewrite ?vscale_length; congruence. }
  rewrite length_map, vsub_length; rewrite ?vscale_length; congruence.
Qed.

(** [pg_iteration] with a weight other than 1, on the correction matrix of
    [adjustment_Bsum] scaled by [- step] as the driver passes it. *)
Lemma pg_iteration_weighted_row M F X ptr ind dim k l2 s w S cs upd i :
  w <> 1 -> (dim * k <= length M)%nat -> (i < dim)%nat ->
  (k <= length S)%nat -> cols_in_range F k (nz_cols ptr ind i) ->
  row (pg_iteration M F X ptr ind dim k (1 / (1 + 2 * l2 * s)) cs
         (dscal_large (dim * k) (- s) (adjustment_Bsum F S ind ptr dim k w))
         s w upd) k i
  = for_loop upd
      (fun _ => pg_formula_w F k (row_nz X ptr ind i)
                  (correction_formula F S ind ptr k w i) l2 s w)
      (row M k i).
Proof.
  intros Hw HM Hi HS Hcols. rewrite pg_iteration_row by assumption.
  destruct (Req_dec_T w 1) as [E|_]; [contradiction|].
  assert (HC : length (correction_formula F S ind ptr k w i) = k)
    by now apply correction_formula_length.
  assert (HL : length (adjustment_Bsum F S ind ptr dim k w) = (dim * k)%nat)
    by apply adjustment_Bsum_length.
  assert (Hstep : forall a, length a = k ->
            pg_update F (skipn (nth i ptr 0%nat) X)
              (skipn (nth i ptr 0%nat) ind)
              (nth (i + 1) ptr 0 - nth i ptr 0)%nat k (1 / (1 + 2 * l2 * s))
              (skipn (i * k)
                 (dscal_large (dim * k) (- s)
                    (adjustment_Bsum F S ind ptr dim k w))) (s * w) a
            = pg_formula_w F k (row_nz X ptr ind i)
                (correction_formula F S ind ptr k w i) l2 s w a).
  { intros a Ha. apply pg_update_formula_w; auto.
    - rewrite length_skipn, dscal_large_dscal, cblas_dscal_length, HL. nia.
    - intros c Hc. rewrite nth_skipn_off, dscal_large_dscal.
      rewrite nth_cblas_dscal by (rewrite ?HL; nia).
      rewrite <- (adjustment_Bsum_row F S ind ptr dim k w i) by assumption.
      now rewrite nth_row. }
  apply (for_loop_ext_inv (fun a => length a = k)).
  - apply row_length. nia.
  - intros p a _ Ha. split; [now apply Hstep|].
    rewrite <- Hstep by exact Ha. now rewrite pg_update_length.
Qed.

(** ** The driver, continued *)

Section DriverFurther.

Variable minimize_nonneg_cg : cg_minimizer.
Variable tnc : tnc_minimizer.
Variable malloc_ok : buffer -> bool.
Variable sigint : nat -> bool.
Variables (Xr : list R) (Xr_indptr Xr_indices : list nat).
Variables (Xc : list R) (Xc_indptr Xc_indices : list nat).
Variables (dimA dimB k : nat).
Variables (l2_reg l1_reg w_mult : R).
Variable method : Method.
Variable limit_step : bool.
Variable maxupd : nat.

Local Abbreviation half_A_ :=
  (half_A minimize_nonneg_cg tnc Xr Xr_indptr Xr_indices dimA dimB k
          l2_reg l1_reg w_mult method limit_step maxupd).
Local Abbreviation half_B_ :=
  (half_B minimize_nonneg_cg tnc Xr Xc Xc_indptr Xc_indices dimA dimB k
          l2_reg l1_reg w_mult method limit_step maxupd).
Local Abbreviation halves_ :=
  (halves minimize_nonneg_cg tnc Xr Xr_indptr Xr_indices
          Xc Xc_indptr Xc_indices dimA dimB k l2_reg l1_reg w_mult method
          limit_step maxupd).
Local Abbreviation outer_loop_ :=
  (outer_loop minimize_nonneg_cg tnc sigint Xr Xr_indptr Xr_indices
              Xc Xc_indptr Xc_indices dimA dimB k l2_reg l1_reg w_mult method
              limit_step maxupd).
Local Abbreviation run_poismf_ :=
  (run_poismf minimize_nonneg_cg tnc malloc_ok sigint Xr Xr_indptr Xr_indices
              Xc Xc_indptr Xc_indices dimA dimB k l2_reg l1_reg w_mult method
              limit_step maxupd).
Local Abbreviation requested_ := (requested w_mult method).
Local Abbreviation aggregate_ := (aggregate k l1_reg).
Local Abbreviation cnst_div_of_ := (cnst_div_of l2_reg).

(** X8.  With the projected-gradient method and a weight multiplier [w]
    other than 1, the half-iteration that updates [A] performs on row [i]
    [maxupd] updates
    [a <- nonneg((a + step*w*gradAscent(a) - step*C) / (1 + 2*l2*step))],
    where [C] is row [i] of the correction matrix,
    [S + (w - 1) * sum of B[j] over the observed columns j], and [S] the
    aggregate vector of [B]: the gradient step is scaled by the weight, the
    divisor is not, and the correction is scaled by [- step] once. *)
Theorem pg_weighted_update_A_half (st : driver_state) (i : nat) :
  method = pg -> w_mult <> 1 -> st_neg_step_sz st = - st_step_size st ->
  (i < dimA)%nat -> (dimA * k <= length (st_A st))%nat ->
  cols_in_range (st_B st) k (nz_cols Xr_indptr Xr_indices i) ->
  row (st_A (half_A_ (cnst_div_of_ st) st)) k i
  = for_loop maxupd
      (fun _ => pg_formula_w (st_B st) k (row_nz Xr Xr_indptr Xr_indices i)
                  (correction_formula (st_B st) (aggregate_ (st_B st) dimB)
                     Xr_indices Xr_indptr k w_mult i)
                  l2_reg (st_step_size st) w_mult)
      (row (st_A st) k i).
Proof.
  intros Hm Hw Hneg Hi HA Hcols. unfold half_A, cnst_div_of. rewrite Hm.
  cbn [st_A]. destruct (Req_dec_T w_mult 1) as [E|_]; [contradiction|].
  rewrite Hneg. apply pg_iteration_weighted_row; auto.
  rewrite aggregate_length. lia.
Qed.

(** X9.  The half-iteration that updates [B] does the same on the column
    view: with method [pg] and weight [w] other than 1, row [i] of [B]
    receives [maxupd] updates
    [b <- nonneg((b + step*w*gradAscent(b) - step*C) / (1 + 2*l2*step))]
    with [C = S + (w - 1) * sum of A[j] over the rows j observed in column
    i] and [S] the aggregate vector of [A]. *)
Theorem pg_weighted_update_B_half (st : driver_state) (i : nat) :
  method = pg -> w_mult <> 1 -> st_neg_step_sz st = - st_step_size st ->
  (i < dimB)%nat -> (dimB * k <= length (st_B st))%nat ->
  cols_in_range (st_A st) k (nz_cols Xc_indptr Xc_indices i) ->
  row (st_B (half_B_ (cnst_div_of_ st) st)) k i
  = for_loop maxupd
      (fun _ => pg_formula_w (st_A st) k (row_nz Xc Xc_indptr Xc_indices i)
                  (correction_formula (st_A st) (aggregate_ (st_A st) dimA)
                     Xc_indices Xc_indptr k w_mult i)
                  l2_reg (st_step_size st) w_mult)
      (row (st_B st) k i).
Proof.
  intros Hm Hw Hneg Hi HB Hcols. unfold half_B, cnst_div_of. rewrite Hm.
  cbn [st_B]. destruct (Req_dec_T w_mult 1) as [E|_]; [contradiction|].
  rewrite Hneg. apply pg_iteration_weighted_row; auto.
  rewrite aggregate_length. lia.
Qed.

(** *** What a call returns *)

Lemma half_A_reads_matrices cd cd' st st' :
  method <> pg -> st_A st = st_A st' -> st_B st = st_B st' ->
  st_A (half_A_ cd st) = st_A (half_A_ cd' st')
  /\ st_B (half_A_ cd st) = st_B (half_A_ cd' st').
Proof.
  intros Hm HA HB. unfold half_A. cbn [st_A st_B]. rewrite HA, HB.
  destruct method; [split; reflexivity | split; reflexivity | congruence].
Qed.

Lemma half_B_reads_matrices cd cd' st st' :
  method <> pg -> st_A st = st_A st' -> st_B st = st_B st' ->
  st_A (half_B_ cd st) = st_A (half_B_ cd' st')
  /\ st_B (half_B_ cd st) = st_B (half_B_ cd' st').
Proof.
  intros Hm HA HB. unfold half_B. rewrite HA, HB.
  destruct method; [split; reflexivity | split; reflexivity | congruence].
Qed.

Lemma outer_loop_reads_matrices iters :
  method <> pg ->
  forall p w st st',
    st_A st = st_A st' -> st_B st = st_B st' ->
    fst (outer_loop_ iters p w st) = fst (outer_loop_ iters p w st')
    /\ st_A (snd (outer_loop_ iters p w st))
       = st_A (snd (outer_loop_ iters p w st'))
    /\ st_B (snd (outer_loop_ iters p w st))
       = st_B (snd (outer_loop_ iters p w st')).
Proof.
  intros Hm. induction iters as [|iters IH]; intros p w st st' HA HB.
  - simpl. auto.
  - simpl outer_loop.
    destruct (should_stop_procedure (deliver sigint p w)); [simpl; auto|].
    destruct (half_A_reads_matrices (cnst_div_of_ st) (cnst_div_of_ st')
                st st' Hm HA HB) as [HA1 HB1].
    destruct (should_stop_procedure
                (deliver sigint (p + 1) (deliver sigint p w)));
      [simpl; auto|].
    destruct (half_B_reads_matrices (cnst_div_of_ st) (cnst_div_of_ st')
                _ _ Hm HA1 HB1) as [HA2 HB2].
    apply IH; assumption.
Qed.

(** X10.  [step_size] is read by the projected-gradient method only: with
    [cg] or [tncg] two calls that differ in nothing but the step size
    return the same status, the same matrices and the same process
    state. *)
Theorem step_size_read_by_pg_only
    (A B : list R) (s1 s2 : R) (numiter : nat) (w0 : world) :
  method <> pg ->
  run_poismf_ A B s1 numiter w0 = run_poismf_ A B s2 numiter w0.
Proof.
  intros Hm. unfold run_poismf.
  destruct (malloc malloc_ok Cnst_sum w0) as [cs w1].
  destruct (malloc malloc_ok Buffer_arr w1) as [ba w2].
  destruct (allocate malloc_ok w_mult method cs ba
              (mk_world false (live w2))) as [[oom ptrs] w3].
  destruct oom; [reflexivity|].
  destruct (outer_loop_reads_matrices numiter Hm 0 w3
              (mk_state A B s1 (- s1)) (mk_state A B s2 (- s2))
              eq_refl eq_refl) as (Hw & HA & HB).
  destruct (outer_loop_ numiter 0 w3 (mk_state A B s1 (- s1))) as [wa sa].
  destruct (outer_loop_ numiter 0 w3 (mk_state A B s2 (- s2))) as [wb sb].
  simpl in Hw, HA, HB. now rewrite Hw, HA, HB.
Qed.

(** The matrices a call returns are those of some state of the sequence of
    half-iterations. *)
Lemma run_poismf_reaches A B step_size numiter w0 :
  let r := run_poismf_ A B step_size numiter w0 in
  let st0 := mk_state A B step_size (- step_size) in
  exists n, out_A r = st_A (halves_ n st0) /\ out_B r = st_B (halves_ n st0).
Proof.
  intros r st0. unfold r, run_poismf.
  destruct (malloc malloc_ok Cnst_sum w0) as [cs w1].
  destruct (malloc malloc_ok Buffer_arr w1) as [ba w2].
  destruct (allocate malloc_ok w_mult method cs ba
              (mk_world false (live w2))) as [[oom ptrs] w3] eqn:E.
  destruct oom.
  - exists 0%nat. split; reflexivity.
  - assert (Hw3 : should_stop_procedure w3 = false).
    { revert E. unfold allocate, malloc.
      destruct (Req_dec_T w_mult 1), method, (malloc_ok Bsum_w),
        (malloc_ok Buffer_int), (malloc_ok Zeros_tncg), (malloc_ok Inf_tncg);
        cbn; intros E; inversion E; reflexivity. }
    destruct (outer_loop_reaches minimize_nonneg_cg tnc sigint
                Xr Xr_indptr Xr_indices Xc Xc_indptr Xc_indices dimA dimB k
                l2_reg l1_reg w_mult method limit_step maxupd
                numiter 0 w3 st0 Hw3) as (n & _ & Hst & _).
    fold st0.
    destruct (outer_loop_ numiter 0 w3 st0) as [w4 st4].
    simpl in Hst. subst st4. exists n. split; reflexivity.
Qed.

(** X11.  Whatever the allocator and the interrupts do, the matrices a call
    returns are those left by a whole number [n <= 2 * numiter] of
    half-iterations: the status is 0, or it is 1 and no half-iteration was
    run.  A row loop is never abandoned half way. *)
Theorem run_poismf_whole_half_iterations
    (A B : list R) (step_size : R) (numiter : nat) (w0 : world) :
  let r := run_poismf_ A B step_size numiter w0 in
  let st0 := mk_state A B step_size (- step_size) in
  exists n, (n <= 2 * numiter)%nat
    /\ out_A r = st_A (halves_ n st0) /\ out_B r = st_B (halves_ n st0)
    /\ (ret_code r = 0%Z \/ (ret_code r = 1%Z /\ n = 0%nat)).
Proof.
  intros r st0.
  destruct (requested_cases malloc_ok sigint 0%nat w_mult method)
    as [Hok | Hfail].
  - destruct (run_poismf_success minimize_nonneg_cg tnc malloc_ok sigint
                Xr Xr_indptr Xr_indices Xc Xc_indptr Xc_indices dimA dimB k
                l2_reg l1_reg w_mult method limit_step maxupd
                A B step_size numiter w0 Hok)
      as (ptrs & w1 & Hw1 & _ & Hret & HA & HB & _).
    fold r in Hret, HA, HB.
    destruct (outer_loop_reaches minimize_nonneg_cg tnc sigint
                Xr Xr_indptr Xr_indices Xc Xc_indptr Xc_indices dimA dimB k
                l2_reg l1_reg w_mult method limit_step maxupd
                numiter 0 w1 st0 Hw1) as (n & Hn & Hst & _).
    exists n. fold st0 in HA, HB. rewrite HA, HB, Hst. auto.
  - destruct (run_poismf_failure minimize_nonneg_cg tnc malloc_ok sigint
                Xr Xr_indptr Xr_indices Xc Xc_indptr Xc_indices dimA dimB k
                l2_reg l1_reg w_mult method limit_step maxupd
                A B step_size numiter w0 Hfail)
      as (Hret & HA & HB & _).
    fold r in Hret, HA, HB.
    exists 0%nat. rewrite HA, HB, Hret. repeat split; [lia | now right].
Qed.

(** X12.  A call that obtains its buffers and is not interrupted before
    its last test of the flag returns 0 with the matrices left by all
    [2 * numiter] half-iterations, [A] and [B] alternating, and with the
    flag cleared; the value of the flag at the time of the call does not
    matter. *)
Theorem run_poismf_completes
    (A B : list R) (step_size : R) (numiter : nat) (w0 : world) :
  (forall b, requested_ b = true -> malloc_ok b = true) ->
  (forall q, (q < 2 * numiter)%nat -> sigint q = false) ->
  let r := run_poismf_ A B step_size numiter w0 in
  let st0 := mk_state A B step_size (- step_size) in
  ret_code r = 0%Z
  /\ out_A r = st_A (halves_ (2 * numiter) st0)
  /\ out_B r = st_B (halves_ (2 * numiter) st0)
  /\ should_stop_procedure (out_world r) = false.
Proof.
  intros Hok Hq r st0.
  destruct (run_poismf_uninterrupted minimize_nonneg_cg tnc malloc_ok sigint
              Xr Xr_indptr Xr_indices Xc Xc_indptr Xc_indices dimA dimB k
              l2_reg l1_reg w_mult method limit_step maxupd
              A B step_size numiter w0 Hok Hq) as (H1 & H2 & H3).
  destruct (run_poismf_success minimize_nonneg_cg tnc malloc_ok sigint
              Xr Xr_indptr Xr_indices Xc Xc_indptr Xc_indices dimA dimB k
              l2_reg l1_reg w_mult method limit_step maxupd
              A B step_size numiter w0 Hok)
    as (ptrs & w1 & _ & _ & _ & _ & _ & Hw).
  repeat split; try assumption.
  subst r. rewrite Hw. apply cleanup_flag.
Qed.

End DriverFurther.

(** ** Projected gradient without inner updates *)

Lemma pg_iteration_no_update A B Xr ptr ind dimA k cd cs bw s w :
  pg_iteration A B Xr ptr ind dimA k cd cs bw s w 0 = A.
Proof.
  unfold pg_iteration.
  apply (for_loop_ind (fun _ M => M = A)); [reflexivity|].
  intros i t _ ->. apply in_place_id.
Qed.

Lemma halves_pg_no_update m t Xr Xr_indptr Xr_indices Xc Xc_indptr Xc_indices
    dimA dimB k l2 l1 w limit n st :
  st_A (halves m t Xr Xr_indptr Xr_indices Xc Xc_indptr Xc_indices dimA dimB
          k l2 l1 w pg limit 0 n st) = st_A st
  /\ st_B (halves m t Xr Xr_indptr Xr_indices Xc Xc_indptr Xc_indices dimA
             dimB k l2 l1 w pg limit 0 n st) = st_B st.
Proof.
  unfold halves.
  apply (for_loop_ind (fun _ s => st_A s = st_A st /\ st_B s = st_B st));
    [split; reflexivity|].
  intros i s _ [HA HB]. unfold nth_half.
  destruct (Nat.even i).
  - unfold half_A. cbn [st_A st_B]. now rewrite pg_iteration_no_update.
  - unfold half_B. cbn [st_A st_B]. now rewrite pg_iteration_no_update.
Qed.

(** X13.  With the projected-gradient method and [maxupd = 0] a call
    returns [A] and [B] as it was given them, for every number of outer
    iterations and whatever the allocator and the interrupts do. *)
Theorem pg_without_inner_updates
    (m : cg_minimizer) (t : tnc_minimizer) (malloc_ok : buffer -> bool)
    (sigint : nat -> bool) (Xr : list R) (Xr_indptr Xr_indices : list nat)
    (Xc : list R) (Xc_indptr Xc_indices : list nat) (dimA dimB k : nat)
    (l2 l1 w : R) (limit : bool) (A B : list R) (step_size : R)
    (numiter : nat) (w0 : world) :
  let r := run_poismf m t malloc_ok sigint Xr Xr_indptr Xr_indices
             Xc Xc_indptr Xc_indices dimA dimB k l2 l1 w pg limit 0
             A B step_size numiter w0 in
  out_A r = A /\ out_B r = B.
Proof.
  intros r.
  destruct (run_poismf_reaches m t malloc_ok sigint Xr Xr_indptr Xr_indices
              Xc Xc_indptr Xc_indices dimA dimB k l2 l1 w pg limit 0
              A B step_size numiter w0) as (n & HA & HB).
  fold r in HA, HB. rewrite HA, HB.
  apply (halves_pg_no_update m t Xr Xr_indptr Xr_indices Xc Xc_indptr
           Xc_indices dimA dimB k l2 l1 w limit n
           (mk_state A B step_size (- step_size))).
Qed.

(** ** The further properties on concrete inputs *)

Lemma weight_two : 2 <> 1.
Proof. lra. Defined.

(** X8 on row 0 of [A] in the scenario, with weight 2. *)
Lemma pg_weighted_update_A_half_witness :
  (pg = pg /\ 2 <> 1 /\ st_neg_step_sz sc_state = - st_step_size sc_state
   /\ (0 < 2)%nat /\ (2 * 1 <= length (st_A sc_state))%nat
   /\ cols_in_range (st_B sc_state) 1 (nz_cols sc_indptr sc_indices 0))
  /\ row (st_A (half_A one_step_cg one_step_tnc sc_X sc_indptr sc_indices
                  2 2 1 0 0 2 pg false 1 (cnst_div_of 0 sc_state) sc_state))
         1 0
     = for_loop 1
         (fun _ => pg_formula_w (st_B sc_state) 1
                     (row_nz sc_X sc_indptr sc_indices 0)
                     (correction_formula (st_B sc_state)
                        (aggregate 1 0 (st_B sc_state) 2) sc_indices
                        sc_indptr 1 2 0)
                     0 (st_step_size sc_state) 2)
         (row (st_A sc_state) 1 0).
Proof.
  assert (H1 : (0 < 2)%nat) by lia.
  assert (H2 : (2 * 1 <= length (st_A sc_state))%nat) by (simpl; lia).
  split.
  - repeat split; try reflexivity; try assumption;
      [exact weight_two | exact sc_cols_in_range].
  - apply (pg_weighted_update_A_half one_step_cg one_step_tnc sc_X sc_indptr
             sc_indices 2 2 1 0 0 2 pg false 1 sc_state 0
             eq_refl weight_two eq_refl H1 H2 sc_cols_in_range).
Defined.

(** X9 on row 0 of [B] in the scenario, with weight 2. *)
Lemma pg_weighted_update_B_half_witness :
  (pg = pg /\ 2 <> 1 /\ st_neg_step_sz sc_state = - st_step_size sc_state
   /\ (0 < 2)%nat /\ (2 * 1 <= length (st_B sc_state))%nat
   /\ cols_in_range (st_A sc_state) 1 (nz_cols sc_indptr sc_indices 0))
  /\ row (st_B (half_B one_step_cg one_step_tnc sc_X sc_X sc_indptr sc_indices
                  2 2 1 0 0 2 pg false 1 (cnst_div_of 0 sc_state) sc_state))
         1 0
     = for_loop 1
         (fun _ => pg_formula_w (st_A sc_state) 1
                     (row_nz sc_X sc_indptr sc_indices 0)
                     (correction_formula (st_A sc_state)
                        (aggregate 1 0 (st_A sc_state) 2) sc_indices
                        sc_indptr 1 2 0)
                     0 (st_step_size sc_state) 2)
         (row (st_B sc_state) 1 0).
Proof.
  assert (H1 : (0 < 2)%nat) by lia.
  assert (H2 : (2 * 1 <= length (st_B sc_state))%nat) by (simpl; lia).
  split.
  - repeat split; try reflexivity; try assumption;
      [exact weight_two | exact sc_A_cols_in_range].
  - apply (pg_weighted_update_B_half one_step_cg one_step_tnc sc_X sc_X
             sc_indptr sc_indices 2 2 1 0 0 2 pg false 1 sc_state 0
             eq_refl weight_two eq_refl H1 H2 sc_A_cols_in_range).
Defined.

Lemma cg_is_not_pg : cg <> pg.
Proof. discriminate. Defined.

(** X10 on the scenario with the conjugate-gradient method: the step sizes
    0.1 and 0.5 give the same outcome. *)
Lemma step_size_read_by_pg_only_witness :
  cg <> pg
  /\ run_poismf one_step_cg one_step_tnc always_ok never_interrupted
       sc_X sc_indptr sc_indices sc_X sc_indptr sc_indices 2 2 1 0 0 1
       cg false 1 sc_A sc_B (1 / 10) 1 idle
     = run_poismf one_step_cg one_step_tnc always_ok never_interrupted
         sc_X sc_indptr sc_indices sc_X sc_indptr sc_indices 2 2 1 0 0 1
         cg false 1 sc_A sc_B (1 / 2) 1 idle.
Proof.
  split; [exact cg_is_not_pg|].
  apply (step_size_read_by_pg_only one_step_cg one_step_tnc always_ok
           never_interrupted sc_X sc_indptr sc_indices sc_X sc_indptr
           sc_indices 2 2 1 0 0 1 cg false 1 sc_A sc_B (1 / 10) (1 / 2) 1
           idle cg_is_not_pg).
Defined.

Lemma always_ok_obtains w method :
  forall b, requested w method b = true -> always_ok b = true.
Proof. intros b _. reflexivity. Defined.

Lemma never_interrupted_below n :
  forall q, (q < n)%nat -> never_interrupted q = false.
Proof. intros q _. reflexivity. Defined.

(** X12 on one outer iteration of the scenario, entered with the flag
    set. *)
Lemma run_poismf_completes_witness :
  ((forall b, requested 1 pg b = true -> always_ok b = true)
   /\ (forall q, (q < 2 * 1)%nat -> never_interrupted q = false))
  /\ ret_code
       (run_poismf one_step_cg one_step_tnc always_ok never_interrupted
          sc_X sc_indptr sc_indices sc_X sc_indptr sc_indices 2 2 1 0 0 1
          pg false 1 sc_A sc_B sc_step 1 (mk_world true [])) = 0%Z.
Proof.
  split.
  - exact (conj (always_ok_obtains 1 pg) (never_interrupted_below (2 * 1))).
  - apply (run_poismf_completes one_step_cg one_step_tnc always_ok
             never_interrupted sc_X sc_indptr sc_indices sc_X sc_indptr
             sc_indices 2 2 1 0 0 1 pg false 1 sc_A sc_B sc_step 1
             (mk_world true []) (always_ok_obtains 1 pg)
             (never_interrupted_below (2 * 1))).
Defined.

(** ** The gradient callbacks against the objective callbacks *)

Lemma set_coord_same a c : (c < length a)%nat -> set_coord a c (nth c a 0) = a.
Proof.
  unfold set_coord. revert c; induction a as [|x a IH]; intros [|c] H;
    simpl in *; try lia; [reflexivity|].
  f_equal. apply IH. lia.
Qed.

Lemma nth_set_coord a c t : (c < length a)%nat -> nth c (set_coord a c t) 0 = t.
Proof.
  unfold set_coord. revert c; induction a as [|x a IH]; intros [|c] H;
    simpl in *; try lia; [reflexivity|].
  apply IH. lia.
Qed.

(** A dot product is affine in each coordinate of its first argument. *)
Lemma cblas_ddot_set_coord n a v c t :
  (c < n)%nat -> (c < length a)%nat ->
  cblas_ddot n (set_coord a c t) v
  = cblas_ddot n a v + (t - nth c a 0) * nth c v 0.
Proof.
  unfold set_coord.
  revert a v c; induction n as [|n IH]; intros [|x a] [|y v] [|c] Hn Ha;
    simpl in *; try lia; try ring.
  rewrite IH by lia. ring.
Qed.

Lemma cblas_ddot_set_coord_both n a c t :
  (c < n)%nat -> (c < length a)%nat ->
  cblas_ddot n (set_coord a c t) (set_coord a c t)
  = cblas_ddot n a a + (t - nth c a 0) * nth c a 0 + (t - nth c a 0) * t.
Proof.
  intros Hn Ha.
  rewrite cblas_ddot_set_coord, nth_set_coord by assumption.
  rewrite (cblas_ddot_comm n a), cblas_ddot_set_coord by assumption.
  reflexivity.
Qed.

Lemma derivable_pt_lim_affine p q x0 :
  derivable_pt_lim (fun t => p + (t - x0) * q) x0 q.
Proof.
  intros eps Heps. exists (mkposreal 1 Rlt_0_1). intros h Hh _.
  replace ((p + (x0 + h - x0) * q - (p + (x0 - x0) * q)) / h - q) with 0
    by (field; exact Hh).
  now rewrite Rabs_R0.
Qed.

Lemma derivable_pt_lim_square a0 x0 :
  derivable_pt_lim (fun t => a0 + (t - x0) * x0 + (t - x0) * t) x0 (2 * x0).
Proof.
  intros eps Heps. exists (mkposreal eps Heps). intros h Hh Hlt.
  replace ((a0 + (x0 + h - x0) * x0 + (x0 + h - x0) * (x0 + h)
            - (a0 + (x0 - x0) * x0 + (x0 - x0) * x0)) / h - 2 * x0)
    with h by (field; exact Hh).
  exact Hlt.
Qed.

Lemma derivable_pt_lim_ln_affine p q x0 :
  0 < p -> derivable_pt_lim (fun t => ln (p + (t - x0) * q)) x0 (q / p).
Proof.
  intros Hp.
  replace (q / p) with (/ p * q) by (field; lra).
  apply (derivable_pt_lim_comp (fun t => p + (t - x0) * q) ln x0 q (/ p)).
  - apply derivable_pt_lim_affine.
  - replace (p + (x0 - x0) * q) with p by ring.
    now apply derivable_pt_lim_ln.
Qed.

Lemma derivable_pt_lim_Rsum (g : nat -> R -> R) (g' : nat -> R) l x :
  (forall ix, In ix l -> derivable_pt_lim (g ix) x (g' ix)) ->
  derivable_pt_lim (fun t => Rsum (map (fun ix => g ix t) l)) x
                   (Rsum (map g' l)).
Proof.
  induction l as [|ix l IH]; intros H; simpl.
  - apply (derivable_pt_lim_const 0 x).
  - apply (derivable_pt_lim_plus (g ix)
             (fun t => Rsum (map (fun ix => g ix t) l)) x (g' ix)
             (Rsum (map g' l))).
    + apply H. now left.
    + apply IH. intros j Hj. apply H. now right.
Qed.

(** The objective of a row context along coordinate [c] of its row. *)
Lemma value_formula_set_coord a k fd c t :
  length a = k -> (c < k)%nat ->
  value_formula (set_coord a c t) k fd
  = (dot k (fd_Bsum fd) a + (t - nth c a 0) * nth c (fd_Bsum fd) 0)
    + fd_l2_reg fd * (dot k a a + (t - nth c a 0) * nth c a 0
                      + (t - nth c a 0) * t)
    - fd_w_mult fd
      * Rsum (map (fun ix => nth ix (fd_Xr fd) 0
                             * ln (fd_pred a k fd ix
                                   + (t - nth c a 0)
                                     * nth c (fd_row fd k ix) 0))
                  (seq 0 (fd_nnz_this fd))).
Proof.
  intros Ha Hc. unfold value_formula, fd_pred, dot.
  rewrite (cblas_ddot_comm k (fd_Bsum fd) (set_coord a c t)).
  rewrite cblas_ddot_set_coord, cblas_ddot_set_coord_both by lia.
  rewrite (cblas_ddot_comm k a (fd_Bsum fd)).
  f_equal. f_equal. apply Rsum_ext. intros ix _.
  now rewrite cblas_ddot_set_coord by lia.
Qed.

Lemma value_formula_derivative a k fd c :
  length a = k -> fdata_wf k fd -> preds_positive a k fd -> (c < k)%nat ->
  derivable_pt_lim (fun t => value_formula (set_coord a c t) k fd)
    (nth c a 0)
    (nth c (fd_Bsum fd) 0 + 2 * fd_l2_reg fd * nth c a 0
     - fd_w_mult fd * nz_sum a k fd c).
Proof.
  intros Ha Hwf Hpos Hc.
  apply (derivable_pt_lim_ext
    (fun t =>
       (dot k (fd_Bsum fd) a + (t - nth c a 0) * nth c (fd_Bsum fd) 0)
       + fd_l2_reg fd * (dot k a a + (t - nth c a 0) * nth c a 0
                         + (t - nth c a 0) * t)
       - fd_w_mult fd
         * Rsum (map (fun ix => nth ix (fd_Xr fd) 0
                                * ln (fd_pred a k fd ix
                                      + (t - nth c a 0)
                                        * nth c (fd_row fd k ix) 0))
                     (seq 0 (fd_nnz_this fd))))).
  { intros t. symmetry. now apply value_formula_set_coord. }
  replace (nth c (fd_Bsum fd) 0 + 2 * fd_l2_reg fd * nth c a 0
           - fd_w_mult fd * nz_sum a k fd c)
    with (nth c (fd_Bsum fd) 0 + fd_l2_reg fd * (2 * nth c a 0)
          - fd_w_mult fd * nz_sum a k fd c) by ring.
  apply (derivable_pt_lim_minus
    (fun t =>
       (dot k (fd_Bsum fd) a + (t - nth c a 0) * nth c (fd_Bsum fd) 0)
       + fd_l2_reg fd * (dot k a a + (t - nth c a 0) * nth c a 0
                         + (t - nth c a 0) * t))
    (fun t =>
       fd_w_mult fd
       * Rsum (map (fun ix => nth ix (fd_Xr fd) 0
                              * ln (fd_pred a k fd ix
                                    + (t - nth c a 0)
                                      * nth c (fd_row fd k ix) 0))
                   (seq 0 (fd_nnz_this fd))))).
  - apply (derivable_pt_lim_plus
      (fun t => dot k (fd_Bsum fd) a
                + (t - nth c a 0) * nth c (fd_Bsum fd) 0)
      (fun t => fd_l2_reg fd * (dot k a a + (t - nth c a 0) * nth c a 0
                                + (t - nth c a 0) * t))).
    + apply derivable_pt_lim_affine.
    + apply (derivable_pt_lim_scal
        (fun t => dot k a a + (t - nth c a 0) * nth c a 0
                  + (t - nth c a 0) * t)).
      apply derivable_pt_lim_square.
  - apply (derivable_pt_lim_scal
      (fun t => Rsum (map (fun ix => nth ix (fd_Xr fd) 0
                                     * ln (fd_pred a k fd ix
                                           + (t - nth c a 0)
                                             * nth c (fd_row fd k ix) 0))
                          (seq 0 (fd_nnz_this fd))))).
    unfold nz_sum.
    apply (derivable_pt_lim_Rsum
      (fun ix t => nth ix (fd_Xr fd) 0
                   * ln (fd_pred a k fd ix
                         + (t - nth c a 0) * nth c (fd_row fd k ix) 0))
      (fun ix => nth ix (fd_Xr fd) 0 / fd_pred a k fd ix
                 * nth c (fd_row fd k ix) 0)).
    intros ix Hix. apply in_seq in Hix.
    assert (Hp : 0 < fd_pred a k fd ix) by (apply Hpos; lia).
    replace (nth ix (fd_Xr fd) 0 / fd_pred a k fd ix
             * nth c (fd_row fd k ix) 0)
      with (nth ix (fd_Xr fd) 0
            * (nth c (fd_row fd k ix) 0 / fd_pred a k fd ix))
      by (field; lra).
    apply (derivable_pt_lim_scal
      (fun t => ln (fd_pred a k fd ix
                    + (t - nth c a 0) * nth c (fd_row fd k ix) 0))).
    now apply derivable_pt_lim_ln_affine.
Qed.

(** X14.  The two callbacks handed to [minimize_nonneg_cg] fit together:
    at a row [a] whose predicted values are positive, coordinate [c] of
    the vector returned by the gradient callback [grad_fun] is the partial
    derivative in [a[c]] of the value returned by [calc_fun_single]. *)
Theorem grad_fun_is_gradient_of_calc_fun_single
    (a : list R) (k : nat) (fd : fdata) (c : nat) :
  length a = k -> fdata_wf k fd -> preds_positive a k fd -> (c < k)%nat ->
  derivable_pt_lim (fun t => calc_fun_single (set_coord a c t) k fd)
    (nth c a 0) (nth c (grad_fun (fd_w_mult fd) a k fd) 0).
Proof.
  intros Ha Hwf Hpos Hc.
  assert (Hg : grad_fun (fd_w_mult fd) a k fd = gradient_formula a k fd).
  { unfold grad_fun. destruct (Req_dec_T (fd_w_mult fd) 1) as [E|E].
    - now apply calc_grad_single_spec.
    - now apply calc_grad_single_w_spec. }
  rewrite Hg, nth_gradient_formula by assumption.
  apply (derivable_pt_lim_ext
           (fun t => value_formula (set_coord a c t) k fd)).
  { intros t. symmetry. apply calc_fun_single_spec. }
  now apply value_formula_derivative.
Qed.

(** X15.  The callback handed to [tnc] does not fit together unless
    [l2_reg] is zero: the partial derivative in [a[c]] of the value
    returned by [calc_fun_and_grad] is the coordinate of the gradient it
    returns minus [2 * l2_reg * a[c]]. *)
Theorem calc_fun_and_grad_value_derivative
    (a : list R) (fd : fdata) (c : nat) :
  length a = fd_k fd -> fdata_wf (fd_k fd) fd ->
  preds_positive a (fd_k fd) fd -> (c < fd_k fd)%nat ->
  derivable_pt_lim (fun t => fst (calc_fun_and_grad (set_coord a c t) fd))
    (nth c a 0)
    (nth c (snd (calc_fun_and_grad a fd)) 0 - 2 * fd_l2_reg fd * nth c a 0).
Proof.
  intros Ha Hwf Hpos Hc.
  rewrite calc_fun_and_grad_grad, nth_gradient_formula by assumption.
  apply (derivable_pt_lim_ext
           (fun t => value_formula (set_coord a c t) (fd_k fd) fd
                     - fd_l2_reg fd
                       * (dot (fd_k fd) a a + (t - nth c a 0) * nth c a 0
                          + (t - nth c a 0) * t))).
  { intros t. rewrite calc_fun_and_grad_value. unfold dot.
    now rewrite cblas_ddot_set_coord_both by lia. }
  replace (nth c (fd_Bsum fd) 0 + 2 * fd_l2_reg fd * nth c a 0
           - fd_w_mult fd * nz_sum a (fd_k fd) fd c
           - 2 * fd_l2_reg fd * nth c a 0)
    with (nth c (fd_Bsum fd) 0 + 2 * fd_l2_reg fd * nth c a 0
          - fd_w_mult fd * nz_sum a (fd_k fd) fd c
          - fd_l2_reg fd * (2 * nth c a 0)) by ring.
  apply (derivable_pt_lim_minus
    (fun t => value_formula (set_coord a c t) (fd_k fd) fd)
    (fun t => fd_l2_reg fd
              * (dot (fd_k fd) a a + (t - nth c a 0) * nth c a 0
                 + (t - nth c a 0) * t))).
  - now apply value_formula_derivative.
  - apply (derivable_pt_lim_scal
      (fun t => dot (fd_k fd) a a + (t - nth c a 0) * nth c a 0
                + (t - nth c a 0) * t)).
    apply derivable_pt_lim_square.
Qed.

(** ** The row problems of the conjugate-gradient and truncated-Newton
    methods *)

Lemma map_seq_shift {T : Type} (f : nat -> T) lo n :
  map f (seq lo n) = map (fun ix => f (lo + ix)%nat) (seq 0 n).
Proof.
  revert f lo; induction n as [|n IH]; intros f lo; simpl; [reflexivity|].
  rewrite Nat.add_0_r. f_equal.
  rewrite (IH f (S lo)), (IH (fun ix => f (lo + ix)%nat) 1%nat).
  apply map_ext. intros ix. f_equal. lia.
Qed.

Lemma row_data_fields B X ptr ind k Bsum l2 w bw i :
  let d := row_data B X ptr ind k Bsum l2 w bw i in
  fd_B d = B /\ fd_Bsum d = row_stats k w Bsum bw i
  /\ fd_Xr d = skipn (nth i ptr 0%nat) X
  /\ fd_X_ind d = skipn (nth i ptr 0%nat) ind
  /\ fd_nnz_this d = (nth (i + 1) ptr 0 - nth i ptr 0)%nat
  /\ fd_l2_reg d = l2 /\ fd_w_mult d = w /\ fd_k d = k.
Proof.
  unfold row_data, row_stats. destruct (Req_dec_T w 1); cbn; repeat split.
Qed.

Lemma row_data_wf B X ptr ind k Bsum l2 w bw i :
  (k <= length (row_stats k w Bsum bw i))%nat ->
  cols_in_range B k (nz_cols ptr ind i) ->
  fdata_wf k (row_data B X ptr ind k Bsum l2 w bw i).
Proof.
  intros HS Hcols.
  destruct (row_data_fields B X ptr ind k Bsum l2 w bw i)
    as (HB & HSum & _ & HI & HN & _).
  split; [now rewrite HSum|].
  rewrite HB, HI, HN. intros ix Hix. rewrite nth_skipn_off.
  unfold cols_in_range, nz_cols in Hcols. rewrite Forall_forall in Hcols.
  apply Hcols. apply in_map_iff. exists (nth i ptr 0 + ix)%nat.
  split; [reflexivity|]. apply in_seq. lia.
Qed.

(** The value callback on the context of row [i], in terms of the fixed
    matrix and the nonzeros of the row. *)
Lemma calc_fun_single_row_objective B X ptr ind k Bsum l2 w bw i a :
  calc_fun_single a k (row_data B X ptr ind k Bsum l2 w bw i)
  = row_objective k (row_stats k w Bsum bw i) l2 w B (row_nz X ptr ind i) a.
Proof.
  destruct (row_data_fields B X ptr ind k Bsum l2 w bw i)
    as (HB & HSum & HX & HI & HN & Hl2 & Hw & _).
  rewrite calc_fun_single_spec. unfold value_formula, row_objective.
  rewrite HSum, HN, Hl2, Hw. f_equal. f_equal.
  unfold row_nz, nz_vals, nz_cols.
  rewrite combine_map_seq, map_map. cbn [fst snd].
  rewrite (Rsum_seq_shift _ (nth i ptr 0%nat)).
  apply Rsum_ext. intros ix _.
  unfold fd_pred, fd_row. rewrite HX, HI, HB, !nth_skipn_off. reflexivity.
Qed.

(** The gradient callback on the context of row [i]. *)
Lemma grad_fun_row_gradient B X ptr ind k Bsum l2 w bw i a :
  length a = k -> (k <= length (row_stats k w Bsum bw i))%nat ->
  cols_in_range B k (nz_cols ptr ind i) ->
  grad_fun w a k (row_data B X ptr ind k Bsum l2 w bw i)
  = row_gradient k (row_stats k w Bsum bw i) l2 w B (row_nz X ptr ind i) a.
Proof.
  intros Ha HS Hcols.
  pose proof (row_data_wf B X ptr ind k Bsum l2 w bw i HS Hcols) as Hwf.
  destruct (row_data_fields B X ptr ind k Bsum l2 w bw i)
    as (HB & HSum & HX & HI & HN & Hl2 & Hw & _).
  assert (Hg : grad_fun w a k (row_data B X ptr ind k Bsum l2 w bw i)
               = gradient_formula a k (row_data B X ptr ind k Bsum l2 w bw i)).
  { unfold grad_fun. destruct (Req_dec_T w 1) as [E|E].
    - apply calc_grad_single_spec; auto. now rewrite Hw.
    - now apply calc_grad_single_w_spec. }
  rewrite Hg. unfold gradient_formula, row_gradient, gradAscent.
  rewrite HSum, HN, Hl2, Hw. do 3 f_equal.
  unfold row_nz, nz_vals, nz_cols.
  rewrite combine_map_seq, map_map. cbn [fst snd].
  rewrite (map_seq_shift _ (nth i ptr 0%nat)).
  apply map_ext. intros ix.
  unfold fd_pred, fd_row. rewrite HX, HI, HB, !nth_skipn_off. reflexivity.
Qed.

(** X16.  [cg_iteration] solves one problem per row: row [i] of its result
    is what [minimize_nonneg_cg] returns from row [i] of [A] with at most
    [maxupd] iterations, for the value callback
    [a |-> dot(S, a) + l2 * dot(a, a) - w * sum x * log(dot(a, B[col]))]
    and the gradient callback
    [a |-> S + 2 * l2 * a - w * sum (x / dot(a, B[col])) * B[col]], the sums
    running over the nonzeros of entity [i] and [S] being the aggregate
    vector for weight 1, row [i] of the correction matrix otherwise.  The
    size of the array and the cells after its first [dimA] rows are
    kept. *)
Theorem cg_iteration_row_problem
    (m : cg_minimizer) (A B Xr : list R) (Xr_indptr Xr_indices : list nat)
    (dimA k : nat) (limit_step : bool) (Bsum : list R) (l2_reg w_mult : R)
    (maxupd : nat) (Bsum_w : list R) (i : nat) :
  cg_in_place m -> (dimA * k <= length A)%nat -> (i < dimA)%nat ->
  let d := row_data B Xr Xr_indptr Xr_indices k Bsum l2_reg w_mult Bsum_w i in
  let stats := row_stats k w_mult Bsum Bsum_w i in
  let nz := row_nz Xr Xr_indptr Xr_indices i in
  let A' := cg_iteration m A B Xr Xr_indptr Xr_indices dimA k limit_step Bsum
              l2_reg w_mult maxupd Bsum_w in
  row A' k i
  = m (row A k i) k calc_fun_single (grad_fun w_mult) d
      (1 / 100) 150%nat maxupd (1 / 4) (1 / 100) 20%nat limit_step
  /\ (forall a,
        calc_fun_single a k d = row_objective k stats l2_reg w_mult B nz a)
  /\ (forall a, length a = k -> (k <= length stats)%nat ->
        cols_in_range B k (nz_cols Xr_indptr Xr_indices i) ->
        grad_fun w_mult a k d = row_gradient k stats l2_reg w_mult B nz a)
  /\ length A' = length A
  /\ skipn (dimA * k) A' = skipn (dimA * k) A.
Proof.
  intros Hm HA Hi d stats nz A'.
  destruct (row_tasks_spec dimA k
    (fun ia a =>
       m a k calc_fun_single (grad_fun w_mult)
         (row_data B Xr Xr_indptr Xr_indices k Bsum l2_reg w_mult Bsum_w ia)
         (1 / 100) 150%nat maxupd (1 / 4) (1 / 100) 20%nat limit_step)
    (seq 0 dimA)
    (fun ia r Hr => Hm r k _ _ _ _ _ _ _ _ _ _ Hr)
    (seq_NoDup dimA 0)
    (fun j Hj => proj2 (proj1 (in_seq dimA 0 j) Hj)) A HA)
    as (Hl & Hin & _ & Htl).
  split; [apply Hin; apply in_seq; lia|].
  split; [intros a; apply calc_fun_single_row_objective|].
  split; [intros a; apply grad_fun_row_gradient|].
  split; [exact Hl | exact Htl].
Qed.

(** X17.  [tncg_iteration] solves one bound-constrained problem per row:
    row [i] of its result is what [tnc] returns from row [i] of [A] for the
    callback [calc_fun_and_grad] on the context of entity [i], with the
    bounds it is handed, at most [maxupd] function evaluations and
    [maxCGit] inner conjugate-gradient iterations, where [maxCGit] is
    [k / 2] clamped to the range from 1 to 50: 1 for [k <= 1], [k / 2] for
    [2 <= k <= 101], 50 for [k >= 102].  The size of the array and the
    cells after its first [dimA] rows are kept. *)
Theorem tncg_iteration_row_problem
    (t : tnc_minimizer) (A B Xr : list R) (Xr_indptr Xr_indices : list nat)
    (dimA k : nat) (Bsum : list R) (l2_reg w_mult : R) (maxupd : nat)
    (zeros_tncg : list R) (inf_tncg : list upper_bound) (Bsum_w : list R)
    (i : nat) :
  tnc_respects_low t -> length zeros_tncg = k ->
  (dimA * k <= length A)%nat -> (i < dimA)%nat ->
  let d := row_data B Xr Xr_indptr Xr_indices k Bsum l2_reg w_mult Bsum_w i in
  let A' := tncg_iteration t A B Xr Xr_indptr Xr_indices dimA k Bsum l2_reg
              w_mult maxupd zeros_tncg inf_tncg Bsum_w in
  let maxCGit := Nat.max 1 (Nat.min 50 (k / 2)) in
  row A' k i
  = t k (row A k i) calc_fun_and_grad d zeros_tncg inf_tncg maxCGit
      maxupd (1 / 4) 10 0 0 (1 / 10000) (-1) (-1) (13 / 10)
  /\ ((k <= 1)%nat -> maxCGit = 1%nat)
  /\ ((2 <= k <= 101)%nat -> maxCGit = (k / 2)%nat)
  /\ ((102 <= k)%nat -> maxCGit = 50%nat)
  /\ length A' = length A
  /\ skipn (dimA * k) A' = skipn (dimA * k) A.
Proof.
  intros Ht Hz HA Hi d A' maxCGit.
  destruct (row_tasks_spec dimA k
    (fun ia a =>
       t k a calc_fun_and_grad
         (row_data B Xr Xr_indptr Xr_indices k Bsum l2_reg w_mult Bsum_w ia)
         zeros_tncg inf_tncg (Nat.max 1 (Nat.min 50 (k / 2))) maxupd
         (1 / 4) 10 0 0 (1 / 10000) (-1) (-1) (13 / 10))
    (seq 0 dimA)
    (fun ia r _ => proj1 (Ht k r _ _ _ _ _ _ _ _ _ _ _ _ _ _ Hz))
    (seq_NoDup dimA 0)
    (fun j Hj => proj2 (proj1 (in_seq dimA 0 j) Hj)) A HA)
    as (Hl & Hin & _ & Htl).
  split; [apply Hin; apply in_seq; lia|].
  assert (Hdiv : (2 * (k / 2) <= k < 2 * (k / 2) + 2)%nat).
  { pose proof (Nat.div_mod_eq k 2) as E.
    pose proof (Nat.mod_upper_bound k 2) as Hm. lia. }
  unfold maxCGit.
  split; [intros Hk; lia|]. split; [intros Hk; lia|].
  split; [intros Hk; lia|].
  split; [exact Hl | exact Htl].
Qed.

(** X14 on the row [a = [1]] with the context [l2_data]. *)
Lemma grad_fun_is_gradient_witness :
  (length [1] = 1%nat /\ fdata_wf 1 l2_data /\ preds_positive [1] 1 l2_data
   /\ (0 < 1)%nat)
  /\ derivable_pt_lim (fun t => calc_fun_single (set_coord [1] 0 t) 1 l2_data)
       (nth 0 [1] 0)
       (nth 0 (grad_fun (fd_w_mult l2_data) [1] 1%nat l2_data) 0).
Proof.
  assert (H : (0 < 1)%nat) by lia.
  split.
  - exact (conj eq_refl (conj l2_data_wf (conj l2_data_positive H))).
  - apply (grad_fun_is_gradient_of_calc_fun_single [1] 1 l2_data 0 eq_refl
             l2_data_wf l2_data_positive H).
Defined.

(** X15 on the row [a = [1]] with the context [l2_data]. *)
Lemma calc_fun_and_grad_value_derivative_witness :
  (length [1] = fd_k l2_data /\ fdata_wf (fd_k l2_data) l2_data
   /\ preds_positive [1] (fd_k l2_data) l2_data /\ (0 < fd_k l2_data)%nat)
  /\ derivable_pt_lim (fun t => fst (calc_fun_and_grad (set_coord [1] 0 t)
                                       l2_data))
       (nth 0 [1] 0)
       (nth 0 (snd (calc_fun_and_grad [1] l2_data)) 0
        - 2 * fd_l2_reg l2_data * nth 0 [1] 0).
Proof.
  assert (H : (0 < fd_k l2_data)%nat) by (simpl; lia).
  split.
  - exact (conj eq_refl (conj l2_data_wf (conj l2_data_positive H))).
  - apply (calc_fun_and_grad_value_derivative [1] l2_data 0 eq_refl
             l2_data_wf l2_data_positive H).
Defined.

Lemma clip_only_cg_in_place : cg_in_place clip_only_cg.
Proof.
  intros x n f g data tol maxnfeval maxiter decr lconst max_ls limit Hx.
  unfold clip_only_cg. rewrite length_map. exact Hx.
Defined.

(** X16 on row 0 of the scenario. *)
Lemma cg_iteration_row_problem_witness :
  (cg_in_place clip_only_cg /\ (2 * 1 <= length sc_A)%nat /\ (0 < 2)%nat)
  /\ row (cg_iteration clip_only_cg sc_A sc_B sc_X sc_indptr sc_indices 2 1
            false [2] 0 1 1 []) 1 0
     = clip_only_cg (row sc_A 1 0) 1%nat calc_fun_single (grad_fun 1)
         (row_data sc_B sc_X sc_indptr sc_indices 1 [2] 0 1 [] 0)
         (1 / 100) 150%nat 1%nat (1 / 4) (1 / 100) 20%nat false.
Proof.
  assert (H1 : (2 * 1 <= length sc_A)%nat) by (simpl; lia).
  assert (H2 : (0 < 2)%nat) by lia.
  split.
  - exact (conj clip_only_cg_in_place (conj H1 H2)).
  - apply (cg_iteration_row_problem clip_only_cg sc_A sc_B sc_X sc_indptr
             sc_indices 2 1 false [2] 0 1 1 [] 0 clip_only_cg_in_place H1 H2).
Defined.

(** X17 on row 0 of the scenario, where [k = 1] and [maxCGit = 1]. *)
Lemma tncg_iteration_row_problem_witness :
  (tnc_respects_low one_step_tnc /\ length [0] = 1%nat
   /\ (2 * 1 <= length sc_A)%nat /\ (0 < 2)%nat)
  /\ row (tncg_iteration one_step_tnc sc_A sc_B sc_X sc_indptr sc_indices
            2 1 [2] 0 1 1 [0] [HUGE_VAL] []) 1 0
     = one_step_tnc 1%nat (row sc_A 1 0) calc_fun_and_grad
         (row_data sc_B sc_X sc_indptr sc_indices 1 [2] 0 1 [] 0)
         [0] [HUGE_VAL] 1%nat 1%nat (1 / 4) 10 0 0 (1 / 10000) (-1) (-1)
         (13 / 10).
Proof.
  assert (H1 : (2 * 1 <= length sc_A)%nat) by (simpl; lia).
  assert (H2 : (0 < 2)%nat) by lia.
  split.
  - exact (conj one_step_tnc_respects_low (conj eq_refl (conj H1 H2))).
  - apply (tncg_iteration_row_problem one_step_tnc sc_A sc_B sc_X sc_indptr
             sc_indices 2 1 [2] 0 1 1 [0] [HUGE_VAL] [] 0
             one_step_tnc_respects_low eq_refl H1 H2).
Defined.

(** ** Stationary rows and the projected-gradient update *)

Lemma nth_row_gradient k stats l2 w F nz a c :
  length a = k -> (k <= length stats)%nat -> cols_in_range F k (map snd nz) ->
  (c < k)%nat ->
  nth c (row_gradient k stats l2 w F nz a) 0
  = nth c stats 0 + 2 * l2 * nth c a 0 - w * nth c (gradAscent a F k nz) 0.
Proof.
  intros Ha HS Hcols Hc. unfold row_gradient.
  assert (Hg : length (gradAscent a F k nz) = k)
    by now apply gradAscent_length.
  assert (HlS : length (firstn k stats) = k) by (rewrite length_firstn; lia).
  assert (H1 : length (vadd (firstn k stats) (vscale (2 * l2) a)) = k).
  { rewrite vadd_length; rewrite ?vscale_length; congruence. }
  rewrite nth_vsub by (rewrite vscale_length; congruence).
  rewrite nth_vadd by (rewrite vscale_length; congruence).
  rewrite !nth_vscale, nth_firstn.
  destruct (Nat.ltb_spec c k); [ring | lia].
Qed.

Lemma nonneg_id x : 0 <= x -> nonneg x = x.
Proof.
  intros Hx. unfold nonneg. destruct (Rlt_dec 0 x); [reflexivity | lra].
Qed.

(** X18.  A row without a negative coordinate at which the gradient
    callback of the conjugate-gradient method returns the zero vector is
    left as it is by the inner update of [pg_iteration], for every
    non-negative step size and L2 weight: the two methods agree on the
    interior stationary points of a row problem.  [V] is the vector
    [pg_iteration] adds after the gradient step; the driver stores
    [- step] times the aggregate vector, or times the row of the correction
    matrix, there. *)
Theorem stationary_row_is_pg_fixed_point
    (B X : list R) (ptr ind : list nat) (k : nat) (Bsum : list R)
    (l2 w : R) (Bsum_w : list R) (i : nat) (step : R) (V a : list R) :
  length a = k -> Forall (Rle 0) a -> 0 <= l2 -> 0 <= step ->
  (k <= length (row_stats k w Bsum Bsum_w i))%nat ->
  cols_in_range B k (nz_cols ptr ind i) ->
  (k <= length V)%nat ->
  (forall c, (c < k)%nat ->
     nth c V 0 = - step * nth c (row_stats k w Bsum Bsum_w i) 0) ->
  grad_fun w a k (row_data B X ptr ind k Bsum l2 w Bsum_w i) = repeat 0 k ->
  pg_update B (skipn (nth i ptr 0%nat) X) (skipn (nth i ptr 0%nat) ind)
    (nth (i + 1) ptr 0 - nth i ptr 0)%nat k (1 / (1 + 2 * l2 * step)) V
    (step * w) a
  = a.
Proof.
  intros Ha Hpos Hl2 Hstep HS Hcols HV HVc Hgrad.
  rewrite grad_fun_row_gradient in Hgrad by assumption.
  apply (vec_ext k); [now rewrite pg_update_length | exact Ha |].
  intros c Hc. rewrite nth_pg_update by assumption.
  rewrite HVc by exact Hc.
  assert (Hz : nth c (row_gradient k (row_stats k w Bsum Bsum_w i) l2 w B
                        (row_nz X ptr ind i) a) 0 = 0)
    by (rewrite Hgrad; apply nth_repeat_0).
  rewrite nth_row_gradient in Hz
    by (try assumption; now rewrite map_snd_row_nz).
  assert (Hac : 0 <= nth c a 0).
  { rewrite Forall_forall in Hpos. apply Hpos. apply nth_In. lia. }
  assert (Hd : 0 < 1 + 2 * l2 * step).
  { assert (0 <= l2 * step) by now apply Rmult_le_pos. lra. }
  replace (1 / (1 + 2 * l2 * step)
           * (nth c a 0
              + step * w * nth c (gradAscent a B k (row_nz X ptr ind i)) 0
              + - step * nth c (row_stats k w Bsum Bsum_w i) 0))
    with (nth c a 0).
  - now apply nonneg_id.
  - assert (Hwg : w * nth c (gradAscent a B k (row_nz X ptr ind i)) 0
                  = nth c (row_stats k w Bsum Bsum_w i) 0
                    + 2 * l2 * nth c a 0) by lra.
    replace (step * w * nth c (gradAscent a B k (row_nz X ptr ind i)) 0)
      with (step * (w * nth c (gradAscent a B k (row_nz X ptr ind i)) 0))
      by ring.
    rewrite Hwg. field. lra.
Qed.

(** A stationary row: one nonzero [x = 1] in column 0, [B = [[1]]],
    aggregate vector [[1]], no regularisation; the gradient of the row
    objective at [a = [1]] is [1 - 1 / 1 = 0]. *)
Lemma unit_row_stats : row_stats 1 1 [1] [] 0 = [1].
Proof.
  unfold row_stats. destruct (Req_dec_T 1 1) as [_|Hn];
    [reflexivity | contradiction].
Defined.

Lemma unit_row_stationary :
  grad_fun 1 [1] 1%nat (row_data [1] [1] [0; 1]%nat [0]%nat 1 [1] 0 1 [] 0)
  = repeat 0 1.
Proof.
  unfold grad_fun, row_data. destruct (Req_dec_T 1 1) as [_|Hn];
    [|contradiction].
  unfold calc_grad_single, for_loop. simpl. f_equal. field.
Defined.

Lemma unit_row_nonneg : Forall (Rle 0) [1].
Proof. repeat constructor; lra. Defined.

Lemma unit_row_cols : cols_in_range [1] 1 (nz_cols [0; 1]%nat [0]%nat 0).
Proof. repeat constructor. Defined.

Lemma unit_row_vector c :
  (c < 1)%nat ->
  nth c [- sc_step] 0 = - sc_step * nth c (row_stats 1 1 [1] [] 0) 0.
Proof.
  intros Hc. rewrite unit_row_stats. assert (c = 0%nat) as -> by lia.
  simpl. ring.
Defined.

Lemma sc_step_nonneg : 0 <= sc_step.
Proof. unfold sc_step. lra. Defined.

(** X18 on the stationary row above with step 0.1. *)
Lemma stationary_row_is_pg_fixed_point_witness :
  (length [1] = 1%nat /\ Forall (Rle 0) [1] /\ 0 <= 0 /\ 0 <= sc_step
   /\ (1 <= length (row_stats 1 1%R [1%R] [] 0))%nat
   /\ cols_in_range [1] 1 (nz_cols [0; 1]%nat [0]%nat 0)
   /\ (1 <= length [(- sc_step)%R])%nat
   /\ grad_fun 1 [1] 1%nat
        (row_data [1] [1] [0; 1]%nat [0]%nat 1 [1] 0 1 [] 0) = repeat 0 1)
  /\ pg_update [1] (skipn (nth 0 [0; 1]%nat 0%nat) [1])
       (skipn (nth 0 [0; 1]%nat 0%nat) [0]%nat)
       (nth (0 + 1) [0; 1]%nat 0 - nth 0 [0; 1]%nat 0)%nat 1
       (1 / (1 + 2 * 0 * sc_step)) [- sc_step] (sc_step * 1) [1]
     = [1].
Proof.
  assert (H1 : (1 <= length (row_stats 1 1%R [1%R] [] 0))%nat)
    by (rewrite unit_row_stats; simpl; lia).
  assert (H2 : (1 <= length [(- sc_step)%R])%nat) by (simpl; lia).
  split.
  - exact (conj eq_refl (conj unit_row_nonneg (conj (Rle_refl 0)
             (conj sc_step_nonneg (conj H1 (conj unit_row_cols
                (conj H2 unit_row_stationary))))))).
  - apply (stationary_row_is_pg_fixed_point [1] [1] [0; 1]%nat [0]%nat 1 [1]
             0 1 [] 0 sc_step [- sc_step] [1] eq_refl unit_row_nonneg
             (Rle_refl 0) sc_step_nonneg H1 unit_row_cols H2 unit_row_vector
             unit_row_stationary).
Defined.
